(** * @vainjs/logger: a shallow embedding of the upload-coordination core

    The development follows the TypeScript sources:
    - [src/types/index.ts], [src/types/config.ts]: the data model;
    - [src/storage/indexedDB.ts]: [IndexedDBStorage];
    - [src/uploader/uploader.ts]: [LogUploader];
    - [src/utils/idle.ts]: [IdleDetector];
    - [src/uploader/uploadManager.ts]: [UploadManager];
    - [src/utils/cleanup.ts]: [CleanupManager];
    - [src/core/logger.ts]: [Logger].

    Conventions of the embedding.
    - A JavaScript [number] that the code uses as a count, an index, a day
      count or a millisecond timestamp is a [Z]; fractional values and NaN
      are outside the model.
    - A promise settles as a [Result]: [Resolved v] or [Rejected msg].
    - Every awaited platform request (an IndexedDB request, a [fetch]) has
      an [IoResult] chosen by the environment.  An awaited call is one
      atomic step that takes effect when it completes.
    - The IndexedDB object store ['logs'] has [keyPath: 'id']: it is a finite
      map from the key to the remaining properties of the record, read in
      ascending order of the keys.
    - An optional property of a configuration object is absent or carries
      a value of its type; a property explicitly set to [undefined] is
      outside the model. *)

From stdpp Require Import gmap strings list fin_maps sorting.
From Stdlib Require Import ZArith Lia.

Local Open Scope Z_scope.

(** ** src/types/index.ts *)

Inductive LogLevel := Info | Warn | Error | Debug | Trace.

Inductive UploadStrategy := Idle | Immediate.

(** [Record<string, any>]: the payload is opaque to every function below. *)
Definition Data := list (string * string).

Record LogEntry := mkLogEntry {
  id : string;
  level : LogLevel;
  title : string;
  data : Data;
  timestamp : Z;
  uploaded : option bool   (* [uploaded?: boolean] *)
}.

#[global] Instance LogLevel_eq_dec : EqDecision LogLevel.
Proof. solve_decision. Defined.

#[global] Instance UploadStrategy_eq_dec : EqDecision UploadStrategy.
Proof. solve_decision. Defined.

#[global] Instance LogEntry_eq_dec : EqDecision LogEntry.
Proof. solve_decision. Defined.

(** JavaScript truthiness of the optional flag: [!log.uploaded] is
    [negb (truthy (uploaded log))]. *)
Definition truthy (o : option bool) : bool := default false o.

(** [LoggerConfig]: every property is optional; here a property is absent
    ([None]) or carries a value of its type.  An object that carries a
    property explicitly set to [undefined] is outside the model: object
    spread would copy the [undefined] over the default. *)
Record LoggerConfig := mkLoggerConfig {
  serverUrl_opt : option string;
  debugMode_opt : option bool;
  uploadLogs_opt : option bool;
  logExpiration_opt : option Z;
  uploadStrategy_opt : option UploadStrategy;
  batchSize_opt : option Z
}.

(** [Required<LoggerConfig>]. *)
Record Config := mkConfig {
  serverUrl : string;
  debugMode : bool;
  uploadLogs : bool;
  logExpiration : Z;
  uploadStrategy : UploadStrategy;
  batchSize : Z
}.

(** ** src/types/config.ts *)

Definition DEFAULT_CONFIG : Config :=
  {| serverUrl := ""; debugMode := true; uploadLogs := true;
     logExpiration := 3; uploadStrategy := Idle; batchSize := 50 |}.

(** [{ ...base, ...userConfig }]: a property present in [userConfig] wins. *)
Definition spread (base : Config) (userConfig : LoggerConfig) : Config :=
  {| serverUrl := default (serverUrl base) (serverUrl_opt userConfig);
     debugMode := default (debugMode base) (debugMode_opt userConfig);
     uploadLogs := default (uploadLogs base) (uploadLogs_opt userConfig);
     logExpiration := default (logExpiration base) (logExpiration_opt userConfig);
     uploadStrategy := default (uploadStrategy base) (uploadStrategy_opt userConfig);
     batchSize := default (batchSize base) (batchSize_opt userConfig) |}.

Definition mergeConfig (userConfig : LoggerConfig) : Config :=
  spread DEFAULT_CONFIG userConfig.

(** The empty object [{}]. *)
Definition noConfig : LoggerConfig :=
  mkLoggerConfig None None None None None None.

(** A [Required<LoggerConfig>] read as a [LoggerConfig], for
    [{ ...this.config, ...newConfig }]. *)
Definition overConfig (c : Config) (newConfig : LoggerConfig) : LoggerConfig :=
  {| serverUrl_opt := Some (default (serverUrl c) (serverUrl_opt newConfig));
     debugMode_opt := Some (default (debugMode c) (debugMode_opt newConfig));
     uploadLogs_opt := Some (default (uploadLogs c) (uploadLogs_opt newConfig));
     logExpiration_opt := Some (default (logExpiration c) (logExpiration_opt newConfig));
     uploadStrategy_opt := Some (default (uploadStrategy c) (uploadStrategy_opt newConfig));
     batchSize_opt := Some (default (batchSize c) (batchSize_opt newConfig)) |}.

(** ** Promises and platform requests *)

Inductive Result (A : Type) :=
| Resolved (a : A)
| Rejected (msg : string).
Arguments Resolved {A} a.
Arguments Rejected {A} msg.

(** The outcome of one platform request.  For an IndexedDB request
    [IoSuccess] is [onsuccess] and [IoError] is [onerror]; for [fetch],
    [IoSuccess] is a response with [response.ok] and [IoError] is any other
    response or a thrown transport error. *)
Inductive IoResult := IoSuccess | IoError.

(** ** src/storage/indexedDB.ts *)

(** The value stored under a key: the record's properties other than its
    [keyPath] property [id]. *)
Record Stored := mkStored {
  s_level : LogLevel;
  s_title : string;
  s_data : Data;
  s_timestamp : Z;
  s_uploaded : option bool
}.

Definition value_of (log : LogEntry) : Stored :=
  mkStored (level log) (title log) (data log) (timestamp log) (uploaded log).

Definition entry_of (k : string) (v : Stored) : LogEntry :=
  mkLogEntry k (s_level v) (s_title v) (s_data v) (s_timestamp v) (s_uploaded v).

(** The object store ['logs'] of the database ['LoggerDB']. *)
Abbreviation ObjectStore := (gmap string Stored).

(** The order of IndexedDB on string keys: code unit by code unit, a proper
    prefix before its extensions.  A [string] lists the code units of the
    key; the ids that [generateLogId] makes are ASCII. *)
Definition key_le (k1 k2 : string) : Prop := String.leb k1 k2 = true.

#[global] Instance key_le_dec k1 k2 : Decision (key_le k1 k2) :=
  decide (String.leb k1 k2 = true).

(** [store.getAll()]: the records in ascending order of their key. *)
Definition getAll (os : ObjectStore) : list LogEntry :=
  (λ kv, entry_of kv.1 kv.2)
    <$> merge_sort (λ kv1 kv2, key_le kv1.1 kv2.1) (map_to_list os).

(** [log.uploaded = true] on a stored value. *)
Definition set_uploaded (v : Stored) : Stored :=
  mkStored (s_level v) (s_title v) (s_data v) (s_timestamp v) (Some true).

(** The storage object: [db] is [true] once [this.db] holds the open
    database. *)
Record IndexedDBStorage := mkStorage { db : bool }.

Module Storage.

Definition init (r : IoResult) (st : IndexedDBStorage)
  : Result unit * IndexedDBStorage :=
  match r with
  | IoError => (Rejected "Failed to open IndexedDB", st)
  | IoSuccess => (Resolved (), mkStorage true)
  end.

(** [store.add(log)]: the request fails when the key is already present. *)
Definition saveLog (log : LogEntry) (r : IoResult) (st : IndexedDBStorage)
    (os : ObjectStore) : Result unit * ObjectStore :=
  if negb (db st) then (Rejected "Database not initialized", os)
  else match r, os !! id log with
       | IoSuccess, None => (Resolved (), <[id log := value_of log]> os)
       | _, _ => (Rejected "Failed to save log", os)
       end.

Definition getUnuploadedLogs (r : IoResult) (st : IndexedDBStorage)
    (os : ObjectStore) : Result (list LogEntry) :=
  if negb (db st) then Rejected "Database not initialized"
  else match r with
       | IoError => Rejected "Failed to get unuploaded logs"
       | IoSuccess =>
           Resolved (filter (λ log, truthy (uploaded log) = false) (getAll os))
       end.

(** One id of [logIds.forEach]: the [get] reads the store as it was when
    the transaction started ([snapshot]: every [get] is queued before the
    first [put]), and the [put] writes the updated record. *)
Definition markOne (snapshot : ObjectStore) (acc : ObjectStore) (k : string)
  : ObjectStore :=
  match snapshot !! k with
  | Some v => <[k := set_uploaded v]> acc
  | None => acc
  end.

(** A failed request aborts the read-write transaction, which leaves the
    object store as it was. *)
Definition markAsUploaded (logIds : list string) (r : IoResult)
    (st : IndexedDBStorage) (os : ObjectStore) : Result unit * ObjectStore :=
  if negb (db st) || bool_decide (length logIds = 0%nat) then (Resolved (), os)
  else match r with
       | IoSuccess => (Resolved (), foldl (markOne os) os logIds)
       | IoError => (Rejected "Failed to mark log as uploaded", os)
       end.

(** [IDBKeyRange.upperBound(expirationTime)] is the closed range of the
    keys [<= expirationTime] of the index on [timestamp]; the cursor
    deletes every record in it. *)
Definition cleanupExpiredLogs (expirationDays : Z) (now : Z) (r : IoResult)
    (st : IndexedDBStorage) (os : ObjectStore) : Result unit * ObjectStore :=
  if negb (db st) then (Rejected "Database not initialized", os)
  else
    let expirationTime := now - expirationDays * 24 * 60 * 60 * 1000 in
    match r with
    | IoError => (Rejected "Failed to cleanup expired logs", os)
    | IoSuccess =>
        (Resolved (),
         filter (λ kv, ¬ (s_timestamp kv.2 ≤ expirationTime)) os)
    end.

Definition getAllLogs (r : IoResult) (st : IndexedDBStorage)
    (os : ObjectStore) : Result (list LogEntry) :=
  if negb (db st) then Rejected "Database not initialized"
  else match r with
       | IoError => Rejected "Failed to get all logs"
       | IoSuccess => Resolved (getAll os)
       end.

Definition clearAllLogs (r : IoResult) (st : IndexedDBStorage)
    (os : ObjectStore) : Result unit * ObjectStore :=
  if negb (db st) then (Rejected "Database not initialized", os)
  else match r with
       | IoError => (Rejected "Failed to clear all logs", os)
       | IoSuccess => (Resolved (), ∅)
       end.

End Storage.

(** ** The platform the objects run on *)

Inductive ConsoleLine :=
| Printed (log : LogEntry)   (* [printToConsole(log)] *)
| Diag (msg : string).       (* a diagnostic of [console.error], [warn] or [log] *)

(** A [fetch(url, { method: 'POST', body })] call; [req_logs] is [body.logs]
    and [req_uploadTime] is [body.uploadTime]. *)
Record Request := mkRequest {
  req_url : string;
  req_logs : list LogEntry;
  req_uploadTime : Z
}.

(** [storage] is the one [IndexedDBStorage] object that the logger, its
    upload manager and its cleanup manager all reference; [store] is the
    object store of the origin's database, which outlives the objects. *)
Record World := mkWorld {
  storage : IndexedDBStorage;
  store : ObjectStore;
  console : list ConsoleLine;   (* oldest line first *)
  network : list Request;       (* oldest request first *)
  now : Z;                      (* [Date.now()] *)
  browser : bool;               (* [typeof window !== 'undefined'] *)
  served : nat                  (* platform requests completed so far *)
}.

Definition set_storage (st : IndexedDBStorage) (w : World) : World :=
  mkWorld st (store w) (console w) (network w) (now w) (browser w) (served w).

Definition set_store (os : ObjectStore) (w : World) : World :=
  mkWorld (storage w) os (console w) (network w) (now w) (browser w) (served w).

Definition say (line : ConsoleLine) (w : World) : World :=
  mkWorld (storage w) (store w) (console w ++ [line]) (network w) (now w)
    (browser w) (served w).

Definition post (q : Request) (w : World) : World :=
  mkWorld (storage w) (store w) (console w) (network w ++ [q]) (now w)
    (browser w) (served w).

Definition tick (w : World) : World :=
  mkWorld (storage w) (store w) (console w) (network w) (now w) (browser w)
    (S (served w)).

(** What a suspended caller is waiting for. *)
Inductive Op :=
| OpOpen                                            (* [indexedDB.open] *)
| OpAdd (log : LogEntry)                            (* [saveLog] *)
| OpGetAll                                          (* [getUnuploadedLogs] *)
| OpMark (logIds : list string)                     (* [markAsUploaded] *)
| OpCursor (expirationDays : Z)                     (* [cleanupExpiredLogs] *)
| OpFetch (url : string) (batch : list LogEntry).   (* [uploadLogs] *)

(** The environment: the outcome of the [k]-th completed request, which
    may depend on what was requested. *)
Definition Env := nat → Op → IoResult.

(** [Array.prototype.slice(start, end)] with its relative indices. *)
Definition rel_index (len k : Z) : Z :=
  if k <? 0 then Z.max (len + k) 0 else Z.min k len.

Definition slice {A} (l : list A) (start end_ : Z) : list A :=
  let len := Z.of_nat (length l) in
  let k := rel_index len start in
  let final := rel_index len end_ in
  take (Z.to_nat (final - k)) (drop (Z.to_nat k) l).

(** [1] for an element that satisfies [P], [0] for another. *)
Definition weight {A} (P : A → bool) (x : A) : nat :=
  if P x then 1%nat else 0%nat.

(** ** src/uploader/uploader.ts *)

Module LogUploader.

Record t := mk { serverUrl : string }.

(** The object literal of [logs.map]: [uploaded] is not copied. *)
Definition wire (log : LogEntry) : LogEntry :=
  mkLogEntry (id log) (level log) (title log) (data log) (timestamp log) None.

(** [r] is the outcome of the [fetch], read only when one is made. *)
Definition uploadLogs (u : t) (logs : list LogEntry) (r : IoResult)
    (w : World) : bool * World :=
  if bool_decide (serverUrl u = "") then
    (false, say (Diag "No server URL configured for log upload") w)
  else if bool_decide (length logs = 0%nat) then (true, w)
  else
    let w := post (mkRequest (serverUrl u) (wire <$> logs) (now w)) w in
    match r with
    | IoSuccess => (true, w)
    | IoError => (false, say (Diag "Failed to upload logs") w)
    end.

End LogUploader.

(** ** src/utils/idle.ts *)

Module IdleDetector.

(** A [setTimeout] handle together with the platform's side of it: the
    timeout is [pending] until it fires or is cleared. *)
Record Timer := mkTimer { due : Z; pending : bool }.

Record t (C : Type) := mk {
  idleTimeout : Z;
  idleTimer : option Timer;
  onIdleCallback : option C;
  lastActivity : Z;
  isIdle : bool;
  listening : bool   (* the activity listeners are installed on [document] *)
}.
Arguments mk {C}.
Arguments idleTimeout {C}.
Arguments idleTimer {C}.
Arguments onIdleCallback {C}.
Arguments lastActivity {C}.
Arguments isIdle {C}.
Arguments listening {C}.

Section Detector.
Context {C : Type}.

(** [clearTimeout] of the old handle, if any, then a new [setTimeout]. *)
Definition resetTimer (now : Z) (d : t C) : t C :=
  mk (idleTimeout d) (Some (mkTimer (now + idleTimeout d) true))
    (onIdleCallback d) (lastActivity d) (isIdle d) (listening d).

Definition startIdleTimer (now : Z) (d : t C) : t C := resetTimer now d.

(** The constructor; [hasWindow] is [typeof window !== 'undefined'],
    which decides whether [setupActivityListeners] installs listeners. *)
Definition new (idleTimeoutMs : Z) (now : Z) (hasWindow : bool) : t C :=
  startIdleTimer now (mk idleTimeoutMs None None now false hasWindow).

Definition onIdle (callback : C) (d : t C) : t C :=
  mk (idleTimeout d) (idleTimer d) (Some callback) (lastActivity d)
    (isIdle d) (listening d).

(** The listener [resetIdleTimer]. *)
Definition resetIdleTimer (now : Z) (d : t C) : t C :=
  resetTimer now
    (mk (idleTimeout d) (idleTimer d) (onIdleCallback d) now false
       (listening d)).

(** The body of the timeout; the second component is the callback it
    invokes, if any. *)
Definition timeout (d : t C) : t C * option C :=
  if isIdle d then (d, None)
  else
    (mk (idleTimeout d) (idleTimer d) (onIdleCallback d) (lastActivity d)
       true (listening d),
     onIdleCallback d).

Definition destroy (d : t C) : t C :=
  mk (idleTimeout d) None None (lastActivity d) (isIdle d) false.

(** A timeout is pending on the platform. *)
Definition armed (d : t C) : bool :=
  match idleTimer d with
  | Some tm => pending tm
  | None => false
  end.

(** What can happen to a detector. *)
Inductive Event :=
| Elapse (dt : Z)        (* the clock advances by [dt] milliseconds *)
| Activity               (* an input event is dispatched on [document] *)
| OnIdle (callback : C)
| Destroy.

(** The platform runs a pending timeout once its delay has passed. *)
Definition expire (now : Z) (d : t C) : t C * option C :=
  match idleTimer d with
  | Some tm =>
      if pending tm && (due tm <=? now) then
        timeout
          (mk (idleTimeout d) (Some (mkTimer (due tm) false))
             (onIdleCallback d) (lastActivity d) (isIdle d) (listening d))
      else (d, None)
  | None => (d, None)
  end.

(** One event at clock [now]: the new clock, the detector, and the
    callback invoked by the event, if any. *)
Definition step (ev : Event) (now : Z) (d : t C) : Z * t C * option C :=
  match ev with
  | Elapse dt =>
      let now' := now + Z.max dt 0 in
      let (d', c) := expire now' d in (now', d', c)
  | Activity =>
      (now, if listening d then resetIdleTimer now d else d, None)
  | OnIdle callback => (now, onIdle callback d, None)
  | Destroy => (now, destroy d, None)
  end.

(** A run of events; the callbacks invoked, oldest first. *)
Fixpoint run (evs : list Event) (now : Z) (d : t C) : Z * t C * list C :=
  match evs with
  | [] => (now, d, [])
  | ev :: evs =>
      let '(now', d', c) := step ev now d in
      let '(now'', d'', cs) := run evs now' d' in
      (now'', d'', option_list c ++ cs)
  end.

(** The time that a sequence of clock advances adds up to. *)
Definition elapsed (dts : list Z) : Z :=
  foldr (λ dt acc, Z.max dt 0 + acc) 0 dts.

End Detector.

End IdleDetector.

(** ** src/uploader/uploadManager.ts *)

Module UploadManager.

(** The closure [async () => { await this.uploadPendingLogs() }] that
    [setupIdleUpload] registers. *)
Inductive Callback := UploadPendingLogs.

(** [this.storage] is the shared object [storage] of the [World]. *)
Record t := mk {
  uploader : LogUploader.t;
  strategy : UploadStrategy;
  batchSize : Z;
  idleDetector : IdleDetector.t Callback;
  isUploading : bool
}.

Definition set_isUploading (b : bool) (m : t) : t :=
  mk (uploader m) (strategy m) (batchSize m) (idleDetector m) b.

Definition setupIdleUpload (m : t) : t :=
  mk (uploader m) (strategy m) (batchSize m)
    (IdleDetector.onIdle UploadPendingLogs (idleDetector m)) (isUploading m).

(** The constructor; [new IdleDetector()] takes the default 5000 ms. *)
Definition new (uploader : LogUploader.t) (strategy : UploadStrategy)
    (batchSize : Z) (w : World) : t :=
  let m := mk uploader strategy batchSize
             (IdleDetector.new 5000 (now w) (browser w)) false in
  match strategy with
  | Idle => setupIdleUpload m
  | Immediate => m
  end.

Definition destroy (m : t) : t :=
  mk (uploader m) (strategy m) (batchSize m)
    (IdleDetector.destroy (idleDetector m)) (isUploading m).

(** Where a call is suspended: the [await] it stands at, with the local
    variables that are live there. *)
Inductive Frame :=
| AwaitSaveLog (log : LogEntry)
    (* handleNewLog: [await this.storage.saveLog(log)] *)
| AwaitUploadImmediately (logs : list LogEntry)
    (* uploadImmediately: [await this.uploader.uploadLogs(logs)] *)
| AwaitMarkImmediately (logs : list LogEntry)
    (* uploadImmediately: [await this.storage.markAsUploaded(logIds)] *)
| AwaitGetUnuploaded
    (* uploadPendingLogs: [await this.storage.getUnuploadedLogs()] *)
| AwaitUploadBatch (unuploadedLogs : list LogEntry) (i : Z)
    (* uploadPendingLogs: [await this.uploader.uploadLogs(batch)] *)
| AwaitMarkBatch (unuploadedLogs : list LogEntry) (i : Z).
    (* uploadPendingLogs: [await this.storage.markAsUploaded(logIds)] *)

(** A call after it ran as far as it can without waiting. *)
Inductive Status :=
| Suspended (f : Frame)
| Returned
| Thrown (msg : string).

(** The [finally] block of both upload methods. *)
Definition finally (m : t) : t := set_isUploading false m.

(** [uploadImmediately(logs)] up to its first [await]. *)
Definition uploadImmediately (logs : list LogEntry) (m : t) (w : World)
  : Status * t * World :=
  if isUploading m then (Returned, m, w)
  else (Suspended (AwaitUploadImmediately logs), set_isUploading true m, w).

(** [handleNewLog(log)] up to its first [await]. *)
Definition handleNewLog (log : LogEntry) (m : t) (w : World)
  : Status * t * World :=
  (Suspended (AwaitSaveLog log), m, w).

(** [uploadPendingLogs()] up to its first [await]. *)
Definition uploadPendingLogs (m : t) (w : World) : Status * t * World :=
  if isUploading m then (Returned, m, w)
  else (Suspended AwaitGetUnuploaded, set_isUploading true m, w).

Definition forceUpload (m : t) (w : World) : Status * t * World :=
  uploadPendingLogs m w.

(** The batch of the iteration at index [i]. *)
Definition batchAt (m : t) (unuploadedLogs : list LogEntry) (i : Z)
  : list LogEntry :=
  slice unuploadedLogs i (i + batchSize m).

(** The loop test [i < unuploadedLogs.length] and what follows it. *)
Definition forLoop (unuploadedLogs : list LogEntry) (i : Z) (m : t)
    (w : World) : Status * t * World :=
  if i <? Z.of_nat (length unuploadedLogs) then
    (Suspended (AwaitUploadBatch unuploadedLogs i), m, w)
  else (Returned, finally m, w).

(** The awaited request of frame [f] completes with [r]: the call runs on
    to its next [await] or to its end. *)
Definition resume (f : Frame) (r : IoResult) (m : t) (w : World)
  : Status * t * World :=
  match f with
  | AwaitSaveLog log =>
      match Storage.saveLog log r (storage w) (store w) with
      | (Rejected msg, _) => (Thrown msg, m, w)
      | (Resolved _, os) =>
          match strategy m with
          | Immediate => uploadImmediately [log] m (set_store os w)
          | Idle => (Returned, m, set_store os w)
          end
      end
  | AwaitUploadImmediately logs =>
      let (success, w) := LogUploader.uploadLogs (uploader m) logs r w in
      if success then (Suspended (AwaitMarkImmediately logs), m, w)
      else (Returned, finally m, w)
  | AwaitMarkImmediately logs =>
      match Storage.markAsUploaded (id <$> logs) r (storage w) (store w) with
      | (Resolved _, os) => (Returned, finally m, set_store os w)
      | (Rejected _, _) =>
          (Returned, finally m,
           say (Diag "Failed to upload logs immediately") w)
      end
  | AwaitGetUnuploaded =>
      match Storage.getUnuploadedLogs r (storage w) (store w) with
      | Rejected _ =>
          (Returned, finally m, say (Diag "Failed to upload pending logs") w)
      | Resolved unuploadedLogs =>
          if bool_decide (length unuploadedLogs = 0%nat) then
            (Returned, finally m, w)
          else forLoop unuploadedLogs 0 m w
      end
  | AwaitUploadBatch unuploadedLogs i =>
      let batch := batchAt m unuploadedLogs i in
      let (success, w) := LogUploader.uploadLogs (uploader m) batch r w in
      if success then (Suspended (AwaitMarkBatch unuploadedLogs i), m, w)
      else (Returned, finally m, w)
  | AwaitMarkBatch unuploadedLogs i =>
      let batch := batchAt m unuploadedLogs i in
      match Storage.markAsUploaded (id <$> batch) r (storage w) (store w) with
      | (Resolved _, os) =>
          forLoop unuploadedLogs (i + batchSize m) m (set_store os w)
      | (Rejected _, _) =>
          (Returned, finally m, say (Diag "Failed to upload pending logs") w)
      end
  end.

(** The request a frame waits for. *)
Definition awaited (m : t) (f : Frame) : Op :=
  match f with
  | AwaitSaveLog log => OpAdd log
  | AwaitUploadImmediately logs =>
      OpFetch (LogUploader.serverUrl (uploader m)) logs
  | AwaitMarkImmediately logs => OpMark (id <$> logs)
  | AwaitGetUnuploaded => OpGetAll
  | AwaitUploadBatch unuploadedLogs i =>
      OpFetch (LogUploader.serverUrl (uploader m)) (batchAt m unuploadedLogs i)
  | AwaitMarkBatch unuploadedLogs i =>
      OpMark (id <$> batchAt m unuploadedLogs i)
  end.

(** *** One call run to its end, nothing else interleaved *)

(** [fuel] bounds the number of awaited requests; [None] means the call
    has not settled within that many. *)
Fixpoint run (fuel : nat) (env : Env) (st : Status) (m : t) (w : World)
  : option (Result unit * t * World) :=
  match st with
  | Returned => Some (Resolved (), m, w)
  | Thrown msg => Some (Rejected msg, m, w)
  | Suspended f =>
      match fuel with
      | O => None
      | S fuel =>
          let '(st', m', w') :=
            resume f (env (served w) (awaited m f)) m (tick w) in
          run fuel env st' m' w'
      end
  end.

Definition call (fuel : nat) (env : Env) (c : Status * t * World)
  : option (Result unit * t * World) :=
  let '(st, m, w) := c in run fuel env st m w.

(** *** Calls interleaved on the event loop *)

Inductive Event :=
| NewLog (log : LogEntry)         (* [handleNewLog(log)] is called *)
| IdleFired                       (* the idle detector invokes its callback *)
| ForceUpload                     (* [forceUpload()] is called *)
| Completes (n : nat) (r : IoResult)
    (* the request awaited by the [n]-th suspended call completes *)
| Destroy.                        (* [destroy()] is called *)

(** The manager, the platform and the suspended calls. *)
Record System := mkSystem {
  manager : t;
  world : World;
  tasks : list Frame
}.

Definition spawn (c : Status * t * World) (ts : list Frame) : System :=
  let '(st, m, w) := c in
  mkSystem m w
    (match st with
     | Suspended f => ts ++ [f]
     | _ => ts
     end).

Definition step (ev : Event) (s : System) : System :=
  match ev with
  | NewLog log => spawn (handleNewLog log (manager s) (world s)) (tasks s)
  | IdleFired =>
      match IdleDetector.onIdleCallback (idleDetector (manager s)) with
      | Some UploadPendingLogs =>
          spawn (uploadPendingLogs (manager s) (world s)) (tasks s)
      | None => s
      end
  | ForceUpload => spawn (forceUpload (manager s) (world s)) (tasks s)
  | Completes n r =>
      match tasks s !! n with
      | Some f =>
          let '(st, m, w) := resume f r (manager s) (world s) in
          mkSystem m w
            (match st with
             | Suspended f' => <[n := f']> (tasks s)
             | _ => delete n (tasks s)
             end)
      | None => s
      end
  | Destroy => mkSystem (destroy (manager s)) (world s) (tasks s)
  end.

Definition steps (evs : list Event) (s : System) : System :=
  foldl (λ s ev, step ev s) s evs.

(** A suspended call is an upload attempt once it has passed the guard:
    every frame but the one of [handleNewLog]. *)
Definition attempt (f : Frame) : bool :=
  match f with
  | AwaitSaveLog _ => false
  | _ => true
  end.

(** The attempt is inside a call of the sink. *)
Definition sending (f : Frame) : bool :=
  match f with
  | AwaitUploadImmediately _ | AwaitUploadBatch _ _ => true
  | _ => false
  end.

Definition attempts (s : System) : list Frame := filter attempt (tasks s).

(** The guard tells whether an attempt is suspended. *)
Definition guarded (s : System) : Prop :=
  length (attempts s) = if isUploading (manager s) then 1%nat else 0%nat.

(** A bound on the requests an attempt still awaits once it has read the
    unuploaded records, for a positive batch size. *)
Definition rank (f : Frame) : nat :=
  match f with
  | AwaitSaveLog _ | AwaitGetUnuploaded => 0
  | AwaitUploadImmediately _ => 2
  | AwaitMarkImmediately _ => 1
  | AwaitUploadBatch unuploadedLogs i =>
      2 * Z.to_nat (Z.of_nat (length unuploadedLogs) - i) + 2
  | AwaitMarkBatch unuploadedLogs i =>
      2 * Z.to_nat (Z.of_nat (length unuploadedLogs) - i) + 1
  end.

(** A manager as its constructor leaves it, with nothing suspended. *)
Definition start (uploader : LogUploader.t) (strategy : UploadStrategy)
    (batchSize : Z) (w : World) : System :=
  mkSystem (new uploader strategy batchSize w) w [].

End UploadManager.

(** ** src/utils/cleanup.ts *)

Module CleanupManager.

(** [cleanupInterval] is the handle the manager holds, with the
    [expirationDays] that the interval's closure captured.  [orphaned]
    lists the intervals that are still scheduled on the platform although
    the manager no longer holds their handle, oldest first: an interval
    runs until [clearInterval] is called on its handle. *)
Record t := mk { cleanupInterval : option Z; orphaned : list Z }.

(** The intervals of this manager that the platform has scheduled. *)
Definition scheduled (c : t) : list Z :=
  orphaned c ++ option_list (cleanupInterval c).

(** [performCleanup] is not awaited by its callers; its transaction is
    created at the call, ahead of every later one, so it takes effect
    here. *)
Definition performCleanup (env : Env) (expirationDays : Z) (w : World)
  : World :=
  let r := env (served w) (OpCursor expirationDays) in
  let w := tick w in
  match Storage.cleanupExpiredLogs expirationDays (now w) r (storage w)
          (store w) with
  | (Resolved _, os) =>
      say (Diag "Log cleanup completed successfully") (set_store os w)
  | (Rejected _, _) => say (Diag "Failed to cleanup logs") w
  end.

(** [this.cleanupInterval = setInterval(...)] overwrites the handle
    without clearing the interval it named. *)
Definition startPeriodicCleanup (env : Env) (expirationDays : Z) (c : t)
    (w : World) : t * World :=
  (mk (Some expirationDays) (scheduled c),
   performCleanup env expirationDays w).

(** [clearInterval] of the handle held, if any. *)
Definition stopPeriodicCleanup (c : t) : t := mk None (orphaned c).

Definition destroy (c : t) : t := stopPeriodicCleanup c.

(** The platform runs the callback of the [n]-th scheduled interval. *)
Definition fires (env : Env) (n : nat) (c : t) (w : World) : World :=
  match scheduled c !! n with
  | Some expirationDays => performCleanup env expirationDays w
  | None => w
  end.

End CleanupManager.

(** ** src/core/logger.ts *)

Module Logger.

(** [this.storage] is the shared object [storage] of the [World]. *)
Record t := mk {
  config : Config;
  uploader : LogUploader.t;
  uploadManager : UploadManager.t;
  cleanupManager : CleanupManager.t;
  initialized : bool
}.

Definition set_uploadManager (m : UploadManager.t) (lg : t) : t :=
  mk (config lg) (uploader lg) m (cleanupManager lg) (initialized lg).

(** The constructor; [new IndexedDBStorage()] is a storage object that has
    not opened the database yet. *)
Definition new (config : LoggerConfig) (w : World) : t * World :=
  let config := mergeConfig config in
  let w := set_storage (mkStorage false) w in
  let uploader := LogUploader.mk (serverUrl config) in
  (mk config uploader
     (UploadManager.new uploader (uploadStrategy config) (batchSize config) w)
     (CleanupManager.mk None []) false,
   w).

Definition init (env : Env) (lg : t) (w : World) : Result unit * t * World :=
  if initialized lg then (Resolved (), lg, w)
  else
    let r := env (served w) OpOpen in
    let w := tick w in
    match Storage.init r (storage w) with
    | (Resolved _, st) =>
        let w := set_storage st w in
        let (c, w) :=
          if 0 <? logExpiration (config lg) then
            CleanupManager.startPeriodicCleanup env
              (logExpiration (config lg)) (cleanupManager lg) w
          else (cleanupManager lg, w) in
        (Resolved (), mk (config lg) (uploader lg) (uploadManager lg) c true, w)
    | (Rejected msg, _) =>
        (Rejected msg, lg, say (Diag "Failed to initialize logger") w)
    end.

(** [if (!this.initialized) { await this.init() }], the opening of [log],
    [forceUpload], [getAllLogs] and [clearAllLogs]. *)
Definition ensureInit (env : Env) (lg : t) (w : World)
  : Result unit * t * World :=
  if negb (initialized lg) then init env lg w else (Resolved (), lg, w).

Definition debugOrTrace (level : LogLevel) : bool :=
  match level with
  | Debug | Trace => true
  | _ => false
  end.

Definition printToConsole (log : LogEntry) (w : World) : World :=
  say (Printed log) w.

(** [newId] is the value of [generateLogId()]; [getCurrentTimestamp()] is
    the clock of the world.  [fuel] bounds the requests awaited inside
    [handleNewLog]. *)
Definition log (fuel : nat) (env : Env) (level : LogLevel) (title : string)
    (data : Data) (newId : string) (lg : t) (w : World)
  : option (Result unit * t * World) :=
  match ensureInit env lg w with
  | (Rejected msg, lg, w) => Some (Rejected msg, lg, w)
  | (Resolved _, lg, w) =>
      if negb (debugMode (config lg)) && debugOrTrace level then
        Some (Resolved (), lg, w)
      else
        let logEntry := mkLogEntry newId level title data (now w) (Some false) in
        let w :=
          if debugMode (config lg) then printToConsole logEntry w
          else if negb (debugOrTrace level) then printToConsole logEntry w
          else w in
        if uploadLogs (config lg) then
          match UploadManager.call fuel env
                  (UploadManager.handleNewLog logEntry (uploadManager lg) w) with
          | None => None
          | Some (Resolved _, m, w) =>
              Some (Resolved (), set_uploadManager m lg, w)
          | Some (Rejected _, m, w) =>
              Some (Resolved (), set_uploadManager m lg,
                    say (Diag "Failed to process log entry") w)
          end
        else
          let r := env (served w) (OpAdd logEntry) in
          let w := tick w in
          match Storage.saveLog logEntry r (storage w) (store w) with
          | (Resolved _, os) => Some (Resolved (), lg, set_store os w)
          | (Rejected _, _) =>
              Some (Resolved (), lg, say (Diag "Failed to process log entry") w)
          end
  end.

Definition info := λ fuel env, log fuel env Info.
Definition warn := λ fuel env, log fuel env Warn.
Definition error := λ fuel env, log fuel env Error.
Definition debug := λ fuel env, log fuel env Debug.
Definition trace := λ fuel env, log fuel env Trace.

Definition forceUpload (fuel : nat) (env : Env) (lg : t) (w : World)
  : option (Result unit * t * World) :=
  match ensureInit env lg w with
  | (Rejected msg, lg, w) => Some (Rejected msg, lg, w)
  | (Resolved _, lg, w) =>
      match UploadManager.call fuel env
              (UploadManager.forceUpload (uploadManager lg) w) with
      | None => None
      | Some (r, m, w) => Some (r, set_uploadManager m lg, w)
      end
  end.

Definition getAllLogs (env : Env) (lg : t) (w : World)
  : Result (list LogEntry) * t * World :=
  match ensureInit env lg w with
  | (Rejected msg, lg, w) => (Rejected msg, lg, w)
  | (Resolved _, lg, w) =>
      (Storage.getAllLogs (env (served w) OpGetAll) (storage w) (store w),
       lg, tick w)
  end.

(** [r] is the outcome of the [store.clear()] request, read only when one
    is made. *)
Definition clearAllLogs (env : Env) (r : IoResult) (lg : t) (w : World)
  : Result unit * t * World :=
  match ensureInit env lg w with
  | (Rejected msg, lg, w) => (Rejected msg, lg, w)
  | (Resolved _, lg, w) =>
      let (res, os) := Storage.clearAllLogs r (storage w) (store w) in
      (res, lg, set_store os (tick w))
  end.

Definition getConfig (lg : t) : Config := config lg.

Definition updateConfig (env : Env) (newConfig : LoggerConfig) (lg : t)
    (w : World) : t * World :=
  let oldConfig := config lg in
  let config' := mergeConfig (overConfig oldConfig newConfig) in
  let uploader' :=
    if bool_decide (serverUrl oldConfig ≠ serverUrl config') then
      LogUploader.mk (serverUrl config')
    else uploader lg in
  let uploadManager' :=
    if bool_decide (uploadStrategy oldConfig ≠ uploadStrategy config'
                    ∨ batchSize oldConfig ≠ batchSize config') then
      UploadManager.new uploader' (uploadStrategy config') (batchSize config') w
    else uploadManager lg in
  let (c, w) :=
    if bool_decide (logExpiration oldConfig ≠ logExpiration config') then
      let c := CleanupManager.stopPeriodicCleanup (cleanupManager lg) in
      if 0 <? logExpiration config' then
        CleanupManager.startPeriodicCleanup env (logExpiration config') c w
      else (c, w)
    else (cleanupManager lg, w) in
  (mk config' uploader' uploadManager' c (initialized lg), w).

Definition destroy (lg : t) : t :=
  mk (config lg) (uploader lg) (UploadManager.destroy (uploadManager lg))
    (CleanupManager.destroy (cleanupManager lg)) false.

End Logger.

(** ** What a sweep amounts to *)

(** The consecutive batches of at most [b] elements of [l]; [fuel] bounds
    their number. *)
Fixpoint chunks_within {A} (fuel b : nat) (l : list A) : list (list A) :=
  match fuel with
  | O => []
  | S fuel =>
      match l with
      | [] => []
      | _ :: _ => take b l :: chunks_within fuel b (drop b l)
      end
  end.

Definition chunks {A} (b : nat) (l : list A) : list (list A) :=
  chunks_within (length l) b l.

(** The batches handed to the sink: all up to and including the first one
    it does not accept. *)
Fixpoint attempted {A} (accepts : A → bool) (batches : list A) : list A :=
  match batches with
  | [] => []
  | batch :: batches =>
      batch :: if accepts batch then attempted accepts batches else []
  end.

(** The batches the sink accepted: all before the first one it does not
    accept. *)
Fixpoint delivered {A} (accepts : A → bool) (batches : list A) : list A :=
  match batches with
  | [] => []
  | batch :: batches =>
      if accepts batch then batch :: delivered accepts batches else []
  end.

(** A platform whose IndexedDB requests succeed and whose [fetch] answers
    according to the batch it carries. *)
Definition platform (sink : list LogEntry → IoResult) : Env :=
  λ _ op,
    match op with
    | OpFetch _ batch => sink batch
    | _ => IoSuccess
    end.

(** The boolean that [uploadLogs] returns for [batch] on that platform. *)
Definition accepts (u : LogUploader.t) (sink : list LogEntry → IoResult)
    (batch : list LogEntry) : bool :=
  if bool_decide (LogUploader.serverUrl u = "") then false
  else if bool_decide (length batch = 0%nat) then true
  else match sink batch with
       | IoSuccess => true
       | IoError => false
       end.

(** The requests that [uploadLogs] puts on the network for [batch]. *)
Definition posts (u : LogUploader.t) (now : Z) (batch : list LogEntry)
  : list Request :=
  if bool_decide (LogUploader.serverUrl u = "") then []
  else if bool_decide (length batch = 0%nat) then []
  else [mkRequest (LogUploader.serverUrl u) (LogUploader.wire <$> batch) now].

(** The object store after a successful [markAsUploaded] of the ids of
    [batch] on an open database. *)
Definition marked (os : ObjectStore) (batch : list LogEntry) : ObjectStore :=
  (Storage.markAsUploaded (id <$> batch) IoSuccess (mkStorage true) os).2.

(** The records that [getUnuploadedLogs] reads. *)
Definition unuploaded (os : ObjectStore) : list LogEntry :=
  filter (λ log, truthy (uploaded log) = false) (getAll os).

(** ** Sample data for the concrete evaluations below *)

(** A record created exactly three days before the clock reads 300000000. *)
Definition boundaryLog : LogEntry :=
  mkLogEntry "40800000-b" Info "boundary" [] 40800000 (Some false).

(** Two pending records in an open store, at clock 1000, outside a
    browser. *)
Definition log1 : LogEntry := mkLogEntry "1-a" Info "first" [] 1 (Some false).
Definition log2 : LogEntry := mkLogEntry "2-b" Warn "second" [] 2 (Some false).
Definition pendingStore : ObjectStore :=
  <[id log2 := value_of log2]> (<[id log1 := value_of log1]> ∅).
Definition openWorld : World :=
  mkWorld (mkStorage true) pendingStore [] [] 1000 false 0.
(** An uploader with an endpoint. *)
Definition serverA : LogUploader.t := LogUploader.mk "https://a.example/logs".

(** The object [{ serverUrl: url }]. *)
Definition serverUrlOnly (url : string) : LoggerConfig :=
  mkLoggerConfig (Some url) None None None None None.

(** An empty database that no storage object has opened. *)
Definition closedWorld : World := mkWorld (mkStorage false) ∅ [] [] 1000 false 0.

(** A platform on which [indexedDB.open] fails. *)
Definition noDatabase : Env :=
  λ _ op, match op with OpOpen => IoError | _ => IoSuccess end.

(** A platform whose store refuses to record marks while everything else,
    the server included, succeeds. *)
Definition marksFail : Env :=
  λ _ op, match op with OpMark _ => IoError | _ => IoSuccess end.

(** ** A sweep on any platform *)

(** The elements of [l] with their positions, counted from [j]. *)
Definition numbered {A} (j : nat) (l : list A) : list (nat * A) :=
  zip (seq j (length l)) l.

(** In a sweep whose loop starts with the [s]-th request of the platform,
    the [j]-th batch is uploaded with request [s + 2 j] and marked with
    request [s + 2 j + 1].  [reported] is the boolean that [uploadLogs]
    returns for the batch, and [recorded] tells whether its
    [markAsUploaded] succeeds. *)
Definition reported (env : Env) (u : LogUploader.t) (s : nat)
    (jbatch : nat * list LogEntry) : bool :=
  accepts u
    (λ batch, env (s + 2 * jbatch.1)%nat (OpFetch (LogUploader.serverUrl u) batch))
    jbatch.2.

Definition recorded (env : Env) (s : nat) (jbatch : nat * list LogEntry)
  : bool :=
  match env (s + 2 * jbatch.1 + 1)%nat (OpMark (id <$> jbatch.2)) with
  | IoSuccess => true
  | IoError => false
  end.

(** What [getUnuploadedLogs] hands the sweep that starts in [w]; nothing
    when it rejects. *)
Definition read (env : Env) (w : World) : list LogEntry :=
  match Storage.getUnuploadedLogs (env (served w) OpGetAll) (storage w)
          (store w) with
  | Resolved unuploadedLogs => unuploadedLogs
  | Rejected _ => []
  end.

(** ** What the store keeps *)

(** Every record of [os] is still in [os'], as it was or with its
    [uploaded] flag set. *)
Definition kept (os os' : ObjectStore) : Prop :=
  ∀ k v, os !! k = Some v →
    os' !! k = Some v ∨ os' !! k = Some (set_uploaded v).

(** ** What the logger keeps in step *)

(** The components that the constructor derives from the configuration
    agree with the configuration the logger reports. *)
Definition configured (lg : Logger.t) : Prop :=
  Logger.uploader lg = LogUploader.mk (serverUrl (Logger.config lg)) ∧
  UploadManager.strategy (Logger.uploadManager lg)
  = uploadStrategy (Logger.config lg) ∧
  UploadManager.batchSize (Logger.uploadManager lg)
  = batchSize (Logger.config lg).

(** The log entries written to the console, oldest first. *)
Definition printed (w : World) : list LogEntry :=
  omap (λ line, match line with Printed log => Some log | Diag _ => None end)
    (console w).

(** * Properties *)

(** ** The object store *)

Section ObjectStoreFacts.

Implicit Types (os : ObjectStore) (log : LogEntry) (k : string) (v : Stored).

Lemma key_le_refl k : key_le k k.
Proof.
  unfold key_le, String.leb.
  assert (String.compare k k = Eq) as ->; [|done].
  induction k as [|a k IH]; [done|]. simpl.
  unfold Ascii.compare. by rewrite N.compare_refl.
Qed.

Lemma key_le_trans k1 : ∀ k2 k3, key_le k1 k2 → key_le k2 k3 → key_le k1 k3.
Proof.
  unfold key_le, String.leb.
  induction k1 as [|a k1 IH]; intros [|b k2] [|c k3]; simpl; try done.
  unfold Ascii.compare.
  destruct (N.compare_spec (Ascii.N_of_ascii a) (Ascii.N_of_ascii b))
    as [Hab|Hab|Hab];
    destruct (N.compare_spec (Ascii.N_of_ascii b) (Ascii.N_of_ascii c))
      as [Hbc|Hbc|Hbc];
    destruct (N.compare_spec (Ascii.N_of_ascii a) (Ascii.N_of_ascii c))
      as [Hac|Hac|Hac];
    try done; try lia.
  apply IH.
Qed.

#[global] Instance key_le_total : Total key_le.
Proof. intros k1 k2. apply String.leb_total. Qed.

#[global] Instance key_le_transitive : Transitive key_le.
Proof. intros k1 k2 k3. apply key_le_trans. Qed.

#[global] Instance key_le_antisym : AntiSymm (=) key_le.
Proof. intros k1 k2. apply String.leb_antisym. Qed.

Lemma entry_value log : entry_of (id log) (value_of log) = log.
Proof. by destruct log. Qed.

Lemma value_entry k v : value_of (entry_of k v) = v.
Proof. by destruct v. Qed.

(** A record is read back by [getAll] exactly when it is stored under its
    own [id]. *)
Lemma elem_of_getAll os log :
  log ∈ getAll os ↔ os !! id log = Some (value_of log).
Proof.
  unfold getAll. rewrite list_elem_of_fmap. split.
  - intros [[k v] [-> Hkv]]. rewrite merge_sort_Permutation in Hkv.
    apply elem_of_map_to_list in Hkv. simpl. by rewrite value_entry.
  - intros Hlog. exists (id log, value_of log). split.
    + simpl. by rewrite entry_value.
    + rewrite merge_sort_Permutation. by apply elem_of_map_to_list.
Qed.

Lemma ids_getAll os : id <$> getAll os ≡ₚ (map_to_list os).*1.
Proof.
  unfold getAll. rewrite <- list_fmap_compose.
  rewrite merge_sort_Permutation.
  by rewrite (list_fmap_ext _ fst (map_to_list os)) by done.
Qed.

Lemma NoDup_ids_getAll os : NoDup (id <$> getAll os).
Proof. rewrite ids_getAll. apply NoDup_fst_map_to_list. Qed.

(** [getAll] lists the records in strictly ascending order of their keys. *)
Lemma getAll_sorted os :
  StronglySorted (λ log1 log2, key_le (id log1) (id log2) ∧ id log1 ≠ id log2)
    (getAll os).
Proof.
  pose proof (NoDup_ids_getAll os) as Hnd.
  assert (Hle : StronglySorted (λ log1 log2, key_le (id log1) (id log2))
                  (getAll os)).
  { unfold getAll.
    apply (StronglySorted_fmap _
             (λ kv1 kv2 : string * Stored, key_le kv1.1 kv2.1)).
    - by intros [k1 v1] [k2 v2].
    - apply StronglySorted_merge_sort.
      + intros [k1 v1] [k2 v2] [k3 v3]. apply key_le_trans.
      + intros [k1 v1] [k2 v2]. apply key_le_total. }
  induction Hle as [|log l Hl IH Hall]; [constructor|].
  rewrite fmap_cons in Hnd. apply NoDup_cons in Hnd as [Hlog Hnd].
  constructor; [by apply IH|].
  apply Forall_forall. intros log' Hin. split.
  - by eapply Forall_forall in Hall.
  - intros Heq. apply Hlog. rewrite Heq. by apply list_elem_of_fmap_2.
Qed.

Lemma StronglySorted_filter {A} (R : relation A) (P : A → Prop)
    `{∀ x, Decision (P x)} (l : list A) :
  StronglySorted R l → StronglySorted R (filter P l).
Proof.
  induction 1 as [|x l Hl IH Hall]; [constructor|].
  rewrite filter_cons. destruct (decide (P x)); [|done].
  constructor; [done|]. apply Forall_forall. intros y Hy.
  apply list_elem_of_filter in Hy as [_ Hy].
  by eapply Forall_forall in Hall.
Qed.

(** The pending records are read in strictly ascending order of their
    keys. *)
Lemma unuploaded_sorted os :
  StronglySorted (λ log1 log2, key_le (id log1) (id log2) ∧ id log1 ≠ id log2)
    (unuploaded os).
Proof. apply StronglySorted_filter, getAll_sorted. Qed.

Lemma markOne_lookup (snapshot acc : ObjectStore) k j :
  Storage.markOne snapshot acc k !! j =
    if decide (k = j) then
      match snapshot !! k with
      | Some v => Some (set_uploaded v)
      | None => acc !! j
      end
    else acc !! j.
Proof.
  unfold Storage.markOne.
  destruct (snapshot !! k) as [v|] eqn:Hk.
  - rewrite lookup_insert. by destruct (decide (k = j)).
  - by destruct (decide (k = j)).
Qed.

Lemma foldl_markOne_lookup (snapshot : ObjectStore) logIds :
  ∀ (acc : ObjectStore) j,
    foldl (Storage.markOne snapshot) acc logIds !! j =
      if decide (j ∈ logIds) then
        match snapshot !! j with
        | Some v => Some (set_uploaded v)
        | None => acc !! j
        end
      else acc !! j.
Proof.
  induction logIds as [|k logIds IH]; intros acc j; simpl.
  - destruct (decide (j ∈ [])) as [Hin|_]; [by apply elem_of_nil in Hin|done].
  - rewrite IH, markOne_lookup.
    destruct (decide (k = j)) as [->|Hne].
    + rewrite (decide_True (P := j ∈ j :: logIds)) by (apply elem_of_cons; by left).
      destruct (decide (j ∈ logIds)); by destruct (snapshot !! j).
    + destruct (decide (j ∈ logIds)) as [Hin|Hin].
      * by rewrite (decide_True (P := j ∈ k :: logIds))
          by (apply elem_of_cons; by right).
      * rewrite (decide_False (P := j ∈ k :: logIds)); [done|].
        rewrite elem_of_cons. intros [Heq|Hin']; [by apply Hne|by apply Hin].
Qed.

(** The store after a successful [markAsUploaded] transaction, key by
    key. *)
Lemma marked_lookup os logIds j :
  foldl (Storage.markOne os) os logIds !! j =
    if decide (j ∈ logIds) then set_uploaded <$> os !! j else os !! j.
Proof.
  rewrite foldl_markOne_lookup.
  destruct (decide (j ∈ logIds)); [|done]. by destruct (os !! j).
Qed.

Lemma set_uploaded_idemp v : set_uploaded (set_uploaded v) = set_uploaded v.
Proof. done. Qed.

Lemma set_uploaded_id v : s_uploaded v = Some true → set_uploaded v = v.
Proof. destruct v; simpl; by intros ->. Qed.

(** The store after a successful [markAsUploaded], key by key. *)
Lemma markAsUploaded_lookup logIds (st : IndexedDBStorage) os k :
  (Storage.markAsUploaded logIds IoSuccess st os).2 !! k =
    if db st && bool_decide (k ∈ logIds)
    then set_uploaded <$> os !! k else os !! k.
Proof.
  unfold Storage.markAsUploaded.
  destruct (db st); simpl; [|done].
  destruct (bool_decide (length logIds = 0%nat)) eqn:Hlen; simpl.
  - apply bool_decide_eq_true in Hlen. apply nil_length_inv in Hlen as ->.
    rewrite bool_decide_eq_false_2; [done|apply not_elem_of_nil].
  - rewrite marked_lookup.
    destruct (decide (k ∈ logIds)) as [Hin|Hin].
    + by rewrite bool_decide_eq_true_2.
    + by rewrite bool_decide_eq_false_2.
Qed.

End ObjectStoreFacts.

(** C7.  [markAsUploaded] is idempotent: for every state of the storage
    object and of the object store and every list of ids, a call whose
    requests succeed resolves, a second call with the same ids leaves the
    store as the first one did, ids that are absent or already uploaded leave
    the store as it is, and the record under a key changes only according to
    whether that key is among the ids. *)
Theorem markAsUploaded_idempotent :
  ∀ (logIds : list string) (st : IndexedDBStorage) (os : ObjectStore),
    let once := Storage.markAsUploaded logIds IoSuccess st os in
    once.1 = Resolved () ∧
    Storage.markAsUploaded logIds IoSuccess st once.2 = once ∧
    ((∀ k, k ∈ logIds →
        os !! k = None ∨ ∃ v, os !! k = Some v ∧ s_uploaded v = Some true) →
     once = (Resolved (), os)) ∧
    (∀ k, once.2 !! k =
          if db st && bool_decide (k ∈ logIds)
          then set_uploaded <$> os !! k else os !! k).
Proof.
  intros logIds st os once.
  assert (Hlookup : ∀ k, once.2 !! k =
            if db st && bool_decide (k ∈ logIds)
            then set_uploaded <$> os !! k else os !! k)
    by (intros k; apply markAsUploaded_lookup).
  assert (Hres : once.1 = Resolved ()).
  { subst once. unfold Storage.markAsUploaded.
    by destruct (negb (db st) || bool_decide (length logIds = 0%nat)). }
  split; [done|]. split; [|split; [|done]].
  - destruct once as [res os1] eqn:Honce; simpl in *. subst res.
    unfold Storage.markAsUploaded.
    destruct (negb (db st) || bool_decide (length logIds = 0%nat)) eqn:Hguard;
      [done|].
    f_equal. apply map_eq. intros k. rewrite marked_lookup, !Hlookup.
    apply orb_false_iff in Hguard as [Hdb _].
    apply negb_false_iff in Hdb. rewrite Hdb. simpl.
    destruct (decide (k ∈ logIds)) as [Hin|Hin].
    + rewrite bool_decide_eq_true_2 by done.
      destruct (os !! k); simpl; [by rewrite set_uploaded_idemp|done].
    + by rewrite bool_decide_eq_false_2.
  - intros Hnoop. destruct once as [res os1]; simpl in *. subst res.
    f_equal. apply map_eq. intros k. rewrite Hlookup.
    destruct (db st); simpl; [|done].
    destruct (decide (k ∈ logIds)) as [Hin|Hin].
    + rewrite bool_decide_eq_true_2 by done.
      destruct (Hnoop k Hin) as [->|(v & -> & Hv)]; simpl; [done|].
      by rewrite set_uploaded_id.
    + by rewrite bool_decide_eq_false_2.
Qed.

Lemma markAsUploaded_idempotent_witness :
  Storage.markAsUploaded ["9-z"] IoSuccess (mkStorage true) pendingStore
  = (Resolved (), pendingStore).
Proof.
  apply (markAsUploaded_idempotent ["9-z"] (mkStorage true) pendingStore).
  intros k Hk. apply list_elem_of_singleton in Hk. subst k. by left.
Defined.

(** C6, as the code has it.  A successful expiry sweep on an open store
    deletes exactly the records whose timestamp is at or before the cutoff
    [now - expirationDays * 86400000], uploaded or not: afterwards [getAll]
    returns the records it returned before whose timestamp is strictly after
    the cutoff. *)
Theorem cleanupExpiredLogs_exact :
  ∀ (expirationDays now : Z) (os : ObjectStore),
    let cutoff := now - expirationDays * 86400000 in
    let after :=
      Storage.cleanupExpiredLogs expirationDays now IoSuccess (mkStorage true) os in
    after.1 = Resolved () ∧
    ∀ log, log ∈ getAll after.2 ↔ log ∈ getAll os ∧ cutoff < timestamp log.
Proof.
  intros expirationDays now os cutoff after. split; [done|].
  intros log. subst after. simpl. rewrite !elem_of_getAll.
  rewrite map_lookup_filter_Some. simpl. subst cutoff.
  destruct log as [k lv ti da ts up]; simpl. split.
  - intros [Hk Hts]. split; [done|]. lia.
  - intros [Hk Hts]. split; [done|]. lia.
Qed.

(** C6, the claim as written fails at the boundary: a record whose
    timestamp equals the cutoff is not "strictly older", yet the sweep
    deletes it. *)
Lemma cleanupExpiredLogs_deletes_at_cutoff :
  timestamp boundaryLog = 300000000 - 3 * 86400000 ∧
  getAll {[ id boundaryLog := value_of boundaryLog ]} = [boundaryLog] ∧
  getAll
    (Storage.cleanupExpiredLogs 3 300000000 IoSuccess (mkStorage true)
       {[ id boundaryLog := value_of boundaryLog ]}).2 = [].
Proof. by vm_compute. Qed.

(** ** The idle detector *)

Section IdleFacts.

Context {C : Type}.
Implicit Types (d : IdleDetector.t C) (evs : list (@IdleDetector.Event C)).

Lemma expire_unarmed now d :
  IdleDetector.armed d = false → IdleDetector.expire now d = (d, None).
Proof.
  unfold IdleDetector.armed, IdleDetector.expire.
  destruct (IdleDetector.idleTimer d) as [tm|]; [|done].
  by intros ->.
Qed.

(** Whatever [expire] does, it leaves no timeout pending when it invoked
    the callback, and it never installs listeners. *)
Lemma expire_spends now d d' c :
  IdleDetector.expire now d = (d', c) →
  IdleDetector.listening d' = IdleDetector.listening d ∧
  (is_Some c → IdleDetector.armed d' = false).
Proof.
  unfold IdleDetector.expire, IdleDetector.timeout, IdleDetector.armed.
  destruct (IdleDetector.idleTimer d) as [tm|] eqn:Htm.
  - destruct (IdleDetector.pending tm && (IdleDetector.due tm <=? now)).
    + simpl. destruct (IdleDetector.isIdle d); intros [= <- <-]; simpl;
        (split; [done|]); [by intros [? [=]]|done].
    + intros [= <- <-]. split; [done|]. by intros [? [=]].
  - intros [= <- <-]. split; [done|]. by intros [? [=]].
Qed.

(** Without listeners and without a pending timeout nothing ever invokes
    the callback again. *)
Lemma run_spent evs :
  ∀ now d,
    IdleDetector.listening d = false →
    IdleDetector.armed d = false →
    (IdleDetector.run evs now d).2 = [].
Proof.
  induction evs as [|ev evs IH]; intros now d Hl Ha; [done|].
  simpl. destruct ev as [dt| |callback|]; simpl.
  - rewrite expire_unarmed by done.
    specialize (IH (now + Z.max dt 0) d Hl Ha).
    destruct (IdleDetector.run evs (now + Z.max dt 0) d) as [[? ?] cs].
    simpl in *. by subst.
  - rewrite Hl. specialize (IH now d Hl Ha).
    destruct (IdleDetector.run evs now d) as [[? ?] cs]. simpl in *. by subst.
  - specialize (IH now (IdleDetector.onIdle callback d) Hl Ha).
    destruct (IdleDetector.run evs now (IdleDetector.onIdle callback d))
      as [[? ?] cs].
    simpl in *. by subst.
  - specialize (IH now (IdleDetector.destroy d) eq_refl eq_refl).
    destruct (IdleDetector.run evs now (IdleDetector.destroy d)) as [[? ?] cs].
    simpl in *. by subst.
Qed.

Lemma run_without_listeners evs :
  ∀ now d,
    IdleDetector.listening d = false →
    (length (IdleDetector.run evs now d).2 ≤ 1)%nat.
Proof.
  induction evs as [|ev evs IH]; intros now d Hl; [simpl; lia|].
  simpl. destruct ev as [dt| |callback|]; simpl.
  - destruct (IdleDetector.expire (now + Z.max dt 0) d) as [d' c] eqn:Hexp.
    destruct (expire_spends _ _ _ _ Hexp) as [Hl' Hspent].
    rewrite Hl in Hl'. destruct c as [c|].
    + pose proof (run_spent evs (now + Z.max dt 0) d' Hl' (Hspent (mk_is_Some _ _ eq_refl)))
        as Hnil.
      destruct (IdleDetector.run evs (now + Z.max dt 0) d') as [[? ?] cs].
      simpl in *. subst cs. simpl. lia.
    + specialize (IH (now + Z.max dt 0) d' Hl').
      destruct (IdleDetector.run evs (now + Z.max dt 0) d') as [[? ?] cs].
      simpl in *. done.
  - rewrite Hl. specialize (IH now d Hl).
    destruct (IdleDetector.run evs now d) as [[? ?] cs]. simpl in *. done.
  - specialize (IH now (IdleDetector.onIdle callback d) Hl).
    destruct (IdleDetector.run evs now (IdleDetector.onIdle callback d))
      as [[? ?] cs].
    simpl in *. done.
  - specialize (IH now (IdleDetector.destroy d) eq_refl).
    destruct (IdleDetector.run evs now (IdleDetector.destroy d)) as [[? ?] cs].
    simpl in *. done.
Qed.

(** A pending timeout fires at the first clock advance that reaches it,
    and only then. *)
Lemma run_elapses (callback : C) (due : Z) dts :
  ∀ now (d : IdleDetector.t C) evs,
    IdleDetector.listening d = false →
    IdleDetector.idleTimer d = Some (IdleDetector.mkTimer due true) →
    IdleDetector.isIdle d = false →
    IdleDetector.onIdleCallback d = Some callback →
    now < due → due ≤ now + IdleDetector.elapsed dts →
    (IdleDetector.run ((IdleDetector.Elapse <$> dts) ++ evs) now d).2
    = [callback].
Proof.
  induction dts as [|dt dts IH]; intros now d evs Hl Htimer Hidle Hcb Hnow Hdue.
  - simpl in Hdue. lia.
  - cbn [fmap list_fmap app IdleDetector.run IdleDetector.step].
    unfold IdleDetector.expire. rewrite Htimer.
    cbn [IdleDetector.pending IdleDetector.due andb].
    destruct (due <=? now + Z.max dt 0) eqn:Hfire.
    + unfold IdleDetector.timeout. cbn [IdleDetector.isIdle]. rewrite Hidle.
      cbn [IdleDetector.onIdleCallback]. rewrite Hcb.
      match goal with
      | |- context [IdleDetector.run ?e ?n ?d'] =>
          pose proof (run_spent e n d' Hl eq_refl) as Hnil;
          destruct (IdleDetector.run e n d') as [[? ?] cs]
      end.
      simpl in *. by subst cs.
    + apply Z.leb_gt in Hfire.
      specialize (IH (now + Z.max dt 0) d evs Hl Htimer Hidle Hcb Hfire).
      destruct (IdleDetector.run ((IdleDetector.Elapse <$> dts) ++ evs)
                  (now + Z.max dt 0) d) as [[? ?] cs].
      simpl in *. apply IH. lia.
Qed.

End IdleFacts.

(** C8, as the code has it.  Where there is no [window] the idle detector
    is a one-shot timer: from its construction on, whatever events follow,
    the callback is invoked at most once; and when the callback is
    registered and clock advances then add up to the quiet period, it is
    invoked exactly once and never again, whatever follows and however much
    more time passes, because the timeout is not started again. *)
Theorem idle_without_window_fires_once :
  ∀ (C : Type) (callback : C) (idleTimeoutMs now : Z) (dts : list Z)
    (evs : list (@IdleDetector.Event C)),
    (length (IdleDetector.run evs now
               (IdleDetector.new idleTimeoutMs now false)).2 ≤ 1)%nat ∧
    (0 < idleTimeoutMs →
     idleTimeoutMs ≤ IdleDetector.elapsed dts →
     (IdleDetector.run
        (IdleDetector.OnIdle callback :: (IdleDetector.Elapse <$> dts) ++ evs)
        now (IdleDetector.new idleTimeoutMs now false)).2 = [callback]).
Proof.
  intros C callback idleTimeoutMs now dts evs. split.
  - by apply run_without_listeners.
  - intros Hpos Hdts.
    cbn [IdleDetector.run IdleDetector.step].
    pose proof (run_elapses callback (now + idleTimeoutMs) dts now
                  (IdleDetector.onIdle callback
                     (IdleDetector.new idleTimeoutMs now false)) evs
                  eq_refl eq_refl eq_refl eq_refl) as Hrun.
    destruct (IdleDetector.run ((IdleDetector.Elapse <$> dts) ++ evs) now
                (IdleDetector.onIdle callback
                   (IdleDetector.new idleTimeoutMs now false)))
      as [[? ?] cs].
    simpl in *. apply Hrun; lia.
Qed.

Lemma idle_without_window_fires_once_witness :
  (IdleDetector.run
     [IdleDetector.OnIdle (); IdleDetector.Elapse 2000;
      IdleDetector.Elapse 3000; IdleDetector.Elapse 5000;
      IdleDetector.Elapse 5000] 0
     (IdleDetector.new 5000 0 false)).2 = [()].
Proof.
  apply (idle_without_window_fires_once unit () 5000 0 [2000; 3000]
           [IdleDetector.Elapse 5000; IdleDetector.Elapse 5000]).
  - reflexivity.
  - by vm_compute.
Defined.

(** C8, the claim as written fails: with no [window], a callback registered
    at construction and three quiet periods elapsing one after the other,
    the callback is invoked once, not three times, and no timeout is
    pending afterwards. *)
Lemma idle_without_window_not_recurring :
  IdleDetector.run
    [IdleDetector.OnIdle (); IdleDetector.Elapse 5000;
     IdleDetector.Elapse 5000; IdleDetector.Elapse 5000] 0
    (IdleDetector.new 5000 0 false)
  = (15000,
     IdleDetector.mk 5000 (Some (IdleDetector.mkTimer 5000 false)) (Some ())
       0 true false,
     [()]).
Proof. by vm_compute. Qed.

(** ** Counting list elements *)

Section CountFacts.
Context {A : Type} (P : A → bool).

Lemma filter_cons_length (x : A) (l : list A) :
  length (filter P (x :: l)) = (weight P x + length (filter P l))%nat.
Proof.
  rewrite filter_cons. unfold weight.
  destruct (P x); simpl; done.
Qed.

Lemma filter_snoc_length (l : list A) (x : A) :
  length (filter P (l ++ [x])) = (length (filter P l) + weight P x)%nat.
Proof.
  rewrite filter_app, length_app, filter_cons_length. simpl. lia.
Qed.

Lemma filter_insert_length (l : list A) :
  ∀ n x y, l !! n = Some x →
    (length (filter P (<[n:=y]> l)) + weight P x
     = length (filter P l) + weight P y)%nat.
Proof.
  induction l as [|z l IH]; intros [|n] x y Hn; simplify_eq/=.
  - rewrite !filter_cons_length. lia.
  - rewrite !filter_cons_length. specialize (IH n x y Hn). lia.
Qed.

Lemma filter_delete_length (l : list A) :
  ∀ n x, l !! n = Some x →
    (length (filter P (delete n l)) + weight P x = length (filter P l))%nat.
Proof.
  induction l as [|z l IH]; intros [|n] x Hn; simplify_eq/=.
  - rewrite !filter_cons_length. lia.
  - rewrite !filter_cons_length. specialize (IH n x Hn). lia.
Qed.

Lemma filter_weaker_length (Q : A → bool) (l : list A) :
  (∀ x, Q x = true → P x = true) →
  (length (filter Q l) ≤ length (filter P l))%nat.
Proof.
  intros HQP. induction l as [|z l IH]; [done|].
  rewrite !filter_cons. specialize (HQP z).
  destruct (Q z) eqn:HQ, (P z) eqn:HP; simpl; lia.
Qed.
End CountFacts.

(** ** The in-flight guard of the upload manager *)

Section GuardFacts.

Import UploadManager.

Lemma resume_attempt f r m w :
  attempt f = true →
  match resume f r m w with
  | (Suspended f', m', _) =>
      m' = m ∧ attempt f' = true ∧ f' ≠ AwaitGetUnuploaded ∧
      (0 < batchSize m → f ≠ AwaitGetUnuploaded → (rank f' < rank f)%nat)
  | (Returned, m', _) => m' = finally m
  | (Thrown _, _, _) => False
  end.
Proof.
  destruct f as [log|logs|logs| |ul i|ul i]; intros Hf; try done; simpl.
  - destruct (LogUploader.uploadLogs _ _ _ _) as [[] ?]; [|done].
    repeat split; try done. simpl. lia.
  - by destruct (Storage.markAsUploaded _ _ _ _) as [[] ?].
  - destruct (Storage.getUnuploadedLogs _ _ _) as [ul|]; [|done].
    destruct (bool_decide _); [done|]. unfold forLoop.
    destruct (0 <? _); [|done]. repeat split; done.
  - destruct (LogUploader.uploadLogs _ _ _ _) as [[] ?]; [|done].
    repeat split; try done. intros _ _. simpl. lia.
  - destruct (Storage.markAsUploaded _ _ _ _) as [[] ?]; [|done].
    unfold forLoop. destruct (_ <? _) eqn:Hlt; [|done].
    repeat split; try done. intros Hb _. simpl. apply Z.ltb_lt in Hlt. lia.
Qed.

Lemma resume_save log r m w :
  match resume (AwaitSaveLog log) r m w with
  | (Suspended f', m', _) =>
      attempt f' = true ∧ isUploading m = false ∧ m' = set_isUploading true m
  | (_, m', _) => m' = m
  end.
Proof.
  simpl. destruct (Storage.saveLog _ _ _ _) as [[] ?]; [|done].
  destruct (strategy m); [done|]. unfold uploadImmediately.
  by destruct (isUploading m).
Qed.

Lemma attempt_in_tasks (s : System) n f :
  tasks s !! n = Some f → attempt f = true → (1 ≤ length (attempts s))%nat.
Proof.
  intros Hn Hf. unfold attempts.
  pose proof (filter_delete_length attempt (tasks s) n f Hn) as Hlen.
  unfold weight in Hlen. rewrite Hf in Hlen. lia.
Qed.

Lemma step_guarded ev s : guarded s → guarded (step ev s).
Proof.
  unfold guarded, attempts. intros Hs.
  destruct ev as [log| | |n r|]; simpl.
  - by rewrite filter_snoc_length, Nat.add_0_r.
  - destruct (IdleDetector.onIdleCallback _) as [[]|]; [|done].
    unfold uploadPendingLogs. destruct (isUploading (manager s)) eqn:Hflag;
      simpl; [by rewrite Hflag|].
    rewrite filter_snoc_length, Hs. done.
  - unfold forceUpload, uploadPendingLogs.
    destruct (isUploading (manager s)) eqn:Hflag; simpl; [by rewrite Hflag|].
    rewrite filter_snoc_length, Hs. done.
  - destruct (tasks s !! n) as [f|] eqn:Hn; [|done].
    destruct (attempt f) eqn:Hf.
    + pose proof (attempt_in_tasks s n f Hn Hf) as Hone. unfold attempts in Hone.
      pose proof (resume_attempt f r (manager s) (world s) Hf) as Hres.
      destruct (resume f r (manager s) (world s)) as [[[f'| |msg] m'] w'];
        simpl; [| |done].
      * destruct Hres as (-> & Hf' & _).
        pose proof (filter_insert_length attempt (tasks s) n f f' Hn) as Hlen.
        unfold weight in Hlen. rewrite Hf, Hf' in Hlen. lia.
      * subst m'. simpl.
        pose proof (filter_delete_length attempt (tasks s) n f Hn) as Hlen.
        unfold weight in Hlen. rewrite Hf in Hlen.
        destruct (isUploading (manager s)); lia.
    + destruct f as [log| | | | |]; try done.
      pose proof (resume_save log r (manager s) (world s)) as Hres.
      destruct (resume (AwaitSaveLog log) r (manager s) (world s))
        as [[[f'| |msg] m'] w']; simpl.
      * destruct Hres as (Hf' & Hflag & ->). simpl.
        pose proof (filter_insert_length attempt (tasks s) n _ f' Hn) as Hlen.
        unfold weight in Hlen. rewrite Hf' in Hlen. simpl in Hlen.
        rewrite Hflag in Hs. lia.
      * subst m'.
        pose proof (filter_delete_length attempt (tasks s) n _ Hn) as Hlen.
        unfold weight in Hlen. simpl in Hlen. lia.
      * subst m'.
        pose proof (filter_delete_length attempt (tasks s) n _ Hn) as Hlen.
        unfold weight in Hlen. simpl in Hlen. lia.
  - done.
Qed.

Lemma steps_guarded evs : ∀ s, guarded s → guarded (steps evs s).
Proof.
  induction evs as [|ev evs IH]; intros s Hs; [done|].
  simpl. apply IH. by apply step_guarded.
Qed.

Lemma start_guarded uploader strategy batchSize w :
  guarded (start uploader strategy batchSize w).
Proof. unfold guarded, start, new. by destruct strategy. Qed.

(** Every attempt settles, with the guard cleared, whatever the outcomes. *)
Lemma run_attempt_ends env (n : nat) :
  ∀ f m w,
    0 < batchSize m → attempt f = true → f ≠ AwaitGetUnuploaded →
    (rank f ≤ n)%nat →
    ∃ fuel m' w',
      run fuel env (Suspended f) m w = Some (Resolved (), m', w') ∧
      isUploading m' = false.
Proof.
  induction n as [|n IH]; intros f m w Hb Hf Hget Hrank.
  - destruct f; simpl in *; try done; lia.
  - pose proof (resume_attempt f (env (served w) (awaited m f)) m (tick w) Hf)
      as Hres.
    destruct (resume f (env (served w) (awaited m f)) m (tick w))
      as [[[f'| |msg] m'] w'] eqn:Hstep; [| |done].
    + destruct Hres as (-> & Hf' & Hget' & Hdec).
      specialize (Hdec Hb Hget).
      destruct (IH f' m w' Hb Hf' Hget' ltac:(lia))
        as (fuel & m1 & w1 & Hrun & Hflag).
      exists (S fuel), m1, w1. simpl. by rewrite Hstep.
    + subst m'. exists 1%nat, (finally m), w'. simpl. by rewrite Hstep.
Qed.

Lemma run_any_attempt_ends env f m w :
  0 < batchSize m → attempt f = true →
  ∃ fuel m' w',
    run fuel env (Suspended f) m w = Some (Resolved (), m', w') ∧
    isUploading m' = false.
Proof.
  intros Hb Hf.
  assert (f = AwaitGetUnuploaded ∨ f ≠ AwaitGetUnuploaded) as [->|Hget]
    by (destruct f; (by left) || (by right)).
  2: by apply (run_attempt_ends env (rank f)).
  pose proof (resume_attempt AwaitGetUnuploaded
                (env (served w) (awaited m AwaitGetUnuploaded)) m (tick w) Hf)
    as Hres.
  destruct (resume AwaitGetUnuploaded
              (env (served w) (awaited m AwaitGetUnuploaded)) m (tick w))
    as [[[f'| |msg] m'] w'] eqn:Hstep; [| |done].
  - destruct Hres as (-> & Hf' & Hget' & _).
    destruct (run_attempt_ends env (rank f') f' m w' Hb Hf' Hget' ltac:(lia))
      as (fuel & m1 & w1 & Hrun & Hflag).
    exists (S fuel), m1, w1. simpl in *. by rewrite Hstep.
  - subst m'. exists 1%nat, (finally m), w'. simpl in *. by rewrite Hstep.
Qed.

Lemma step_batchSize ev s :
  batchSize (manager (step ev s)) = batchSize (manager s).
Proof.
  destruct ev as [log| | |n r|]; simpl; try done.
  - destruct (IdleDetector.onIdleCallback _) as [[]|]; [|done].
    unfold uploadPendingLogs. by destruct (isUploading (manager s)).
  - unfold forceUpload, uploadPendingLogs. by destruct (isUploading (manager s)).
  - destruct (tasks s !! n) as [f|] eqn:Hn; [|done].
    destruct (attempt f) eqn:Hf.
    + pose proof (resume_attempt f r (manager s) (world s) Hf) as Hres.
      destruct (resume f r (manager s) (world s)) as [[[f'| |msg] m'] w'];
        simpl; [by destruct Hres as (-> & _)|by subst m'|done].
    + destruct f as [log| | | | |]; try done.
      pose proof (resume_save log r (manager s) (world s)) as Hres.
      destruct (resume (AwaitSaveLog log) r (manager s) (world s))
        as [[[f'| |msg] m'] w']; simpl;
        [by destruct Hres as (_ & _ & ->)|by subst m'|by subst m'].
Qed.

Lemma steps_batchSize evs :
  ∀ s, batchSize (manager (steps evs s)) = batchSize (manager s).
Proof.
  induction evs as [|ev evs IH]; intros s; [done|].
  simpl. by rewrite IH, step_batchSize.
Qed.

(** X28.  From a freshly constructed manager, after every sequence of
    events (arrivals through [handleNewLog], idle fires, [forceUpload]
    calls, completions of awaited requests with either outcome, in any
    order): at most one upload attempt is suspended, hence at most one call
    of the sink is active; the guard is set exactly while an attempt exists
    (it was set before the attempt first suspended); while it is set, an idle
    fire and a forced upload change nothing and an arriving record is saved
    but starts no upload; a completion of the attempt's request with either
    outcome leaves it an attempt with the guard set or ends it with the
    guard cleared, and never throws; and with a positive batch size every
    attempt, whatever the outcomes of its requests, ends with the guard
    cleared. *)
Theorem at_most_one_upload_in_flight :
  ∀ (uploader : LogUploader.t) (strategy : UploadStrategy) (batchSize : Z)
    (w : World) (evs : list UploadManager.Event),
    let s := steps evs (start uploader strategy batchSize w) in
    (length (attempts s) ≤ 1)%nat ∧
    (length (filter sending (tasks s)) ≤ 1)%nat ∧
    (isUploading (manager s) = true ↔ length (attempts s) = 1%nat) ∧
    (isUploading (manager s) = true →
       step IdleFired s = s ∧ step ForceUpload s = s ∧
       ∀ n log r, tasks s !! n = Some (AwaitSaveLog log) →
         manager (step (Completes n r) s) = manager s ∧
         tasks (step (Completes n r) s) = delete n (tasks s) ∧
         network (world (step (Completes n r) s)) = network (world s)) ∧
    (∀ n f r, tasks s !! n = Some f → attempt f = true →
       match resume f r (manager s) (world s) with
       | (Suspended f', m', _) => attempt f' = true ∧ isUploading m' = true
       | (Returned, m', _) => isUploading m' = false
       | (Thrown _, _, _) => False
       end) ∧
    (0 < batchSize →
     ∀ env f w', attempt f = true →
       ∃ fuel m' w'',
         run fuel env (Suspended f) (manager s) w' = Some (Resolved (), m', w'') ∧
         isUploading m' = false).
Proof.
  intros uploader strategy batchSize w evs s.
  assert (Hs : guarded s) by apply steps_guarded, start_guarded.
  unfold guarded in Hs.
  split; [destruct (isUploading (manager s)); lia|].
  split.
  { transitivity (length (attempts s)); [|destruct (isUploading (manager s)); lia].
    apply filter_weaker_length. by intros []. }
  split; [destruct (isUploading (manager s)); split; (done || lia)|].
  split.
  { intros Hflag. split; [|split].
    - simpl. destruct (IdleDetector.onIdleCallback _) as [[]|]; [|done].
      unfold uploadPendingLogs. rewrite Hflag. by destruct s.
    - simpl. unfold forceUpload, uploadPendingLogs. rewrite Hflag. by destruct s.
    - intros n log r Hn. simpl. rewrite Hn. simpl.
      destruct (Storage.saveLog _ _ _ _) as [[] os]; [|done].
      destruct (UploadManager.strategy (manager s)); [done|].
      unfold uploadImmediately. by rewrite Hflag. }
  split.
  { intros n f r Hn Hf.
    pose proof (attempt_in_tasks s n f Hn Hf) as Hone.
    pose proof (resume_attempt f r (manager s) (world s) Hf) as Hres.
    destruct (resume f r (manager s) (world s)) as [[[f'| |msg] m'] w'];
      [|by subst m'|done].
    destruct Hres as (-> & Hf' & _). split; [done|].
    destruct (isUploading (manager s)); [done|lia]. }
  intros Hb env f w' Hf. apply run_any_attempt_ends; [|done].
  subst s. rewrite steps_batchSize. unfold start, new. simpl.
  by destruct strategy.
Qed.

Lemma at_most_one_upload_in_flight_witness :
  UploadManager.step UploadManager.IdleFired
    (UploadManager.steps [UploadManager.ForceUpload]
       (UploadManager.start serverA Idle 1 openWorld))
  = UploadManager.steps [UploadManager.ForceUpload]
      (UploadManager.start serverA Idle 1 openWorld) ∧
  ∃ fuel m' w',
    UploadManager.run fuel (platform (λ _, IoError))
      (UploadManager.Suspended UploadManager.AwaitGetUnuploaded)
      (UploadManager.manager
         (UploadManager.steps [UploadManager.ForceUpload]
            (UploadManager.start serverA Idle 1 openWorld)))
      openWorld
    = Some (Resolved (), m', w') ∧
    UploadManager.isUploading m' = false.
Proof.
  destruct (at_most_one_upload_in_flight serverA Idle 1 openWorld
              [UploadManager.ForceUpload])
    as (_ & _ & _ & Hdrop & _ & Hend).
  split.
  - by apply Hdrop.
  - by apply Hend.
Defined.

End GuardFacts.

(** ** Sweeps *)

Lemma slice_batch {A} (l : list A) (k : nat) (b : Z) :
  0 < b → (k < length l)%nat →
  slice l (Z.of_nat k) (Z.of_nat k + b) = take (Z.to_nat b) (drop k l).
Proof.
  intros Hb Hk. unfold slice, rel_index.
  destruct (Z.of_nat k <? 0) eqn:E1; [apply Z.ltb_lt in E1; lia|].
  destruct (Z.of_nat k + b <? 0) eqn:E2; [apply Z.ltb_lt in E2; lia|].
  rewrite (Z.min_l (Z.of_nat k)) by lia. rewrite Nat2Z.id.
  destruct (Z.le_gt_cases (Z.of_nat k + b) (Z.of_nat (length l))) as [Hle|Hgt].
  - rewrite Z.min_l by lia. f_equal. lia.
  - rewrite Z.min_r by lia.
    rewrite !take_ge; [done| |]; rewrite length_drop; lia.
Qed.

Section SweepFacts.

Import UploadManager.

Variable sink : list LogEntry → IoResult.

Lemma uploadLogs_accepts u batch w :
  (LogUploader.uploadLogs u batch (sink batch) w).1 = accepts u sink batch.
Proof.
  unfold LogUploader.uploadLogs, accepts.
  destruct (bool_decide (LogUploader.serverUrl u = "")); [done|].
  destruct (bool_decide (length batch = 0%nat)); [done|].
  by destruct (sink batch).
Qed.

Lemma uploadLogs_world u batch r w :
  let w' := (LogUploader.uploadLogs u batch r w).2 in
  network w' = network w ++ posts u (now w) batch ∧
  store w' = store w ∧ storage w' = storage w ∧ now w' = now w.
Proof.
  unfold LogUploader.uploadLogs, posts.
  destruct (bool_decide (LogUploader.serverUrl u = "")); simpl;
    [by rewrite app_nil_r|].
  destruct (bool_decide (length batch = 0%nat)); simpl; [by rewrite app_nil_r|].
  by destruct r.
Qed.

Lemma markAsUploaded_open logIds st os :
  db st = true →
  Storage.markAsUploaded logIds IoSuccess st os
  = (Resolved (), (Storage.markAsUploaded logIds IoSuccess (mkStorage true) os).2).
Proof.
  destruct st as [[]]; [|done]. intros _. unfold Storage.markAsUploaded. simpl.
  by destruct (bool_decide (length logIds = 0%nat)).
Qed.

Lemma sweep_loop (m : t) (unuploadedLogs : list LogEntry) :
  0 < batchSize m →
  ∀ (n k : nat) (w : World),
    (length unuploadedLogs - k ≤ n)%nat →
    db (storage w) = true →
    let batches :=
      chunks_within n (Z.to_nat (batchSize m)) (drop k unuploadedLogs) in
    ∃ fuel w',
      call fuel (platform sink) (forLoop unuploadedLogs (Z.of_nat k) m w)
      = Some (Resolved (), finally m, w') ∧
      store w' = foldl marked (store w) (delivered (accepts (uploader m) sink) batches) ∧
      network w'
      = network w
        ++ concat (posts (uploader m) (now w)
                     <$> attempted (accepts (uploader m) sink) batches) ∧
      storage w' = storage w ∧ now w' = now w.
Proof.
  intros Hb n. induction n as [|n IH]; intros k w Hn Hdb batches.
  - exists 0%nat, w. unfold forLoop.
    rewrite (proj2 (Z.ltb_ge _ _)) by lia. simpl.
    by rewrite app_nil_r.
  - destruct (Nat.le_gt_cases (length unuploadedLogs) k) as [Hend|Hk].
    { exists 0%nat, w. unfold forLoop.
      rewrite (proj2 (Z.ltb_ge _ _)) by lia.
      subst batches. rewrite drop_ge by done. simpl. by rewrite app_nil_r. }
    destruct (drop k unuploadedLogs) as [|x rest] eqn:Hdrop.
    { apply (f_equal length) in Hdrop. rewrite length_drop in Hdrop.
      simpl in Hdrop. lia. }
    subst batches. cbn [chunks_within]. rewrite <- Hdrop.
    set (batch := take (Z.to_nat (batchSize m)) (drop k unuploadedLogs)).
    assert (Hbatch : batchAt m unuploadedLogs (Z.of_nat k) = batch)
      by (by apply slice_batch).
    unfold forLoop. rewrite (proj2 (Z.ltb_lt _ _)) by lia.
    pose proof (uploadLogs_accepts (uploader m) batch (tick w)) as Hacc.
    pose proof (uploadLogs_world (uploader m) batch (sink batch) (tick w))
      as (Hnet & Hstore & Hstorage & Hnow).
    destruct (LogUploader.uploadLogs (uploader m) batch (sink batch) (tick w))
      as [success w1] eqn:Hup.
    simpl in Hacc, Hnet, Hstore, Hstorage, Hnow. subst success.
    destruct (accepts (uploader m) sink batch) eqn:Haccepts.
    + specialize (IH (k + Z.to_nat (batchSize m))%nat
                    (set_store (marked (store w1) batch) (tick w1))).
      destruct IH as (fuel & w' & Hrun & Hst & Hnt & Hsg & Hnw).
      { lia. }
      { simpl. by rewrite Hstorage. }
      exists (S (S fuel)), w'.
      split; [|split; [|split; [|split]]].
      * cbn [call run awaited platform]. rewrite Hbatch.
        cbn [resume]. rewrite Hbatch, Hup.
        cbn [awaited platform resume]. rewrite Hbatch.
        rewrite markAsUploaded_open by (simpl; by rewrite Hstorage).
        fold (marked (store w1) batch).
        replace (Z.of_nat k + batchSize m)
          with (Z.of_nat (k + Z.to_nat (batchSize m))) by lia.
        exact Hrun.
      * cbn [delivered]. rewrite Haccepts. cbn [foldl].
        rewrite Hst. simpl. rewrite drop_drop, Hstore. done.
      * cbn [attempted]. rewrite Haccepts. cbn [fmap list_fmap concat].
        rewrite Hnt. simpl. rewrite Hnet, Hnow, drop_drop, <- app_assoc. done.
      * rewrite Hsg. simpl. by rewrite Hstorage.
      * rewrite Hnw. simpl. by rewrite Hnow.
    + exists 1%nat, w1.
      split; [|split; [|split; [|split]]]; try done.
      * cbn [call run awaited platform]. rewrite Hbatch.
        cbn [resume]. by rewrite Hbatch, Hup.
      * cbn [delivered]. by rewrite Haccepts.
      * cbn [attempted]. rewrite Haccepts. simpl. by rewrite app_nil_r.
Qed.


Lemma marked_lookup_batch (os : ObjectStore) batch k :
  marked os batch !! k =
    if bool_decide (k ∈ id <$> batch) then set_uploaded <$> os !! k
    else os !! k.
Proof. unfold marked. by rewrite markAsUploaded_lookup. Qed.

Lemma foldl_marked_lookup batches :
  ∀ (os : ObjectStore) k,
    foldl marked os batches !! k =
      if bool_decide (k ∈ id <$> concat batches) then set_uploaded <$> os !! k
      else os !! k.
Proof.
  induction batches as [|batch batches IH]; intros os k; cbn [foldl concat].
  - rewrite bool_decide_eq_false_2; [done|apply not_elem_of_nil].
  - rewrite IH, marked_lookup_batch, fmap_app.
    destruct (decide (k ∈ id <$> batch)) as [Hb|Hb];
      destruct (decide (k ∈ id <$> concat batches)) as [Hc|Hc].
    + rewrite (bool_decide_eq_true_2 (k ∈ id <$> batch)) by done.
      rewrite (bool_decide_eq_true_2 (k ∈ id <$> concat batches)) by done.
      rewrite bool_decide_eq_true_2 by (apply elem_of_app; by left).
      by destruct (os !! k).
    + rewrite (bool_decide_eq_true_2 (k ∈ id <$> batch)) by done.
      rewrite (bool_decide_eq_false_2 (k ∈ id <$> concat batches)) by done.
      by rewrite bool_decide_eq_true_2 by (apply elem_of_app; by left).
    + rewrite (bool_decide_eq_false_2 (k ∈ id <$> batch)) by done.
      rewrite (bool_decide_eq_true_2 (k ∈ id <$> concat batches)) by done.
      by rewrite bool_decide_eq_true_2 by (apply elem_of_app; by right).
    + rewrite (bool_decide_eq_false_2 (k ∈ id <$> batch)) by done.
      rewrite (bool_decide_eq_false_2 (k ∈ id <$> concat batches)) by done.
      rewrite bool_decide_eq_false_2; [done|].
      rewrite elem_of_app. by intros [?|?].
Qed.

(** One whole sweep on a platform whose store requests succeed. *)
Lemma sweep_runs (m : t) (w : World) :
  isUploading m = false → 0 < batchSize m → db (storage w) = true →
  let batches := chunks (Z.to_nat (batchSize m)) (unuploaded (store w)) in
  ∃ fuel w',
    call fuel (platform sink) (forceUpload m w) = Some (Resolved (), m, w') ∧
    store w'
    = foldl marked (store w) (delivered (accepts (uploader m) sink) batches) ∧
    network w'
    = network w
      ++ concat (posts (uploader m) (now w)
                   <$> attempted (accepts (uploader m) sink) batches) ∧
    storage w' = storage w ∧ now w' = now w.
Proof.
  intros Hflag Hb Hdb batches.
  assert (Hm : finally (set_isUploading true m) = m).
  { destruct m. simpl in Hflag. subst. done. }
  unfold forceUpload, uploadPendingLogs. rewrite Hflag.
  destruct (unuploaded (store w)) as [|x rest] eqn:Hpending.
  - exists 1%nat, (tick w). subst batches. cbn.
    unfold Storage.getUnuploadedLogs. rewrite Hdb. simpl.
    fold (unuploaded (store w)). rewrite Hpending. simpl.
    rewrite Hm, app_nil_r. done.
  - destruct (sweep_loop (set_isUploading true m) (x :: rest) Hb
                (length (x :: rest)) 0 (tick w)) as (fuel & w' & Hrun & Hrest);
      [lia|done|].
    exists (S fuel), w'. rewrite Hm in Hrun. split; [|exact Hrest].
    cbn [call run awaited platform resume].
    unfold Storage.getUnuploadedLogs. cbn [tick storage store]. rewrite Hdb.
    cbn [negb]. fold (unuploaded (store w)). rewrite Hpending.
    rewrite bool_decide_eq_false_2 by done. exact Hrun.
Qed.

End SweepFacts.

Section ChunkFacts.

Context {A : Type}.
Implicit Types (l : list A) (b fuel : nat).

Lemma chunks_within_concat b : (0 < b)%nat →
  ∀ fuel l, (length l ≤ fuel)%nat → concat (chunks_within fuel b l) = l.
Proof.
  intros Hb fuel. induction fuel as [|fuel IH]; intros l Hl.
  - destruct l; [done|simpl in Hl; lia].
  - destruct l as [|x l]; [done|]. cbn [chunks_within concat].
    rewrite IH, take_drop; [done|].
    rewrite length_drop. simpl in *. lia.
Qed.

Lemma chunks_concat b l : (0 < b)%nat → concat (chunks b l) = l.
Proof. intros Hb. by apply chunks_within_concat. Qed.

Lemma chunks_first b l :
  l ≠ [] →
  chunks b l = take b l :: chunks_within (length l - 1) b (drop b l).
Proof.
  destruct l as [|x l]; [done|]. intros _. unfold chunks.
  cbn [length chunks_within]. by rewrite Nat.sub_1_r.
Qed.

Lemma chunks_single b l :
  l ≠ [] → (length l ≤ b)%nat → chunks b l = [l].
Proof.
  intros Hl Hb. rewrite chunks_first by done.
  rewrite take_ge, drop_ge by done.
  by destruct (length l - 1)%nat.
Qed.

Lemma attempted_all (accepts : A → bool) (batches : list A) :
  Forall (λ batch, accepts batch = true) batches →
  attempted accepts batches = batches ∧ delivered accepts batches = batches.
Proof.
  induction 1 as [|batch batches Hbatch _ [IHa IHd]]; [done|].
  simpl. by rewrite Hbatch, IHa, IHd.
Qed.

End ChunkFacts.

(** ** Sweeps on any platform *)

Section SweepAnyPlatform.

Import UploadManager.

Context (env : Env).

Lemma numbered_cons {A} j (x : A) l :
  numbered j (x :: l) = (j, x) :: numbered (S j) l.
Proof. done. Qed.

Lemma outcomes_shift (u : LogUploader.t) (s : nat) l :
  ∀ j,
    delivered (λ jb, reported env u s jb && recorded env s jb)
      (numbered (S j) l)
    = (λ jb : nat * list LogEntry, (S jb.1, jb.2))
        <$> delivered (λ jb, reported env u (s + 2) jb && recorded env (s + 2) jb)
              (numbered j l) ∧
    attempted (λ jb, reported env u s jb && recorded env s jb)
      (numbered (S j) l)
    = (λ jb : nat * list LogEntry, (S jb.1, jb.2))
        <$> attempted (λ jb, reported env u (s + 2) jb && recorded env (s + 2) jb)
              (numbered j l).
Proof.
  induction l as [|x l IH]; intros j; [done|].
  rewrite !numbered_cons. cbn [delivered attempted].
  assert (Heq : reported env u s (S j, x) && recorded env s (S j, x)
                = reported env u (s + 2) (j, x) && recorded env (s + 2) (j, x)).
  { unfold reported, recorded. cbn [fst snd].
    replace (s + 2 * S j)%nat with (s + 2 + 2 * j)%nat by lia. done. }
  rewrite Heq. destruct (IH (S j)) as [-> ->].
  by destruct (reported env u (s + 2) (j, x) && recorded env (s + 2) (j, x)).
Qed.

Lemma snd_shift {A} (l : list (nat * A)) :
  ((λ jb : nat * A, (S jb.1, jb.2)) <$> l).*2 = l.*2.
Proof. rewrite <- list_fmap_compose. by apply list_fmap_ext. Qed.

Lemma sweep_loop_any (m : t) (unuploadedLogs : list LogEntry) :
  0 < batchSize m →
  ∀ (n k : nat) (w : World),
    (length unuploadedLogs - k ≤ n)%nat →
    db (storage w) = true →
    let batches :=
      numbered 0
        (chunks_within n (Z.to_nat (batchSize m)) (drop k unuploadedLogs)) in
    let ok := λ jb, reported env (uploader m) (served w) jb
                    && recorded env (served w) jb in
    ∃ fuel w',
      call fuel env (forLoop unuploadedLogs (Z.of_nat k) m w)
      = Some (Resolved (), finally m, w') ∧
      store w' = foldl marked (store w) ((delivered ok batches).*2) ∧
      network w'
      = network w
        ++ concat (posts (uploader m) (now w) <$> (attempted ok batches).*2) ∧
      storage w' = storage w ∧ now w' = now w.
Proof.
  intros Hb n. induction n as [|n IH]; intros k w Hn Hdb batches ok.
  - exists 0%nat, w. unfold forLoop.
    rewrite (proj2 (Z.ltb_ge _ _)) by lia. simpl.
    by rewrite app_nil_r.
  - destruct (Nat.le_gt_cases (length unuploadedLogs) k) as [Hend|Hk].
    { exists 0%nat, w. unfold forLoop.
      rewrite (proj2 (Z.ltb_ge _ _)) by lia.
      subst batches. rewrite drop_ge by done. simpl. by rewrite app_nil_r. }
    destruct (drop k unuploadedLogs) as [|x rest] eqn:Hdrop.
    { apply (f_equal length) in Hdrop. rewrite length_drop in Hdrop.
      simpl in Hdrop. lia. }
    subst batches. cbn [chunks_within]. rewrite <- Hdrop.
    set (batch := take (Z.to_nat (batchSize m)) (drop k unuploadedLogs)).
    rewrite numbered_cons.
    assert (Hbatch : batchAt m unuploadedLogs (Z.of_nat k) = batch)
      by (by apply slice_batch).
    unfold forLoop. rewrite (proj2 (Z.ltb_lt _ _)) by lia.
    set (r := env (served w) (OpFetch (LogUploader.serverUrl (uploader m)) batch)).
    pose proof (uploadLogs_accepts (λ _, r) (uploader m) batch (tick w)) as Hacc.
    pose proof (uploadLogs_world (uploader m) batch r (tick w))
      as (Hnet & Hstore & Hstorage & Hnow).
    assert (Hserved : served (LogUploader.uploadLogs (uploader m) batch r (tick w)).2
                      = S (served w)).
    { unfold LogUploader.uploadLogs. repeat case_match; done. }
    destruct (LogUploader.uploadLogs (uploader m) batch r (tick w))
      as [success w1] eqn:Hup.
    cbn [fst snd] in Hacc, Hnet, Hstore, Hstorage, Hnow, Hserved.
    assert (Hrep : reported env (uploader m) (served w) (0%nat, batch) = success).
    { unfold reported. cbn [fst snd]. rewrite Nat.add_0_r. subst success.
      unfold accepts. fold r. done. }
    set (r2 := env (S (served w)) (OpMark (id <$> batch))).
    assert (Hrec : recorded env (served w) (0%nat, batch)
                   = match r2 with IoSuccess => true | IoError => false end).
    { unfold recorded. cbn [fst snd]. subst r2.
      by replace (served w + 2 * 0 + 1)%nat with (S (served w)) by lia. }
    assert (Hstep : ok (0%nat, batch)
                    = success && match r2 with
                                 | IoSuccess => true
                                 | IoError => false
                                 end)
      by (subst ok; cbv beta; by rewrite Hrep, Hrec).
    destruct success.
    + destruct r2 eqn:Hr2.
      * specialize (IH (k + Z.to_nat (batchSize m))%nat
                      (set_store (marked (store w1) batch) (tick w1))).
        destruct IH as (fuel & w' & Hrun & Hst & Hnt & Hsg & Hnw).
        { lia. }
        { simpl. by rewrite Hstorage. }
        destruct (outcomes_shift (uploader m) (served w)
                    (chunks_within n (Z.to_nat (batchSize m))
                       (drop (Z.to_nat (batchSize m)) (drop k unuploadedLogs))) 0)
          as [Hdel Hatt].
        exists (S (S fuel)), w'.
        split; [|split; [|split; [|split]]].
        -- cbn [call run awaited]. rewrite Hbatch. fold r.
           cbn [resume]. rewrite Hbatch, Hup.
           cbn [awaited resume]. rewrite Hbatch, Hserved. fold r2. rewrite Hr2.
           rewrite markAsUploaded_open by (simpl; by rewrite Hstorage).
           fold (marked (store w1) batch).
           replace (Z.of_nat k + batchSize m)
             with (Z.of_nat (k + Z.to_nat (batchSize m))) by lia.
           exact Hrun.
        -- cbn [delivered]. rewrite Hstep. cbn [andb]. unfold ok.
           rewrite Hdel, fmap_cons, snd_shift. cbn [snd foldl].
           rewrite Hst. cbn [store set_store served tick].
           rewrite Hserved, drop_drop, Hstore.
           by replace (S (S (served w))) with (served w + 2)%nat by lia.
        -- cbn [attempted]. rewrite Hstep. cbn [andb]. unfold ok.
           rewrite Hatt, fmap_cons, snd_shift. cbn [snd].
           rewrite fmap_cons. cbn [concat].
           rewrite Hnt. cbn [network set_store served tick now].
           rewrite Hserved, Hnet, Hnow, drop_drop, <- app_assoc.
           by replace (S (S (served w))) with (served w + 2)%nat by lia.
        -- rewrite Hsg. simpl. by rewrite Hstorage.
        -- rewrite Hnw. simpl. by rewrite Hnow.
      * exists 2%nat, (say (Diag "Failed to upload pending logs") (tick w1)).
        split; [|split; [|split; [|split]]].
        -- cbn [call run awaited]. rewrite Hbatch. fold r.
           cbn [resume]. rewrite Hbatch, Hup.
           cbn [awaited resume]. rewrite Hbatch, Hserved. fold r2. rewrite Hr2.
           unfold Storage.markAsUploaded. cbn [tick storage].
           change (storage (tick w)) with (storage w) in Hstorage.
           rewrite Hstorage, Hdb. cbn [negb orb].
           rewrite bool_decide_eq_false_2; [done|].
           subst batch. rewrite length_fmap, length_take, Hdrop. simpl. lia.
        -- cbn [delivered]. by rewrite Hstep.
        -- cbn [attempted]. rewrite Hstep. simpl.
           by rewrite app_nil_r, Hnet.
        -- simpl. done.
        -- simpl. done.
    + exists 1%nat, w1.
      split; [|split; [|split; [|split]]]; try done.
      * cbn [call run awaited]. rewrite Hbatch. fold r.
        cbn [resume]. by rewrite Hbatch, Hup.
      * cbn [delivered]. by rewrite Hstep.
      * cbn [attempted]. rewrite Hstep. simpl. by rewrite app_nil_r.
Qed.

End SweepAnyPlatform.

Section SweepAnyPlatformRuns.

Import UploadManager.

(** One whole sweep, whatever the platform answers. *)
Lemma sweep_runs_any (env : Env) (m : t) (w : World) :
  isUploading m = false → 0 < batchSize m →
  let batches :=
    numbered 0 (chunks (Z.to_nat (batchSize m)) (read env w)) in
  let ok := λ jb, reported env (uploader m) (S (served w)) jb
                  && recorded env (S (served w)) jb in
  ∃ fuel w',
    call fuel env (forceUpload m w) = Some (Resolved (), m, w') ∧
    store w' = foldl marked (store w) ((delivered ok batches).*2) ∧
    network w'
    = network w
      ++ concat (posts (uploader m) (now w) <$> (attempted ok batches).*2) ∧
    storage w' = storage w ∧ now w' = now w.
Proof.
  intros Hflag Hb batches ok.
  assert (Hm : finally (set_isUploading true m) = m).
  { destruct m. simpl in Hflag. subst. done. }
  unfold forceUpload, uploadPendingLogs. rewrite Hflag.
  subst batches. unfold read.
  destruct (Storage.getUnuploadedLogs (env (served w) OpGetAll) (storage w)
              (store w)) as [[|x rest]|msg] eqn:Hread.
  - exists 1%nat, (tick w). cbn [call run awaited resume tick storage store].
    rewrite Hread. simpl. by rewrite Hm, app_nil_r.
  - assert (Hdb : db (storage w) = true).
    { unfold Storage.getUnuploadedLogs in Hread.
      by destruct (db (storage w)). }
    destruct (sweep_loop_any env (set_isUploading true m) (x :: rest) Hb
                (length (x :: rest)) 0 (tick w)) as (fuel & w' & Hrun & Hrest);
      [lia|done|].
    exists (S fuel), w'. rewrite Hm in Hrun. split; [|exact Hrest].
    cbn [call run awaited resume tick storage store]. rewrite Hread.
    rewrite bool_decide_eq_false_2 by done. exact Hrun.
  - exists 1%nat, (say (Diag "Failed to upload pending logs") (tick w)).
    cbn [call run awaited resume tick storage store].
    rewrite Hread. simpl. by rewrite Hm, app_nil_r.
Qed.

End SweepAnyPlatformRuns.

(** C5, as the code has it.  One sweep (forced or idle-triggered: both are
    [uploadPendingLogs]) with a positive batch size, whatever the platform
    answers to each request: it ends.  Of the consecutive batches of the
    records it read, which come in ascending order of their keys, the sink
    is handed every batch up to and including the first that it refuses or
    whose marks the store does not record, and no batch after it.  A
    stored record has its [uploaded] flag set to [true] by the sweep
    exactly when it belongs to a batch before that one, that is, to a batch
    that the sink reported success for and whose marks the store recorded;
    every other record is as it was.  In particular, with [2b] records
    read, when the sink fails on the first batch the store is left as it
    was and only the first batch was sent. *)
Theorem sweep_marks_accepted_batches_and_stops :
  ∀ (env : Env) (m : UploadManager.t) (w : World),
    UploadManager.isUploading m = false →
    0 < UploadManager.batchSize m →
    let u := UploadManager.uploader m in
    let b := Z.to_nat (UploadManager.batchSize m) in
    let pending := read env w in
    let batches := numbered 0 (chunks b pending) in
    let ok jb := reported env u (S (served w)) jb
                 && recorded env (S (served w)) jb in
    ∃ fuel w',
      UploadManager.call fuel env (UploadManager.forceUpload m w)
      = Some (Resolved (), m, w') ∧
      StronglySorted
        (λ log1 log2, key_le (id log1) (id log2) ∧ id log1 ≠ id log2)
        pending ∧
      network w'
      = network w ++ concat (posts u (now w) <$> (attempted ok batches).*2) ∧
      (∀ k, store w' !! k =
            if bool_decide (k ∈ id <$> concat (delivered ok batches).*2)
            then (λ v, mkStored (s_level v) (s_title v) (s_data v)
                         (s_timestamp v) (Some true)) <$> store w !! k
            else store w !! k) ∧
      (length pending = (2 * b)%nat →
       reported env u (S (served w)) (0%nat, take b pending) = false →
       store w' = store w ∧
       network w' = network w ++ posts u (now w) (take b pending)).
Proof.
  intros env m w Hflag Hb u b pending batches ok.
  destruct (sweep_runs_any env m w Hflag Hb)
    as (fuel & w' & Hrun & Hstore & Hnet & _ & _).
  fold u b pending batches ok in Hstore, Hnet.
  exists fuel, w'. split; [done|]. split.
  { subst pending. unfold read, Storage.getUnuploadedLogs.
    destruct (negb _); [constructor|].
    destruct (env _ _); [apply unuploaded_sorted|constructor]. }
  split; [done|]. split.
  - intros k. by rewrite Hstore, foldl_marked_lookup.
  - intros Hlen Hfail.
    assert (Hne : pending ≠ []).
    { intros Hnil. rewrite Hnil in Hlen. simpl in Hlen. lia. }
    subst batches. rewrite (chunks_first b pending Hne) in Hstore, Hnet.
    rewrite numbered_cons in Hstore, Hnet.
    cbn [attempted delivered] in Hstore, Hnet.
    assert (Hok : ok (0%nat, take b pending) = false)
      by (subst ok; cbv beta; by rewrite Hfail).
    rewrite Hok in Hstore, Hnet.
    simpl in Hstore, Hnet. by rewrite app_nil_r in Hnet.
Qed.

Lemma sweep_marks_accepted_batches_and_stops_witness :
  ∃ fuel w',
    UploadManager.call fuel (platform (λ _, IoError))
      (UploadManager.forceUpload (UploadManager.new serverA Idle 1 openWorld)
         openWorld)
    = Some (Resolved (), UploadManager.new serverA Idle 1 openWorld, w') ∧
    store w' = pendingStore ∧
    network w'
    = [mkRequest "https://a.example/logs" [LogUploader.wire log1] 1000].
Proof.
  destruct (sweep_marks_accepted_batches_and_stops (platform (λ _, IoError))
              (UploadManager.new serverA Idle 1 openWorld) openWorld
              eq_refl eq_refl)
    as (fuel & w' & Hrun & _ & _ & _ & Hfail).
  exists fuel, w'. split; [exact Hrun|].
  apply Hfail; by vm_compute.
Defined.

(** C5, the claim as written fails: the sink reports success for the
    first batch, the store then fails to record its marks, and the sweep
    ends with that one request made and both records still pending. *)
Lemma sweep_leaves_accepted_batch_unmarked_when_marking_fails :
  marksFail 1%nat (OpFetch "https://a.example/logs" [log1]) = IoSuccess ∧
  (λ r, (r.1.1, network r.2, unuploaded (store r.2)))
    <$> UploadManager.call 3 marksFail
          (UploadManager.forceUpload
             (UploadManager.new serverA Idle 1 openWorld) openWorld)
  = Some (Resolved (),
          [mkRequest "https://a.example/logs" [LogUploader.wire log1] 1000],
          [log1; log2]).
Proof. split; [done|]. by vm_compute. Qed.

Lemma slice_zero {A} (l : list A) : slice l 0 (0 + 0) = [].
Proof.
  unfold slice, rel_index.
  change (0 <? 0) with false. change (0 + 0 <? 0) with false.
  change (0 + 0) with 0. cbv iota.
  rewrite Z.min_l by lia. done.
Qed.

Section ZeroBatch.

Import UploadManager.

(** With batch size 0 and an endpoint, the loop of a sweep never leaves
    index 0: each round hands the sink an empty batch, which it accepts
    without a request, and marks nothing. *)
Lemma zero_batch_loops (m : t) (unuploadedLogs : list LogEntry) (env : Env) :
  batchSize m = 0 →
  LogUploader.serverUrl (uploader m) ≠ "" →
  unuploadedLogs ≠ [] →
  ∀ fuel w,
    run fuel env (Suspended (AwaitUploadBatch unuploadedLogs 0)) m w = None ∧
    run fuel env (Suspended (AwaitMarkBatch unuploadedLogs 0)) m w = None.
Proof.
  intros Hb Hurl Hne fuel.
  induction fuel as [|fuel IH]; intros w; [by split|].
  assert (Hbatch : batchAt m unuploadedLogs 0 = []).
  { unfold batchAt. rewrite Hb. apply slice_zero. }
  split.
  - cbn [run resume]. rewrite Hbatch.
    unfold LogUploader.uploadLogs.
    rewrite bool_decide_eq_false_2 by done.
    rewrite bool_decide_eq_true_2 by done. apply IH.
  - cbn [run resume]. rewrite Hbatch.
    assert (Hmark : ∀ r st os,
              Storage.markAsUploaded (id <$> []) r st os = (Resolved (), os)).
    { intros r st os. unfold Storage.markAsUploaded. simpl.
      by rewrite orb_true_r. }
    rewrite Hmark. unfold forLoop. rewrite Hb.
    rewrite (proj2 (Z.ltb_lt _ _)); [apply IH|].
    destruct unuploadedLogs; [done|simpl; lia].
Qed.

End ZeroBatch.

(** C4, the code at the failing input.  With batch size 0, an endpoint
    and two pending records the sweep does not treat the batch size as
    unbounded: it never ends, however many requests it is given; after the
    read of the pending records and five more completed awaits it stands
    at index 0 again, the guard still set, and nothing has been sent. *)
Lemma sweep_batch_size_zero_never_ends :
  length (unuploaded pendingStore) = 2%nat ∧
  (∀ fuel,
     UploadManager.call fuel (platform (λ _, IoSuccess))
       (UploadManager.forceUpload (UploadManager.new serverA Idle 0 openWorld)
          openWorld) = None) ∧
  UploadManager.steps
    [UploadManager.ForceUpload;
     UploadManager.Completes 0 IoSuccess; UploadManager.Completes 0 IoSuccess;
     UploadManager.Completes 0 IoSuccess; UploadManager.Completes 0 IoSuccess;
     UploadManager.Completes 0 IoSuccess]
    (UploadManager.start serverA Idle 0 openWorld)
  = UploadManager.mkSystem
      (UploadManager.set_isUploading true
         (UploadManager.new serverA Idle 0 openWorld))
      openWorld
      [UploadManager.AwaitUploadBatch (unuploaded pendingStore) 0].
Proof.
  split; [by vm_compute|]. split; [|by vm_compute].
  intros [|fuel]; [done|].
  cbn [UploadManager.call UploadManager.forceUpload
         UploadManager.uploadPendingLogs UploadManager.new
         UploadManager.setupIdleUpload UploadManager.isUploading
         UploadManager.run].
  change (UploadManager.resume _ _ _ _)
    with (UploadManager.forLoop (unuploaded pendingStore) 0
            (UploadManager.set_isUploading true
               (UploadManager.new serverA Idle 0 openWorld))
            (tick openWorld)).
  unfold UploadManager.forLoop.
  rewrite (proj2 (Z.ltb_lt _ _)) by (by vm_compute).
  apply zero_batch_loops; [done|done|by vm_compute].
Qed.

(** ** The loop at batch size 0 *)

Section ZeroBatchEvents.

Import UploadManager.

(** With batch size 0 and an endpoint, the loop of a sweep stays where it
    is whatever the outcomes of the requests it awaits: the manager, the
    world and the index are the same after every completion. *)
Lemma zero_batch_stuck (m : t) (w : World) (unuploadedLogs : list LogEntry) :
  batchSize m = 0 →
  LogUploader.serverUrl (uploader m) ≠ "" →
  unuploadedLogs ≠ [] →
  ∀ (rs : list IoResult) (f : Frame),
    f = AwaitUploadBatch unuploadedLogs 0 ∨ f = AwaitMarkBatch unuploadedLogs 0 →
    ∃ f',
      (f' = AwaitUploadBatch unuploadedLogs 0
       ∨ f' = AwaitMarkBatch unuploadedLogs 0) ∧
      steps (Completes 0 <$> rs) (mkSystem m w [f]) = mkSystem m w [f'].
Proof.
  intros Hb Hurl Hne rs.
  assert (Hbatch : batchAt m unuploadedLogs 0 = []).
  { unfold batchAt. rewrite Hb. apply slice_zero. }
  induction rs as [|r rs IH]; intros f Hf; [by exists f|].
  cbn [fmap list_fmap]. change (steps (?ev :: ?evs) ?s) with (steps evs (step ev s)).
  destruct Hf as [-> | ->].
  - assert (Hstep : step (Completes 0 r)
                      (mkSystem m w [AwaitUploadBatch unuploadedLogs 0])
                    = mkSystem m w [AwaitMarkBatch unuploadedLogs 0]).
    { cbn [step tasks manager world lookup list_lookup resume]. rewrite Hbatch.
      unfold LogUploader.uploadLogs.
      rewrite bool_decide_eq_false_2 by done.
      by rewrite bool_decide_eq_true_2 by done. }
    rewrite Hstep. apply IH. by right.
  - assert (Hstep : step (Completes 0 r)
                      (mkSystem m w [AwaitMarkBatch unuploadedLogs 0])
                    = mkSystem m w [AwaitUploadBatch unuploadedLogs 0]).
    { cbn [step tasks manager world lookup list_lookup resume]. rewrite Hbatch.
      unfold Storage.markAsUploaded. cbn [fmap list_fmap length].
      rewrite orb_true_r. unfold forLoop. rewrite Hb.
      rewrite (proj2 (Z.ltb_lt _ _))
        by (destruct unuploadedLogs; [done|simpl; lia]).
      by destruct w. }
    rewrite Hstep. apply IH. by left.
Qed.

(** A forced sweep that finds pending records enters that loop. *)
Lemma zero_batch_enters (u : LogUploader.t) (strategy : UploadStrategy)
    (w : World) :
  db (storage w) = true →
  unuploaded (store w) ≠ [] →
  steps [ForceUpload; Completes 0 IoSuccess] (start u strategy 0 w)
  = mkSystem (set_isUploading true (new u strategy 0 w)) w
      [AwaitUploadBatch (unuploaded (store w)) 0].
Proof.
  intros Hdb Hne.
  assert (Hflag : isUploading (new u strategy 0 w) = false)
    by (by destruct strategy).
  unfold steps, start. cbn [foldl step manager world tasks].
  unfold forceUpload, uploadPendingLogs. rewrite Hflag.
  cbn [spawn app manager world tasks lookup list_lookup resume].
  unfold Storage.getUnuploadedLogs. rewrite Hdb. cbn [negb].
  fold (unuploaded (store w)).
  rewrite bool_decide_eq_false_2 by (by destruct (unuploaded (store w))).
  unfold forLoop.
  rewrite (proj2 (Z.ltb_lt _ _))
    by (destruct (unuploaded (store w)); [done|simpl; lia]).
  done.
Qed.

End ZeroBatchEvents.

Section GuardAtZero.
Import UploadManager.

(** C1, the code at the failing input.  A manager with batch size 0 and
    an endpoint, over a store with a pending record: after one
    [forceUpload] whose read succeeds, and after any number of further
    completions with any outcomes, the guard is still set and the one
    attempt is still suspended, the world is as it was, a further
    [forceUpload] and an idle fire are dropped, and an arriving record is
    saved but starts no upload.  The final step that clears the guard is
    never reached. *)
Theorem upload_guard_stays_set_with_batch_size_zero :
  ∀ (u : LogUploader.t) (strategy : UploadStrategy) (w : World)
    (rs : list IoResult),
    LogUploader.serverUrl u ≠ "" →
    db (storage w) = true →
    unuploaded (store w) ≠ [] →
    let s :=
      steps (ForceUpload :: Completes 0 IoSuccess :: (Completes 0 <$> rs))
        (start u strategy 0 w) in
    isUploading (manager s) = true ∧
    length (attempts s) = 1%nat ∧
    world s = w ∧
    step ForceUpload s = s ∧
    step IdleFired s = s ∧
    ∀ log r,
      let s' := step (Completes 1 r) (step (NewLog log) s) in
      isUploading (manager s') = true ∧
      length (attempts s') = 1%nat ∧
      network (world s') = network w.
Proof.
  intros u strategy w rs Hurl Hdb Hne s.
  assert (Hs : ∃ f,
            (f = AwaitUploadBatch (unuploaded (store w)) 0
             ∨ f = AwaitMarkBatch (unuploaded (store w)) 0) ∧
            s = mkSystem (set_isUploading true (new u strategy 0 w)) w [f]).
  { subst s.
    change (steps (?e1 :: ?e2 :: ?evs) ?s0) with (steps evs (steps [e1; e2] s0)).
    rewrite zero_batch_enters by done.
    apply zero_batch_stuck; try done.
    - by destruct strategy.
    - by destruct strategy.
    - by left. }
  destruct Hs as (f & Hf & ->).
  assert (Hatt : attempt f = true) by (by destruct Hf as [-> | ->]).
  split; [done|]. split.
  { unfold attempts. cbn [tasks]. rewrite filter_cons, Hatt. done. }
  split; [done|]. split.
  { cbn [step manager world tasks]. unfold forceUpload, uploadPendingLogs. done. }
  split.
  { cbn [step manager world tasks].
    destruct (IdleDetector.onIdleCallback _) as [[]|]; [|done].
    unfold uploadPendingLogs. done. }
  intros log r s'. subst s'.
  cbn [step handleNewLog spawn manager world tasks app lookup list_lookup resume].
  destruct (Storage.saveLog log r (storage w) (store w)) as [[[]|msg] os].
  - assert (Hany : ∀ st,
      match st with Immediate => uploadImmediately [log]
                                   (set_isUploading true (new u strategy 0 w))
                                   (set_store os w)
                  | Idle => (Returned, set_isUploading true (new u strategy 0 w),
                             set_store os w) end
      = (Returned, set_isUploading true (new u strategy 0 w), set_store os w))
      by (by intros []).
    rewrite Hany. cbn [manager world tasks delete list_delete].
    split; [done|]. split; [|done].
    unfold attempts. cbn [tasks]. by rewrite filter_cons, Hatt.
  - cbn [manager world tasks delete list_delete].
    split; [done|]. split; [|done].
    unfold attempts. cbn [tasks]. by rewrite filter_cons, Hatt.
Qed.

Lemma upload_guard_stays_set_with_batch_size_zero_witness :
  isUploading
    (manager
       (steps (ForceUpload :: Completes 0 IoSuccess
               :: (Completes 0 <$> [IoSuccess; IoError; IoSuccess; IoError]))
          (start serverA Idle 0 openWorld))) = true.
Proof.
  refine (proj1 (upload_guard_stays_set_with_batch_size_zero serverA Idle
                   openWorld [IoSuccess; IoError; IoSuccess; IoError] _ _ _));
    by vm_compute.
Defined.

End GuardAtZero.

(** ** Sweeps that deliver everything *)

Section DeliveryFacts.

Lemma chunks_within_nonempty {A} (b : nat) :
  ∀ fuel (l : list A), (0 < b)%nat →
    Forall (λ batch, batch ≠ []) (chunks_within fuel b l).
Proof.
  intros fuel. induction fuel as [|fuel IH]; intros l Hb; [constructor|].
  destruct l as [|x l]; [constructor|]. cbn [chunks_within].
  constructor; [|by apply IH].
  destruct b; [lia|done].
Qed.

Lemma accepts_always u batch :
  LogUploader.serverUrl u ≠ "" → accepts u (λ _, IoSuccess) batch = true.
Proof.
  intros Hurl. unfold accepts. rewrite bool_decide_eq_false_2 by done.
  by destruct (bool_decide (length batch = 0%nat)).
Qed.

Lemma posts_nonempty u now batches :
  LogUploader.serverUrl u ≠ "" →
  Forall (λ batch, batch ≠ []) batches →
  concat (posts u now <$> batches)
  = (λ batch, mkRequest (LogUploader.serverUrl u) (LogUploader.wire <$> batch) now)
      <$> batches.
Proof.
  intros Hurl. induction 1 as [|batch batches Hne _ IH]; [done|].
  cbn [fmap list_fmap concat]. unfold posts at 1.
  rewrite bool_decide_eq_false_2 by done.
  rewrite bool_decide_eq_false_2 by (by destruct batch).
  simpl. f_equal. exact IH.
Qed.

(** Once every pending record is marked, none is pending. *)
Lemma unuploaded_after_marking (os os' : ObjectStore) :
  (∀ k, os' !! k =
        if bool_decide (k ∈ id <$> unuploaded os)
        then set_uploaded <$> os !! k else os !! k) →
  unuploaded os' = [].
Proof.
  intros Hos'. apply elem_of_nil_inv. intros log Hlog.
  apply list_elem_of_filter in Hlog as [Hpending Hin].
  apply elem_of_getAll in Hin. rewrite Hos' in Hin.
  destruct (decide (id log ∈ id <$> unuploaded os)) as [Hid|Hid].
  - rewrite bool_decide_eq_true_2 in Hin by done.
    destruct (os !! id log) as [v|]; [|done]. simpl in Hin.
    assert (Hv : set_uploaded v = value_of log) by congruence.
    apply (f_equal s_uploaded) in Hv. simpl in Hv.
    by rewrite <- Hv in Hpending.
  - rewrite bool_decide_eq_false_2 in Hin by done.
    apply Hid. apply list_elem_of_fmap_2.
    apply list_elem_of_filter. split; [done|]. by apply elem_of_getAll.
Qed.

Lemma init_opens (env : Env) lg w :
  Logger.initialized lg = false →
  env (served w) OpOpen = IoSuccess →
  let res := Logger.init env lg w in
  res.1.1 = Resolved () ∧
  Logger.initialized res.1.2 = true ∧
  Logger.config res.1.2 = Logger.config lg ∧
  Logger.uploadManager res.1.2 = Logger.uploadManager lg ∧
  storage res.2 = mkStorage true ∧ now res.2 = now w ∧ network res.2 = network w.
Proof.
  intros Hinit Hopen. unfold Logger.init. rewrite Hinit, Hopen. simpl.
  destruct (0 <? logExpiration (Logger.config lg)); simpl; [|done].
  unfold CleanupManager.performCleanup. simpl.
  by destruct (Storage.cleanupExpiredLogs _ _ _ _ _) as [[] os].
Qed.

End DeliveryFacts.

(** X29.  A logger constructed from any configuration with
    [uploadLogs = false], an endpoint and a positive batch size, and then
    initialized on a platform whose requests all succeed: a [forceUpload]
    with pending records in the store ends, hands the sink every batch of
    the pending records, sets the [uploaded] flag of each pending record
    to [true] and leaves none pending.  The flag [uploadLogs] is not
    consulted. *)
Theorem forceUpload_ignores_uploadLogs :
  ∀ (userConfig : LoggerConfig) (w0 : World),
    uploadLogs (mergeConfig userConfig) = false →
    serverUrl (mergeConfig userConfig) ≠ "" →
    0 < batchSize (mergeConfig userConfig) →
    let env := platform (λ _, IoSuccess) in
    let fresh := Logger.new userConfig w0 in
    let ready := Logger.init env fresh.1 fresh.2 in
    let pending := unuploaded (store ready.2) in
    let batches := chunks (Z.to_nat (batchSize (mergeConfig userConfig))) pending in
    pending ≠ [] →
    ∃ fuel lg' w',
      Logger.forceUpload fuel env ready.1.2 ready.2
      = Some (Resolved (), lg', w') ∧
      batches ≠ [] ∧
      network w'
      = network ready.2
        ++ ((λ batch,
               mkRequest (serverUrl (mergeConfig userConfig))
                 (LogUploader.wire <$> batch) (now ready.2)) <$> batches) ∧
      (∀ log, log ∈ pending →
              store w' !! id log
              = Some (mkStored (level log) (title log) (data log)
                        (timestamp log) (Some true))) ∧
      unuploaded (store w') = [].
Proof.
  intros userConfig w0 Hflag Hurl Hb env fresh ready pending batches Hpending.
  destruct (init_opens env fresh.1 fresh.2 eq_refl eq_refl)
    as (Hres & Hinit & Hcfg & Hmgr & Hstorage & Hnow & Hnet).
  fold ready in Hres, Hinit, Hcfg, Hmgr, Hstorage, Hnow, Hnet.
  set (m := Logger.uploadManager ready.1.2) in *.
  assert (Hm : m = UploadManager.new (LogUploader.mk (serverUrl (mergeConfig userConfig)))
                 (uploadStrategy (mergeConfig userConfig))
                 (batchSize (mergeConfig userConfig)) fresh.2)
    by (subst m; by rewrite Hmgr).
  assert (Hmflag : UploadManager.isUploading m = false)
    by (rewrite Hm; unfold UploadManager.new; by destruct (uploadStrategy _)).
  assert (Hmb : UploadManager.batchSize m = batchSize (mergeConfig userConfig))
    by (rewrite Hm; unfold UploadManager.new; by destruct (uploadStrategy _)).
  assert (Hmu : UploadManager.uploader m
                = LogUploader.mk (serverUrl (mergeConfig userConfig)))
    by (rewrite Hm; unfold UploadManager.new; by destruct (uploadStrategy _)).
  destruct (sweep_runs (λ _, IoSuccess) m ready.2 Hmflag) as
    (fuel & w' & Hrun & Hstore & Hnetw & _ & _).
  { by rewrite Hmb. }
  { by rewrite Hstorage. }
  rewrite Hmb, Hmu in Hstore, Hnetw. fold pending batches in Hstore, Hnetw.
  assert (Hall : Forall (λ batch, accepts (LogUploader.mk (serverUrl (mergeConfig userConfig)))
                             (λ _, IoSuccess) batch = true) batches).
  { apply Forall_forall. intros batch _. by apply accepts_always. }
  destruct (attempted_all _ _ Hall) as [Hatt Hdel].
  rewrite Hdel in Hstore. rewrite Hatt in Hnetw.
  assert (Hcat : concat batches = pending)
    by (apply chunks_concat; lia).
  exists fuel, (Logger.set_uploadManager m ready.1.2), w'.
  split; [|split; [|split; [|split]]].
  - unfold Logger.forceUpload, Logger.ensureInit. rewrite Hinit. cbn [negb].
    fold m. subst env. by rewrite Hrun.
  - intros Hnil. rewrite Hnil in Hcat. by simpl in Hcat.
  - rewrite Hnetw. f_equal. apply posts_nonempty; [done|].
    apply chunks_within_nonempty. lia.
  - intros log Hlog. rewrite Hstore, foldl_marked_lookup, Hcat.
    rewrite bool_decide_eq_true_2 by (by apply list_elem_of_fmap_2).
    apply list_elem_of_filter in Hlog as [_ Hin].
    apply elem_of_getAll in Hin. by rewrite Hin.
  - apply (unuploaded_after_marking (store ready.2)). intros k.
    by rewrite Hstore, foldl_marked_lookup, Hcat.
Qed.

Lemma forceUpload_ignores_uploadLogs_witness :
  let userConfig :=
    mkLoggerConfig (Some "https://a.example/logs") None (Some false) None None
      None in
  let env := platform (λ _, IoSuccess) in
  let fresh := Logger.new userConfig openWorld in
  let ready := Logger.init env fresh.1 fresh.2 in
  ∃ fuel lg' w',
    Logger.forceUpload fuel env ready.1.2 ready.2 = Some (Resolved (), lg', w') ∧
    unuploaded (store w') = [].
Proof.
  intros userConfig env fresh ready.
  destruct (forceUpload_ignores_uploadLogs userConfig openWorld)
    as (fuel & lg' & w' & Hrun & _ & _ & _ & Hnone);
    [done|done|done|by vm_compute|].
  by exists fuel, lg', w'.
Defined.

Section ForceUploadAtZero.
Import UploadManager.

(** C9, the code at the failing input.  A logger constructed with an
    endpoint, [uploadLogs = false] and batch size 0 over a store with two
    pending records, and initialized: [forceUpload] never settles, however
    many requests it is given; and after any number of completed requests
    with any outcomes nothing has been sent and both records are still
    pending. *)
Theorem forceUpload_sends_nothing_with_batch_size_zero :
  let env := platform (λ _, IoSuccess) in
  let fresh :=
    Logger.new (mkLoggerConfig (Some "https://a.example/logs") None
                  (Some false) None None (Some 0)) openWorld in
  let ready := Logger.init env fresh.1 fresh.2 in
  ready.1.1 = Resolved () ∧
  uploadLogs (Logger.getConfig ready.1.2) = false ∧
  unuploaded (store ready.2) = [log1; log2] ∧
  (∀ fuel, Logger.forceUpload fuel env ready.1.2 ready.2 = None) ∧
  ∀ rs : list IoResult,
    let s :=
      steps (ForceUpload :: Completes 0 IoSuccess :: (Completes 0 <$> rs))
        (mkSystem (Logger.uploadManager ready.1.2) ready.2 []) in
    network (world s) = [] ∧
    unuploaded (store (world s)) = [log1; log2].
Proof.
  intros env fresh ready.
  split; [by vm_compute|]. split; [by vm_compute|]. split; [by vm_compute|].
  assert (Hm : Logger.uploadManager ready.1.2 = new serverA Idle 0 fresh.2)
    by (by vm_compute).
  assert (Hi : Logger.initialized ready.1.2 = true) by (by vm_compute).
  assert (Hdb : db (storage ready.2) = true) by (by vm_compute).
  assert (Hne : unuploaded (store ready.2) ≠ []) by (by vm_compute).
  split.
  - intros fuel. unfold Logger.forceUpload, Logger.ensureInit.
    rewrite Hi. cbn [negb].
    assert (Hnone : call fuel env (forceUpload (Logger.uploadManager ready.1.2)
                                     ready.2) = None);
      [|by rewrite Hnone].
    rewrite Hm. destruct fuel as [|fuel]; [done|].
    unfold forceUpload, uploadPendingLogs.
    cbn [call new setupIdleUpload isUploading run].
    cbn [resume awaited]. unfold Storage.getUnuploadedLogs. cbn [tick storage store].
    rewrite Hdb. cbn [negb platform env].
    fold (unuploaded (store ready.2)).
    rewrite bool_decide_eq_false_2
      by (by destruct (unuploaded (store ready.2))).
    unfold forLoop.
    rewrite (proj2 (Z.ltb_lt _ _))
      by (destruct (unuploaded (store ready.2)); [done|simpl; lia]).
    by apply zero_batch_loops.
  - intros rs s.
    assert (Hs : ∃ f, s = mkSystem (set_isUploading true
                                      (Logger.uploadManager ready.1.2))
                            ready.2 [f]).
    { subst s. rewrite Hm.
      change (steps (?e1 :: ?e2 :: ?evs) ?s0)
        with (steps evs (steps [e1; e2] s0)).
      change (mkSystem (new serverA Idle 0 fresh.2) ready.2 [])
        with (start serverA Idle 0 ready.2).
      rewrite zero_batch_enters by done.
      destruct (zero_batch_stuck (set_isUploading true (new serverA Idle 0 ready.2))
                  ready.2 (unuploaded (store ready.2)) eq_refl) with
        (rs := rs) (f := AwaitUploadBatch (unuploaded (store ready.2)) 0)
        as (f' & _ & ->); try done; [by left|].
      by exists f'. }
    destruct Hs as (f & ->). cbn [world]. by vm_compute.
Qed.

End ForceUploadAtZero.

(** ** The logger *)

Section LoggerFacts.

Implicit Types (lg : Logger.t) (w : World) (env : Env).

(** [init] either resolves or rejects and leaves the logger as it was,
    still uninitialized. *)
Lemma ensureInit_cases env lg w :
  let res := Logger.ensureInit env lg w in
  Logger.config res.1.2 = Logger.config lg ∧
  Logger.uploadManager res.1.2 = Logger.uploadManager lg ∧
  match res.1.1 with
  | Resolved _ => True
  | Rejected _ => res.1.2 = lg ∧ Logger.initialized lg = false
  end.
Proof.
  unfold Logger.ensureInit, Logger.init.
  destruct (Logger.initialized lg) eqn:Hinit; simpl; [done|].
  destruct (Storage.init _ _) as [[] st]; simpl; [|done].
  destruct (0 <? logExpiration (Logger.config lg)); simpl; done.
Qed.

Lemma run_returned fuel env (m : UploadManager.t) w :
  UploadManager.run fuel env UploadManager.Returned m w = Some (Resolved (), m, w).
Proof. by destruct fuel. Qed.

Lemma run_thrown fuel env msg (m : UploadManager.t) w :
  UploadManager.run fuel env (UploadManager.Thrown msg) m w
  = Some (Rejected msg, m, w).
Proof. by destruct fuel. Qed.

(** Closes a goal whose call has run to its end. *)
Ltac settled := rewrite ?run_returned, ?run_thrown; by eexists _, _, _.

(** [handleNewLog] settles within three awaited requests, whatever their
    outcomes. *)
Lemma handleNewLog_settles env (log : LogEntry) (m : UploadManager.t) w fuel :
  ∃ r m' w',
    UploadManager.call (3 + fuel) env (UploadManager.handleNewLog log m w)
    = Some (r, m', w').
Proof.
  cbn [UploadManager.call UploadManager.handleNewLog Nat.add UploadManager.run
         UploadManager.resume].
  destruct (Storage.saveLog _ _ _ _) as [[] os]; [|settled].
  destruct (UploadManager.strategy m); [settled|].
  unfold UploadManager.uploadImmediately.
  destruct (UploadManager.isUploading m); [settled|].
  cbn [UploadManager.run UploadManager.resume].
  destruct (LogUploader.uploadLogs _ _ _ _) as [[] w1]; [|settled].
  cbn [UploadManager.run UploadManager.resume].
  destruct (Storage.markAsUploaded _ _ _ _) as [[] os1]; settled.
Qed.

Lemma uploadLogs_console u (batch : list LogEntry) r w line :
  line ∈ console w → line ∈ console (LogUploader.uploadLogs u batch r w).2.
Proof.
  intros Hline. unfold LogUploader.uploadLogs.
  destruct (bool_decide (LogUploader.serverUrl u = "")); simpl;
    [apply elem_of_app; by left|].
  destruct (bool_decide (length batch = 0%nat)); simpl; [done|].
  destruct r; simpl; [done|apply elem_of_app; by left].
Qed.

(** When the [add] succeeds the record is in the store afterwards, marked
    uploaded or not, and the console has only grown. *)
Lemma handleNewLog_persists env (log : LogEntry) (m : UploadManager.t) w fuel :
  db (storage w) = true →
  store w !! id log = None →
  env (served w) (OpAdd log) = IoSuccess →
  ∃ m' w',
    UploadManager.call (3 + fuel) env (UploadManager.handleNewLog log m w)
    = Some (Resolved (), m', w') ∧
    (store w' !! id log = Some (value_of log) ∨
     store w' !! id log = Some (set_uploaded (value_of log))) ∧
    (∀ line, line ∈ console w → line ∈ console w').
Proof.
  intros Hdb Hfresh Hadd.
  cbn [UploadManager.call UploadManager.handleNewLog Nat.add UploadManager.run
         UploadManager.resume UploadManager.awaited].
  rewrite Hadd. unfold Storage.saveLog. cbn [tick storage store].
  rewrite Hdb, Hfresh. cbn [negb].
  set (w0 := set_store (<[id log:=value_of log]> (store w)) (tick w)).
  assert (Hw0 : store w0 !! id log = Some (value_of log))
    by (subst w0; simpl; apply lookup_insert_eq).
  destruct (UploadManager.strategy m).
  { eexists _, _. rewrite ?run_returned. split; [done|]. eauto. }
  unfold UploadManager.uploadImmediately.
  destruct (UploadManager.isUploading m).
  { eexists _, _. rewrite ?run_returned. split; [done|]. eauto. }
  cbn [UploadManager.run UploadManager.resume].
  set (r := env (served w0) _).
  set (u := UploadManager.uploader _).
  pose proof (uploadLogs_world u [log] r (tick w0)) as (_ & Hstore & Hstorage & _).
  pose proof (λ line, uploadLogs_console u [log] r (tick w0) line) as Hconsole.
  destruct (LogUploader.uploadLogs u [log] r (tick w0)) as [[] w1];
    simpl in Hstore, Hstorage, Hconsole.
  2:{ eexists _, _. rewrite ?run_returned. split; [done|].
      rewrite Hstore. eauto. }
  cbn [UploadManager.run UploadManager.resume].
  unfold Storage.markAsUploaded. cbn [tick storage store].
  rewrite Hstorage, Hstore, Hdb. simpl.
  destruct (env (served w1) _); simpl; rewrite run_returned.
  - eexists _, _. split; [done|]. simpl. split; [|by auto].
    unfold Storage.markOne. rewrite lookup_insert_eq, lookup_insert_eq. eauto.
  - eexists _, _. split; [done|]. simpl. rewrite Hstore. split; [eauto|].
    intros line Hline. apply elem_of_app. left. by apply Hconsole.
Qed.

End LoggerFacts.

(** What [log] does guarantee, for every public logging method ([info],
    [warn], [error], [debug] and [trace] are [log] at their level) and
    whatever the outcomes of the requests: on an initialized logger, and
    whenever the initialization that the call itself starts succeeds, the
    call resolves, so no failure of the save, the upload or the mark reaches
    the caller; when that initialization fails the call rejects with the
    error of the initialization, and the logger stays uninitialized, so the
    next call tries again. *)
Lemma logging_resolves_once_store_opens :
  ∀ (fuel : nat) (env : Env) (level : LogLevel) (title : string) (data : Data)
    (newId : string) (lg : Logger.t) (w : World),
    (Logger.initialized lg = true →
     ∃ lg' w',
       Logger.log (3 + fuel) env level title data newId lg w
       = Some (Resolved (), lg', w')) ∧
    (∀ lg1 w1,
       Logger.ensureInit env lg w = (Resolved (), lg1, w1) →
       ∃ lg' w',
         Logger.log (3 + fuel) env level title data newId lg w
         = Some (Resolved (), lg', w')) ∧
    (∀ msg lg1 w1,
       Logger.ensureInit env lg w = (Rejected msg, lg1, w1) →
       Logger.log fuel env level title data newId lg w
       = Some (Rejected msg, lg, w1) ∧
       lg1 = lg ∧ Logger.initialized lg = false).
Proof.
  intros fuel env level title data newId lg w.
  assert (Hok : ∀ lg1 w1,
            Logger.ensureInit env lg w = (Resolved (), lg1, w1) →
            ∃ lg' w',
              Logger.log (3 + fuel) env level title data newId lg w
              = Some (Resolved (), lg', w')).
  { intros lg1 w1 Hinit. unfold Logger.log. rewrite Hinit.
    destruct (negb (debugMode (Logger.config lg1)) && Logger.debugOrTrace level);
      [by eexists _, _|].
    destruct (uploadLogs (Logger.config lg1)).
    - match goal with
      | |- context [UploadManager.call _ _ (UploadManager.handleNewLog ?l ?m ?w0)] =>
          destruct (handleNewLog_settles env l m w0 fuel) as (r & m' & w' & ->)
      end.
      destruct r; by eexists _, _.
    - destruct (Storage.saveLog _ _ _ _) as [[] os]; by eexists _, _. }
  split; [|split; [done|]].
  - intros Hinit. apply (Hok lg w). unfold Logger.ensureInit. by rewrite Hinit.
  - intros msg lg1 w1 Hinit.
    pose proof (ensureInit_cases env lg w) as (_ & _ & Hrej).
    rewrite Hinit in Hrej. simpl in Hrej. destruct Hrej as [-> Hun].
    unfold Logger.log. by rewrite Hinit.
Qed.

Lemma logging_resolves_once_store_opens_witness :
  let env := platform (λ _, IoError) in
  let fresh := Logger.new (serverUrlOnly "https://a.example/logs") openWorld in
  let ready := Logger.init env fresh.1 fresh.2 in
  ∃ lg' w',
    Logger.log (3 + 0) env Info "hello" [] "1000-a" ready.1.2 ready.2
    = Some (Resolved (), lg', w').
Proof.
  intros env fresh ready.
  by apply (logging_resolves_once_store_opens
              0 env Info "hello" [] "1000-a" ready.1.2 ready.2).
Defined.

(** C2, the code at the failing input.  While the database cannot be
    opened, [info] on a fresh logger rejects with the error of the
    initialization, and so does the [error] call that follows; each leaves
    the logger as it was, prints no record and stores none: the only console
    line is the diagnostic of [init].  The claim has both calls resolve and
    work without the store. *)
Theorem logging_rejects_while_store_cannot_open :
  let fresh := Logger.new noConfig closedWorld in
  let failed := say (Diag "Failed to initialize logger") (tick fresh.2) in
  Logger.info 3 noDatabase "hello" [] "1000-a" fresh.1 fresh.2
  = Some (Rejected "Failed to open IndexedDB", fresh.1, failed) ∧
  Logger.error 3 noDatabase "again" [] "1000-b" fresh.1 failed
  = Some (Rejected "Failed to open IndexedDB", fresh.1,
          say (Diag "Failed to initialize logger") (tick failed)).
Proof. by vm_compute. Qed.

(** C10.  With [debugMode = false], a call of [debug] or [trace] does what
    the initialization at its start does and nothing else: on an initialized
    logger it resolves with the logger, the store, the console and the
    network exactly as they were, so no record is created, printed, stored or
    uploaded.  A call of [info], of [warn] or of [error] on an initialized
    logger whose [add] succeeds resolves with the record of that level
    printed and stored. *)
Theorem debug_and_trace_leave_no_record_outside_debugMode :
  ∀ (fuel : nat) (env : Env) (title : string) (data : Data) (newId : string)
    (lg : Logger.t) (w : World),
    debugMode (Logger.config lg) = false →
    Logger.debug fuel env title data newId lg w
    = Some (Logger.ensureInit env lg w) ∧
    Logger.trace fuel env title data newId lg w
    = Some (Logger.ensureInit env lg w) ∧
    (Logger.initialized lg = true →
     Logger.debug fuel env title data newId lg w = Some (Resolved (), lg, w) ∧
     Logger.trace fuel env title data newId lg w = Some (Resolved (), lg, w)) ∧
    (Logger.initialized lg = true →
     db (storage w) = true →
     store w !! newId = None →
     let created level := mkLogEntry newId level title data (now w) (Some false) in
     let persisted level (w' : World) :=
       (∃ flag, store w' !! newId
                = Some (mkStored level title data (now w) (Some flag))) ∧
       Printed (created level) ∈ console w' in
     (env (served w) (OpAdd (created Info)) = IoSuccess →
      ∃ lg' w',
        Logger.info (3 + fuel) env title data newId lg w
        = Some (Resolved (), lg', w') ∧ persisted Info w') ∧
     (env (served w) (OpAdd (created Warn)) = IoSuccess →
      ∃ lg' w',
        Logger.warn (3 + fuel) env title data newId lg w
        = Some (Resolved (), lg', w') ∧ persisted Warn w') ∧
     (env (served w) (OpAdd (created Error)) = IoSuccess →
      ∃ lg' w',
        Logger.error (3 + fuel) env title data newId lg w
        = Some (Resolved (), lg', w') ∧ persisted Error w')).
Proof.
  intros fuel env title data newId lg w Hdebug.
  assert (Hsilent : ∀ level, Logger.debugOrTrace level = true →
            Logger.log fuel env level title data newId lg w
            = Some (Logger.ensureInit env lg w)).
  { intros level Hlevel. unfold Logger.log.
    pose proof (ensureInit_cases env lg w) as (Hcfg & _ & _).
    destruct (Logger.ensureInit env lg w) as [[[[]|msg] lg1] w1]; [|done].
    simpl in Hcfg. by rewrite Hcfg, Hdebug, Hlevel. }
  split; [by apply Hsilent|]. split; [by apply Hsilent|]. split.
  - intros Hinit. unfold Logger.debug, Logger.trace.
    rewrite !Hsilent by done. unfold Logger.ensureInit. by rewrite Hinit.
  - intros Hinit Hdb Hfresh created persisted.
    assert (Hloud : ∀ level,
              Logger.debugOrTrace level = false →
              env (served w) (OpAdd (created level)) = IoSuccess →
              ∃ lg' w',
                Logger.log (3 + fuel) env level title data newId lg w
                = Some (Resolved (), lg', w') ∧ persisted level w').
    { intros level Hlevel Hadd. subst persisted. cbv beta.
      unfold Logger.log, Logger.ensureInit. rewrite Hinit. cbn [negb].
      rewrite Hdebug, Hlevel. cbn [negb andb]. fold (created level).
      unfold Logger.printToConsole.
      destruct (uploadLogs (Logger.config lg)).
      + destruct (handleNewLog_persists env (created level)
                    (Logger.uploadManager lg)
                    (say (Printed (created level)) w) fuel Hdb Hfresh Hadd)
          as (m' & w' & -> & Hstored & Hconsole).
        eexists _, _. split; [done|]. split.
        * destruct Hstored as [Hs|Hs]; [exists false|exists true]; exact Hs.
        * apply Hconsole. simpl. apply elem_of_app. right.
          by apply list_elem_of_singleton.
      + cbn [say served]. rewrite Hadd. unfold Storage.saveLog.
        cbn [say tick storage store]. change (id (created level)) with newId.
        rewrite Hdb, Hfresh. cbn [negb].
        eexists _, _. split; [done|]. simpl. rewrite lookup_insert_eq.
        split; [by exists false|]. apply elem_of_app. right.
        by apply list_elem_of_singleton. }
    split; [|split]; intros Hadd; by apply Hloud.
Qed.

Lemma debug_and_trace_leave_no_record_outside_debugMode_witness :
  let env := platform (λ _, IoSuccess) in
  let quiet :=
    Logger.new (mkLoggerConfig None (Some false) None None None None)
      openWorld in
  let ready := Logger.init env quiet.1 quiet.2 in
  Logger.debug 0 env "probe" [] "1000-d" ready.1.2 ready.2
  = Some (Resolved (), ready.1.2, ready.2) ∧
  ∃ lg' w',
    Logger.warn (3 + 0) env "probe" [] "1000-d" ready.1.2 ready.2
    = Some (Resolved (), lg', w') ∧
    Printed (mkLogEntry "1000-d" Warn "probe" [] 1000 (Some false))
    ∈ console w'.
Proof.
  intros env quiet ready.
  destruct (debug_and_trace_leave_no_record_outside_debugMode
              0 env "probe" [] "1000-d" ready.1.2 ready.2)
    as (_ & _ & Hquiet & Hloud); [by vm_compute|].
  split; [apply Hquiet; by vm_compute|].
  destruct Hloud as (_ & Hwarn & _); [by vm_compute..|].
  destruct Hwarn as (lg' & w' & Hrun & _ & Hprinted); [by vm_compute|].
  exists lg', w'. split; [exact Hrun|]. revert Hprinted. by vm_compute.
Defined.

(** C3, the code at the failing input.  A reconfiguration that names only
    [serverUrl] stores the new endpoint in the configuration and leaves the
    upload manager as it was, with the uploader it was constructed with.  On
    a logger constructed for endpoint A, initialized, and reconfigured to
    endpoint B, the next forced upload resolves, the configuration and the
    logger's own uploader name B, and the one request on the network went
    to A. *)
Theorem updateConfig_serverUrl_misses_the_manager :
  (∀ (env : Env) (url : string) (lg : Logger.t) (w : World),
     let lg' := (Logger.updateConfig env (serverUrlOnly url) lg w).1 in
     serverUrl (Logger.config lg') = url ∧
     Logger.uploadManager lg' = Logger.uploadManager lg) ∧
  let env := platform (λ _, IoSuccess) in
  let fresh := Logger.new (serverUrlOnly "https://a.example/logs") openWorld in
  let ready := Logger.init env fresh.1 fresh.2 in
  let moved :=
    Logger.updateConfig env (serverUrlOnly "https://b.example/logs")
      ready.1.2 ready.2 in
  (λ r, (r.1.1, serverUrl (Logger.config r.1.2), Logger.uploader r.1.2,
         req_url <$> network r.2, unuploaded (store r.2)))
    <$> Logger.forceUpload 3 env moved.1 moved.2
  = Some (Resolved (), "https://b.example/logs",
          LogUploader.mk "https://b.example/logs",
          ["https://a.example/logs"], []).
Proof.
  split; [|by vm_compute].
  intros env url lg w. unfold Logger.updateConfig. simpl.
  rewrite (bool_decide_eq_false_2 (logExpiration _ ≠ logExpiration _))
    by (intros H; by apply H).
  rewrite (bool_decide_eq_false_2 (_ ∨ _)) by (intros [H|H]; by apply H).
  done.
Qed.

(** * Further properties of the code *)

Section StorageMore.

Implicit Types (os : ObjectStore) (log : LogEntry) (k : string) (v : Stored).

Lemma NoDup_ids_unuploaded os : NoDup (id <$> unuploaded os).
Proof.
  unfold unuploaded.
  pose proof (NoDup_ids_getAll os) as Hnd.
  induction (getAll os) as [|x l IH]; [constructor|].
  rewrite fmap_cons in Hnd. apply NoDup_cons in Hnd as [Hx Hl].
  rewrite filter_cons. destruct (decide (truthy (uploaded x) = false)); [|by apply IH].
  rewrite fmap_cons. apply NoDup_cons. split; [|by apply IH].
  intros Hin. apply Hx. apply list_elem_of_fmap in Hin as (y & -> & Hy).
  apply list_elem_of_fmap_2. by apply list_elem_of_filter in Hy as [_ ?].
Qed.

Lemma elem_of_unuploaded os log :
  log ∈ unuploaded os ↔
  os !! id log = Some (value_of log) ∧ truthy (uploaded log) = false.
Proof.
  unfold unuploaded. rewrite list_elem_of_filter, elem_of_getAll. tauto.
Qed.

Lemma kept_refl os : kept os os.
Proof. intros k v Hk. by left. Qed.

Lemma kept_trans os1 os2 os3 : kept os1 os2 → kept os2 os3 → kept os1 os3.
Proof.
  intros H12 H23 k v Hk.
  destruct (H12 k v Hk) as [H2|H2]; destruct (H23 _ _ H2) as [H3|H3]; auto.
Qed.

Lemma kept_markAsUploaded logIds r st os :
  kept os (Storage.markAsUploaded logIds r st os).2.
Proof.
  destruct r.
  - intros k v Hk. rewrite markAsUploaded_lookup, Hk.
    destruct (db st && bool_decide (k ∈ logIds)); simpl; auto.
  - unfold Storage.markAsUploaded.
    destruct (negb (db st) || bool_decide (length logIds = 0%nat));
      apply kept_refl.
Qed.

Lemma kept_saveLog log r st os : kept os (Storage.saveLog log r st os).2.
Proof.
  unfold Storage.saveLog. destruct (negb (db st)); [apply kept_refl|].
  destruct r; [|apply kept_refl].
  destruct (os !! id log) eqn:Hid; [apply kept_refl|]. simpl.
  intros k v Hk. left. rewrite lookup_insert_ne; [done|]. by intros <-; simplify_eq.
Qed.

Lemma saveLog_rejected log r st (os : ObjectStore) msg os' :
  Storage.saveLog log r st os = (Rejected msg, os') → os' = os.
Proof.
  unfold Storage.saveLog. destruct (negb (db st)); [congruence|].
  destruct r; [|congruence]. destruct (os !! id log); congruence.
Qed.

End StorageMore.

(** X1.  [saveLog] resolves exactly when the database is open, the [add]
    request succeeds and no record has the id of the new one; when it
    rejects the store is left as it was; when it resolves the store reads
    back the old records and the new one, unchanged, and nothing else. *)
Theorem saveLog_adds_exactly_a_fresh_record :
  ∀ (log : LogEntry) (r : IoResult) (st : IndexedDBStorage) (os : ObjectStore),
    let res := Storage.saveLog log r st os in
    (res.1 = Resolved () ↔ db st = true ∧ r = IoSuccess ∧ os !! id log = None) ∧
    (res.1 ≠ Resolved () → res.2 = os) ∧
    (res.1 = Resolved () →
     ∀ log', log' ∈ getAll res.2 ↔ log' = log ∨ log' ∈ getAll os).
Proof.
  intros log r st os res. subst res. unfold Storage.saveLog.
  destruct (db st); simpl; [|by intuition].
  destruct r; [|by intuition].
  destruct (os !! id log) as [v|] eqn:Hid; [by intuition|]. simpl.
  split; [by intuition|]. split; [done|]. intros _ log'.
  rewrite !elem_of_getAll.
  destruct (decide (id log = id log')) as [Heq|Hne].
  - rewrite <- Heq, lookup_insert_eq, Hid. split.
    + intros Hsome. left.
      assert (Hv : value_of log = value_of log') by congruence.
      by rewrite <- (entry_value log'), <- Hv, <- Heq, entry_value.
    + intros [->|Hold]; [done|congruence].
  - rewrite lookup_insert_ne by done. split; [by right|].
    intros [->|?]; done.
Qed.

(** X2.  On an open database [getUnuploadedLogs] resolves with a list
    that names no id twice and holds exactly the stored records whose
    [uploaded] flag is not set. *)
Theorem getUnuploadedLogs_is_a_consistent_snapshot :
  ∀ (os : ObjectStore),
    ∃ pending,
      Storage.getUnuploadedLogs IoSuccess (mkStorage true) os = Resolved pending ∧
      NoDup (id <$> pending) ∧
      ∀ log, log ∈ pending ↔
             os !! id log = Some (value_of log) ∧ truthy (uploaded log) = false.
Proof.
  intros os. exists (unuploaded os). split; [done|].
  split; [apply NoDup_ids_unuploaded|]. intros log. apply elem_of_unuploaded.
Qed.

(** X3.  A successful [markAsUploaded] deletes and adds no record and
    changes nothing but [uploaded] flags; afterwards the unuploaded records
    are those that were unuploaded before and are not named by [logIds]. *)
Theorem markAsUploaded_takes_ids_out_of_pending :
  ∀ (logIds : list string) (os : ObjectStore),
    let os' := (Storage.markAsUploaded logIds IoSuccess (mkStorage true) os).2 in
    dom os' = dom os ∧
    kept os os' ∧
    (∀ log, log ∈ unuploaded os' ↔ log ∈ unuploaded os ∧ id log ∉ logIds).
Proof.
  intros logIds os os'.
  assert (Hlookup : ∀ k, os' !! k =
            if bool_decide (k ∈ logIds) then set_uploaded <$> os !! k
            else os !! k)
    by (intros k; subst os'; by rewrite markAsUploaded_lookup).
  split; [|split].
  - apply set_eq. intros k. rewrite !elem_of_dom, Hlookup.
    destruct (bool_decide (k ∈ logIds)); [|done].
    by rewrite fmap_is_Some.
  - apply kept_markAsUploaded.
  - intros log. rewrite !elem_of_unuploaded, Hlookup.
    destruct (decide (id log ∈ logIds)) as [Hin|Hin].
    + rewrite bool_decide_eq_true_2 by done. split; [|tauto].
      intros [Hv Hup]. exfalso.
      destruct (os !! id log) as [v|]; [|done]. simpl in Hv.
      assert (Heq : set_uploaded v = value_of log) by congruence.
      apply (f_equal s_uploaded) in Heq. simpl in Heq.
      by rewrite <- Heq in Hup.
    + rewrite bool_decide_eq_false_2 by done. tauto.
Qed.



Section IdleMore.

Context {C : Type}.
Implicit Types (d : IdleDetector.t C) (evs : list (@IdleDetector.Event C)).

Lemma run_app evs1 evs2 now d :
  IdleDetector.run (evs1 ++ evs2) now d
  = let '(now1, d1, cs1) := IdleDetector.run evs1 now d in
    let '(now2, d2, cs2) := IdleDetector.run evs2 now1 d1 in
    (now2, d2, cs1 ++ cs2).
Proof.
  revert now d. induction evs1 as [|ev evs1 IH]; intros now d.
  - simpl. by destruct (IdleDetector.run evs2 now d) as [[? ?] ?].
  - cbn [app IdleDetector.run].
    destruct (IdleDetector.step ev now d) as [[now' d'] c].
    rewrite IH.
    destruct (IdleDetector.run evs1 now' d') as [[now1 d1] cs1].
    destruct (IdleDetector.run evs2 now1 d1) as [[now2 d2] cs2].
    by rewrite app_assoc.
Qed.

(** Clock advances that do not reach a pending timeout, or that find none
    pending, change nothing but the clock. *)
Lemma elapses_quiet dts :
  ∀ now d,
    (∀ tm, IdleDetector.idleTimer d = Some tm →
           IdleDetector.pending tm = true →
           now + IdleDetector.elapsed dts < IdleDetector.due tm) →
    IdleDetector.run (IdleDetector.Elapse <$> dts) now d
    = (now + IdleDetector.elapsed dts, d, []).
Proof.
  induction dts as [|dt dts IH]; intros now d Hshort.
  - simpl. by rewrite Z.add_0_r.
  - cbn [fmap list_fmap IdleDetector.run IdleDetector.step].
    assert (Hexp : IdleDetector.expire (now + Z.max dt 0) d = (d, None)).
    { unfold IdleDetector.expire.
      destruct (IdleDetector.idleTimer d) as [tm|] eqn:Htm; [|done].
      destruct (IdleDetector.pending tm) eqn:Hp; [|done].
      specialize (Hshort tm eq_refl Hp). simpl in Hshort.
      assert (0 ≤ IdleDetector.elapsed dts)
        by (clear; induction dts; simpl; lia).
      rewrite (proj2 (Z.leb_gt _ _)); [done|lia]. }
    rewrite Hexp, IH.
    + simpl. f_equal. f_equal. lia.
    + intros tm Htm Hp. specialize (Hshort tm Htm Hp). simpl in Hshort. lia.
Qed.

(** Clock advances that reach a pending timeout invoke the callback once
    and leave the timeout spent. *)
Lemma elapses_fire (callback : option C) (due : Z) dts :
  ∀ now d,
    IdleDetector.idleTimer d = Some (IdleDetector.mkTimer due true) →
    IdleDetector.isIdle d = false →
    IdleDetector.onIdleCallback d = callback →
    now < due → due ≤ now + IdleDetector.elapsed dts →
    IdleDetector.run (IdleDetector.Elapse <$> dts) now d
    = (now + IdleDetector.elapsed dts,
       IdleDetector.mk (IdleDetector.idleTimeout d)
         (Some (IdleDetector.mkTimer due false)) callback
         (IdleDetector.lastActivity d) true (IdleDetector.listening d),
       option_list callback).
Proof.
  induction dts as [|dt dts IH]; intros now d Htimer Hidle Hcb Hnow Hdue.
  - simpl in Hdue. lia.
  - cbn [fmap list_fmap IdleDetector.run IdleDetector.step].
    unfold IdleDetector.expire. rewrite Htimer.
    cbn [IdleDetector.pending IdleDetector.due andb].
    destruct (due <=? now + Z.max dt 0) eqn:Hfire.
    + unfold IdleDetector.timeout. cbn [IdleDetector.isIdle]. rewrite Hidle.
      cbn [IdleDetector.onIdleCallback IdleDetector.idleTimeout
             IdleDetector.lastActivity IdleDetector.listening].
      rewrite Hcb, elapses_quiet by (by intros tm [= <-] [=]).
      simpl. rewrite app_nil_r. f_equal. f_equal. lia.
    + apply Z.leb_gt in Hfire.
      rewrite (IH (now + Z.max dt 0) d Htimer Hidle Hcb Hfire)
        by (simpl in Hdue; lia).
      simpl. f_equal. f_equal. lia.
Qed.

End IdleMore.

(** X4.  In a browser, with a positive timeout: over [n] rounds of one
    input event followed by clock advances that add up to the timeout or
    more, the callback is invoked exactly [n] times, once per round. *)
Theorem idle_callback_once_per_quiet_period_after_activity :
  ∀ (C : Type) (callback : C) (idleTimeoutMs now : Z) (dts : list Z) (n : nat),
    0 < idleTimeoutMs →
    idleTimeoutMs ≤ IdleDetector.elapsed dts →
    (IdleDetector.run
       (concat (replicate n
                  (IdleDetector.Activity :: (IdleDetector.Elapse <$> dts))))
       now
       (IdleDetector.onIdle callback (IdleDetector.new idleTimeoutMs now true))).2
    = replicate n callback.
Proof.
  intros C callback T now dts n HT Hdts.
  assert (Hround : ∀ now d,
            IdleDetector.listening d = true →
            IdleDetector.onIdleCallback d = Some callback →
            IdleDetector.idleTimeout d = T →
            ∃ d',
              IdleDetector.run
                (IdleDetector.Activity :: (IdleDetector.Elapse <$> dts)) now d
              = (now + IdleDetector.elapsed dts, d', [callback]) ∧
              IdleDetector.listening d' = true ∧
              IdleDetector.onIdleCallback d' = Some callback ∧
              IdleDetector.idleTimeout d' = T).
  { intros now0 d Hl Hcb HTd.
    cbn [IdleDetector.run IdleDetector.step]. rewrite Hl.
    rewrite (elapses_fire (Some callback) (now0 + T) dts now0
               (IdleDetector.resetIdleTimer now0 d));
      [|by simpl; rewrite HTd|done|done|lia|lia].
    eexists. split; [done|]. simpl. by rewrite HTd. }
  generalize (IdleDetector.onIdle callback (IdleDetector.new T now true))
    (eq_refl : IdleDetector.listening
                 (IdleDetector.onIdle callback (IdleDetector.new T now true)) = true)
    (eq_refl : IdleDetector.onIdleCallback
                 (IdleDetector.onIdle callback (IdleDetector.new T now true))
               = Some callback)
    (eq_refl : IdleDetector.idleTimeout
                 (IdleDetector.onIdle callback (IdleDetector.new T now true)) = T).
  revert now. induction n as [|n IH]; intros now d Hl Hcb HTd; [done|].
  cbn [replicate concat]. rewrite run_app.
  destruct (Hround now d Hl Hcb HTd) as (d' & -> & Hl' & Hcb' & HTd').
  specialize (IH (now + IdleDetector.elapsed dts) d' Hl' Hcb' HTd').
  destruct (IdleDetector.run _ (now + IdleDetector.elapsed dts) d')
    as [[? ?] cs].
  simpl in *. by rewrite IH.
Qed.

Lemma idle_callback_once_per_quiet_period_after_activity_witness :
  (IdleDetector.run
     (concat (replicate 3
                (IdleDetector.Activity
                 :: (IdleDetector.Elapse <$> [2000; 3000]))))
     0 (IdleDetector.onIdle () (IdleDetector.new 5000 0 true))).2
  = replicate 3 ().
Proof.
  apply (idle_callback_once_per_quiet_period_after_activity
           unit () 5000 0 [2000; 3000] 3); by vm_compute.
Defined.

(** X5.  In a browser, an input event that arrives before the timeout
    has passed postpones the callback: if less than the timeout passes
    before it and less than the timeout after it, the callback is not
    invoked, however long the two spans are together. *)
Theorem activity_postpones_the_idle_callback :
  ∀ (C : Type) (callback : C) (idleTimeoutMs now : Z) (before after : list Z),
    IdleDetector.elapsed before < idleTimeoutMs →
    IdleDetector.elapsed after < idleTimeoutMs →
    (IdleDetector.run
       (IdleDetector.OnIdle callback
        :: (IdleDetector.Elapse <$> before)
           ++ IdleDetector.Activity :: (IdleDetector.Elapse <$> after))
       now (IdleDetector.new idleTimeoutMs now true)).2
    = [].
Proof.
  intros C callback T now before after Hbefore Hafter.
  cbn [IdleDetector.run IdleDetector.step]. rewrite run_app.
  rewrite elapses_quiet by (intros tm [= <-] _; simpl; lia).
  cbn [IdleDetector.run IdleDetector.step IdleDetector.onIdle
         IdleDetector.new IdleDetector.startIdleTimer IdleDetector.resetTimer
         IdleDetector.listening].
  rewrite elapses_quiet by (intros tm [= <-] _; simpl; lia).
  done.
Qed.

Lemma activity_postpones_the_idle_callback_witness :
  (IdleDetector.run
     [IdleDetector.OnIdle (); IdleDetector.Elapse 4000; IdleDetector.Activity;
      IdleDetector.Elapse 4000] 0 (IdleDetector.new 5000 0 true)).2
  = [].
Proof.
  apply (activity_postpones_the_idle_callback unit () 5000 0 [4000] [4000]);
    by vm_compute.
Defined.

(** X6.  After [destroy] a detector invokes no callback, whatever
    happens to it next: clock advances, input events, or a callback
    registered anew. *)
Theorem destroyed_detector_is_silent :
  ∀ (C : Type) (d : IdleDetector.t C) (now : Z)
    (evs : list (@IdleDetector.Event C)),
    (IdleDetector.run (IdleDetector.Destroy :: evs) now d).2 = [].
Proof.
  intros C d now evs. cbn [IdleDetector.run IdleDetector.step].
  pose proof (run_spent evs now (IdleDetector.destroy d) eq_refl eq_refl) as Hnil.
  destruct (IdleDetector.run evs now (IdleDetector.destroy d)) as [[? ?] cs].
  simpl in *. by subst cs.
Qed.

(** X7.  [onIdle] keeps one callback: of two registered in a row only
    the second is invoked when the timeout passes; and a callback
    registered after the timeout has already passed is not invoked for that
    period, nor by any later clock advance without an input event. *)
Theorem onIdle_replaces_the_callback :
  ∀ (C : Type) (first second : C) (idleTimeoutMs now : Z) (hasWindow : bool)
    (dts : list Z),
    0 < idleTimeoutMs →
    idleTimeoutMs ≤ IdleDetector.elapsed dts →
    (IdleDetector.run
       (IdleDetector.OnIdle first :: IdleDetector.OnIdle second
        :: (IdleDetector.Elapse <$> dts))
       now (IdleDetector.new idleTimeoutMs now hasWindow)).2
    = [second] ∧
    (IdleDetector.run
       ((IdleDetector.Elapse <$> dts)
        ++ IdleDetector.OnIdle first :: (IdleDetector.Elapse <$> dts))
       now (IdleDetector.new idleTimeoutMs now hasWindow)).2
    = [].
Proof.
  intros C c1 c2 T now hasWindow dts HT Hdts. split.
  - cbn [IdleDetector.run IdleDetector.step].
    by rewrite (elapses_fire (Some c2) (now + T) dts now) by (done || lia).
  - rewrite run_app.
    rewrite (elapses_fire None (now + T) dts now) by (done || lia).
    cbn [IdleDetector.run IdleDetector.step].
    by rewrite elapses_quiet by (by intros tm [= <-] [=]).
Qed.

Lemma onIdle_replaces_the_callback_witness :
  (IdleDetector.run
     [IdleDetector.OnIdle true; IdleDetector.OnIdle false;
      IdleDetector.Elapse 5000]
     0 (IdleDetector.new 5000 0 false)).2
  = [false].
Proof.
  refine (proj1 (onIdle_replaces_the_callback bool true false 5000 0 false
                   [5000] _ _)); by vm_compute.
Defined.


Lemma cleanup_lookup (days now : Z) (os : ObjectStore) k :
  (Storage.cleanupExpiredLogs days now IoSuccess (mkStorage true) os).2 !! k
  = match os !! k with
    | Some v => if bool_decide (now - days * 86400000 < s_timestamp v)
                then Some v else None
    | None => None
    end.
Proof.
  simpl. destruct (os !! k) as [v|] eqn:Hk.
  - destruct (decide (now - days * 86400000 < s_timestamp v)) as [Hlt|Hge].
    + rewrite bool_decide_eq_true_2 by done.
      apply map_lookup_filter_Some. split; [done|]. simpl. lia.
    + rewrite bool_decide_eq_false_2 by done.
      apply map_lookup_filter_None. right. intros v' Hv'. simpl.
      assert (v' = v) as -> by congruence. lia.
  - apply map_lookup_filter_None. by left.
Qed.

(** X8.  Successful cleanups at one clock reading compose: a cleanup
    repeated changes nothing more; a shorter retention after a longer one,
    or a longer after a shorter, leaves what the shorter alone leaves; and
    what a shorter retention keeps, a longer one keeps too, all of it from
    the store as it was. *)
Theorem cleanupExpiredLogs_composes :
  ∀ (shorter longer now : Z) (os : ObjectStore),
    shorter ≤ longer →
    let sweep days os :=
      (Storage.cleanupExpiredLogs days now IoSuccess (mkStorage true) os).2 in
    sweep shorter (sweep shorter os) = sweep shorter os ∧
    sweep shorter (sweep longer os) = sweep shorter os ∧
    sweep longer (sweep shorter os) = sweep shorter os ∧
    sweep shorter os ⊆ sweep longer os ∧
    sweep longer os ⊆ os.
Proof.
  intros shorter longer now os Hle sweep. subst sweep. cbv beta.
  split; [|split; [|split; [|split]]].
  - apply map_eq. intros k. rewrite !cleanup_lookup.
    destruct (os !! k) as [v|]; [|done].
    destruct (bool_decide (now - shorter * 86400000 < s_timestamp v)) eqn:Hb;
      [by rewrite Hb|done].
  - apply map_eq. intros k. rewrite !cleanup_lookup.
    destruct (os !! k) as [v|]; [|done].
    destruct (decide (now - shorter * 86400000 < s_timestamp v)) as [Hs|Hs].
    + rewrite (bool_decide_eq_true_2 (now - longer * 86400000 < _)) by lia.
      done.
    + rewrite (bool_decide_eq_false_2 (now - shorter * 86400000 < _)) by done.
      by destruct (bool_decide (now - longer * 86400000 < s_timestamp v));
        [rewrite bool_decide_eq_false_2|].
  - apply map_eq. intros k. rewrite !cleanup_lookup.
    destruct (os !! k) as [v|]; [|done].
    destruct (decide (now - shorter * 86400000 < s_timestamp v)) as [Hs|Hs].
    + rewrite (bool_decide_eq_true_2 (now - shorter * 86400000 < _)) by done.
      by rewrite bool_decide_eq_true_2 by lia.
    + by rewrite (bool_decide_eq_false_2 (now - shorter * 86400000 < _)) by done.
  - apply map_subseteq_spec. intros k v. rewrite !cleanup_lookup.
    destruct (os !! k) as [v0|]; [|done].
    destruct (decide (now - shorter * 86400000 < s_timestamp v0)) as [Hs|Hs].
    + rewrite bool_decide_eq_true_2 by done.
      by rewrite bool_decide_eq_true_2 by lia.
    + by rewrite bool_decide_eq_false_2 by done.
  - apply map_subseteq_spec. intros k v. rewrite cleanup_lookup.
    destruct (os !! k) as [v0|]; [|done].
    by destruct (bool_decide _).
Qed.

Lemma cleanupExpiredLogs_composes_witness :
  (Storage.cleanupExpiredLogs 1 300000000 IoSuccess (mkStorage true)
     (Storage.cleanupExpiredLogs 3 300000000 IoSuccess (mkStorage true)
        pendingStore).2).2
  = (Storage.cleanupExpiredLogs 1 300000000 IoSuccess (mkStorage true)
       pendingStore).2.
Proof.
  refine (proj1 (proj2 (cleanupExpiredLogs_composes 1 3 300000000 pendingStore _))).
  by vm_compute.
Defined.

(** X9.  [uploadLogs] returns [true] exactly when a server URL is
    configured and the batch is empty or the [fetch] succeeded; it makes one
    request, carrying the batch in order without the [uploaded] property,
    exactly when a URL is configured and the batch is not empty, and none
    otherwise; it never touches the store. *)
Theorem uploadLogs_outcome :
  ∀ (u : LogUploader.t) (batch : list LogEntry) (r : IoResult) (w : World),
    let res := LogUploader.uploadLogs u batch r w in
    (res.1 = true ↔
     LogUploader.serverUrl u ≠ "" ∧ (batch = [] ∨ r = IoSuccess)) ∧
    network res.2
    = network w
      ++ (if bool_decide (LogUploader.serverUrl u ≠ "" ∧ batch ≠ [])
          then [mkRequest (LogUploader.serverUrl u) (LogUploader.wire <$> batch)
                  (now w)]
          else []) ∧
    id <$> (LogUploader.wire <$> batch) = id <$> batch ∧
    Forall (λ sent, uploaded sent = None) (LogUploader.wire <$> batch) ∧
    store res.2 = store w ∧ storage res.2 = storage w.
Proof.
  intros u batch r w res. subst res. unfold LogUploader.uploadLogs.
  split; [|split; [|split; [|split]]].
  - destruct (decide (LogUploader.serverUrl u = "")) as [Hurl|Hurl].
    { rewrite bool_decide_eq_true_2 by done. simpl. by intuition. }
    rewrite bool_decide_eq_false_2 by done.
    destruct batch as [|log batch]; simpl; [by intuition|].
    destruct r; simpl; by intuition.
  - destruct (decide (LogUploader.serverUrl u = "")) as [Hurl|Hurl].
    { rewrite bool_decide_eq_true_2 by done.
      rewrite bool_decide_eq_false_2 by (by intros [? _]).
      simpl. by rewrite app_nil_r. }
    rewrite bool_decide_eq_false_2 by done.
    destruct batch as [|log batch]; simpl.
    { rewrite bool_decide_eq_false_2 by (by intros [_ ?]). by rewrite app_nil_r. }
    rewrite bool_decide_eq_true_2 by done. by destruct r.
  - rewrite <- list_fmap_compose. by apply list_fmap_ext.
  - apply Forall_fmap, Forall_true. done.
  - destruct (bool_decide _); [done|]. destruct (bool_decide _); [done|].
    by destruct r.
Qed.




Section ManagerMore.

Import UploadManager.

(** A resumed call touches the store only through [saveLog] and
    [markAsUploaded], and never the storage object. *)
Lemma resume_kept f r m w :
  kept (store w) (store (resume f r m w).2) ∧
  storage (resume f r m w).2 = storage w.
Proof.
  destruct f as [log|logs|logs| |ul i|ul i]; cbn [resume].
  - pose proof (kept_saveLog log r (storage w) (store w)) as Hk.
    destruct (Storage.saveLog log r (storage w) (store w)) as [[] os];
      [|split; [apply kept_refl|done]].
    destruct (strategy m); [done|].
    unfold uploadImmediately. by destruct (isUploading m).
  - pose proof (uploadLogs_world (uploader m) logs r w) as (_ & Hs & Hg & _).
    destruct (LogUploader.uploadLogs (uploader m) logs r w) as [[] w1];
      simpl in *; rewrite Hs, Hg; split; (apply kept_refl || done).
  - pose proof (kept_markAsUploaded (id <$> logs) r (storage w) (store w)) as Hk.
    destruct (Storage.markAsUploaded _ r (storage w) (store w)) as [[] os];
      [done|split; [apply kept_refl|done]].
  - destruct (Storage.getUnuploadedLogs r (storage w) (store w)) as [ul|];
      [|split; [apply kept_refl|done]].
    destruct (bool_decide _); [split; [apply kept_refl|done]|].
    unfold forLoop. destruct (0 <? _); split; (apply kept_refl || done).
  - pose proof (uploadLogs_world (uploader m) (batchAt m ul i) r w)
      as (_ & Hs & Hg & _).
    destruct (LogUploader.uploadLogs (uploader m) (batchAt m ul i) r w)
      as [[] w1]; simpl in *; rewrite Hs, Hg; split; (apply kept_refl || done).
  - pose proof (kept_markAsUploaded (id <$> batchAt m ul i) r (storage w)
                  (store w)) as Hk.
    destruct (Storage.markAsUploaded _ r (storage w) (store w)) as [[] os];
      [|split; [apply kept_refl|done]].
    unfold forLoop. by destruct (_ <? _).
Qed.

Lemma step_kept ev s :
  kept (store (world s)) (store (world (step ev s))) ∧
  storage (world (step ev s)) = storage (world s).
Proof.
  destruct ev as [log| | |n r|]; simpl.
  - split; [apply kept_refl|done].
  - destruct (IdleDetector.onIdleCallback _) as [[]|];
      [|split; [apply kept_refl|done]].
    unfold uploadPendingLogs.
    destruct (isUploading (manager s)); split; (apply kept_refl || done).
  - unfold forceUpload, uploadPendingLogs.
    destruct (isUploading (manager s)); split; (apply kept_refl || done).
  - destruct (tasks s !! n) as [f|]; [|split; [apply kept_refl|done]].
    pose proof (resume_kept f r (manager s) (world s)) as Hk.
    by destruct (resume f r (manager s) (world s)) as [[[] ?] ?].
  - split; [apply kept_refl|done].
Qed.

(** X10.  Whatever calls are made on a manager and however their requests
    complete and interleave, every record that was in the store is still
    there with the same content, its [uploaded] flag at most set; and the
    storage object is never closed or replaced. *)
Theorem manager_never_loses_or_rewrites_a_record :
  ∀ (evs : list Event) (s : System),
    kept (store (world s)) (store (world (steps evs s))) ∧
    storage (world (steps evs s)) = storage (world s).
Proof.
  intros evs. induction evs as [|ev evs IH]; intros s.
  - split; [apply kept_refl|done].
  - simpl. destruct (IH (step ev s)) as [Hk Hg].
    destruct (step_kept ev s) as [Hk1 Hg1].
    split; [by eapply kept_trans|congruence].
Qed.

(** X11.  [handleNewLog] under the idle strategy, or under any strategy
    while an upload is in flight: the call settles after the one [add]
    request with the outcome of [saveLog], stores what [saveLog] stores,
    makes no request to the server and writes nothing to the console; the
    manager is left as it was. *)
Theorem handleNewLog_saves_without_sending :
  ∀ (fuel : nat) (env : Env) (log : LogEntry) (m : t) (w : World),
    strategy m = Idle ∨ isUploading m = true →
    let saved :=
      Storage.saveLog log (env (served w) (OpAdd log)) (storage w) (store w) in
    ∃ w',
      call (1 + fuel) env (handleNewLog log m w) = Some (saved.1, m, w') ∧
      store w' = saved.2 ∧
      network w' = network w ∧
      console w' = console w.
Proof.
  intros fuel env log m w Hwhy saved. subst saved.
  cbn [call handleNewLog Nat.add run resume awaited tick storage store].
  destruct (Storage.saveLog _ _ _ _) as [[[]|msg] os] eqn:Hsave; simpl.
  - destruct (strategy m) eqn:Hs.
    + rewrite run_returned. (eexists; split; [reflexivity|by repeat split]).
    + destruct Hwhy as [|Hflag]; [done|].
      unfold uploadImmediately. rewrite Hflag, run_returned. (eexists; split; [reflexivity|by repeat split]).
  - apply saveLog_rejected in Hsave as ->. rewrite run_thrown.
    eexists; split; [reflexivity|by repeat split].
Qed.

Lemma handleNewLog_saves_without_sending_witness :
  ∃ w',
    call (1 + 0) (platform (λ _, IoSuccess))
      (handleNewLog boundaryLog (new serverA Idle 50 openWorld) openWorld)
    = Some (Resolved (), new serverA Idle 50 openWorld, w') ∧
    network w' = [].
Proof.
  destruct (handleNewLog_saves_without_sending 0 (platform (λ _, IoSuccess))
              boundaryLog (new serverA Idle 50 openWorld) openWorld)
    as (w' & Hrun & _ & Hnet & _); [by left|].
  by exists w'.
Defined.



(** An attempt never rejects: when it settles it resolves, with the guard
    cleared. *)
Lemma run_attempt_resolves env fuel :
  ∀ f m w r m' w',
    attempt f = true →
    run fuel env (Suspended f) m w = Some (r, m', w') →
    r = Resolved () ∧ isUploading m' = false.
Proof.
  induction fuel as [|fuel IH]; intros f m w r m' w' Hf Hrun; [done|].
  cbn [run] in Hrun.
  pose proof (resume_attempt f (env (served w) (awaited m f)) m (tick w) Hf)
    as Hres.
  destruct (resume f (env (served w) (awaited m f)) m (tick w))
    as [[[f'| |msg] m1] w1]; [| |done].
  - destruct Hres as (-> & Hf' & _). by eapply IH.
  - rewrite run_returned in Hrun. by simplify_eq.
Qed.

(** X13.  A sweep with no upload in flight that finds the database not
    opened, fails to read the unuploaded records, or finds none, resolves
    after that one request without contacting the server and without
    changing the store; the guard is cleared again. *)
Theorem sweep_without_pending_records_sends_nothing :
  ∀ (fuel : nat) (env : Env) (m : t) (w : World),
    isUploading m = false →
    db (storage w) = false ∨ env (served w) OpGetAll = IoError
    ∨ unuploaded (store w) = [] →
    ∃ w',
      call (1 + fuel) env (forceUpload m w) = Some (Resolved (), m, w') ∧
      network w' = network w ∧ store w' = store w.
Proof.
  intros fuel env m w Hflag Hwhy.
  assert (Hm : finally (set_isUploading true m) = m).
  { destruct m. simpl in Hflag. by subst. }
  unfold forceUpload, uploadPendingLogs. rewrite Hflag.
  cbn [call Nat.add run resume awaited]. unfold Storage.getUnuploadedLogs.
  cbn [tick storage store].
  destruct (db (storage w)) eqn:Hdb; cbn [negb];
    [|rewrite run_returned, Hm; (eexists; split; [reflexivity|by repeat split])].
  destruct (env (served w) OpGetAll) eqn:Hget;
    [|rewrite run_returned, Hm; (eexists; split; [reflexivity|by repeat split])].
  destruct Hwhy as [|[|Hnone]]; [done|done|].
  fold (unuploaded (store w)). rewrite Hnone. simpl.
  rewrite run_returned, Hm. (eexists; split; [reflexivity|by repeat split]).
Qed.

Lemma sweep_without_pending_records_sends_nothing_witness :
  ∃ w',
    call (1 + 0) (platform (λ _, IoSuccess))
      (forceUpload (new serverA Idle 50 closedWorld) closedWorld)
    = Some (Resolved (), new serverA Idle 50 closedWorld, w') ∧
    network w' = [] ∧ store w' = ∅.
Proof.
  apply (sweep_without_pending_records_sends_nothing 0
           (platform (λ _, IoSuccess)) (new serverA Idle 50 closedWorld)
           closedWorld eq_refl).
  by left.
Defined.



End ManagerMore.


Section ChunkCount.

Context {A : Type}.
Implicit Types (l : list A) (b fuel : nat).




End ChunkCount.

Section Delivery.

Import UploadManager.


End Delivery.

Section DeliveryWitness.

Import UploadManager.


End DeliveryWitness.

Section Quiet.

Import UploadManager.

(** Under the idle strategy a manager that holds only saves in progress
    sends nothing as long as it is not forced and its idle callback, if
    still registered, does not fire. *)
Lemma quiet_steps evs :
  ∀ s,
    strategy (manager s) = Idle →
    Forall (λ f, attempt f = false) (tasks s) →
    Forall (λ ev, ev ≠ ForceUpload) evs →
    (IdleDetector.onIdleCallback (idleDetector (manager s)) = None
     ∨ ∀ before after, evs = before ++ IdleFired :: after → Destroy ∈ before) →
    network (world (steps evs s)) = network (world s) ∧
    isUploading (manager (steps evs s)) = isUploading (manager s).
Proof.
  induction evs as [|ev evs IH]; intros s Hs Htasks Hevs Hcb; [done|].
  apply Forall_cons in Hevs as [Hev Hevs].
  assert (Hnone : ev = IdleFired →
            IdleDetector.onIdleCallback (idleDetector (manager s)) = None).
  { intros ->. destruct Hcb as [|Hcb]; [done|].
    specialize (Hcb [] evs eq_refl). by apply elem_of_nil in Hcb. }
  assert (Hnext : ∀ s',
            (ev = Destroy →
             IdleDetector.onIdleCallback (idleDetector (manager s')) = None) →
            (IdleDetector.onIdleCallback (idleDetector (manager s)) = None →
             IdleDetector.onIdleCallback (idleDetector (manager s')) = None) →
            IdleDetector.onIdleCallback (idleDetector (manager s')) = None
            ∨ ∀ before after,
                evs = before ++ IdleFired :: after → Destroy ∈ before).
  { intros s' Hd Hkeep. destruct Hcb as [Hcb|Hcb]; [left; auto|].
    assert (ev = Destroy ∨ ev ≠ Destroy) as [->|Hne]
      by (destruct ev; (by left) || (by right)); [left; auto|].
    right. intros before after ->.
    specialize (Hcb (ev :: before) after eq_refl).
    apply elem_of_cons in Hcb as [Hcb|Hcb]; [congruence|done]. }
  change (steps (ev :: evs) s) with (steps evs (step ev s)).
  destruct ev as [log| | |n r|].
  - destruct (IH (step (NewLog log) s)) as [Hn Hu]; simpl; try done.
    + apply Forall_app. split; [done|]. by repeat constructor.
    + apply Hnext; [done|]. by simpl.
  - simpl. rewrite (Hnone eq_refl). apply IH; try done.
    apply Hnext; [done|]. by simpl.
  - done.
  - assert (Hstep : strategy (manager (step (Completes n r) s)) = Idle ∧
              Forall (λ f, attempt f = false) (tasks (step (Completes n r) s)) ∧
              network (world (step (Completes n r) s)) = network (world s) ∧
              manager (step (Completes n r) s) = manager s).
    { simpl. destruct (tasks s !! n) as [f|] eqn:Hf; [|done].
      assert (Hatt : attempt f = false).
      { eapply Forall_lookup_1 in Htasks; [exact Htasks|exact Hf]. }
      destruct f as [log| | | | |]; try done. cbn [resume].
      destruct (Storage.saveLog _ _ _ _) as [[[]|msg] os]; rewrite ?Hs; simpl;
        (repeat split; try done; by apply Forall_delete). }
    destruct Hstep as (Hs' & Ht' & Hn' & Hm').
    destruct (IH (step (Completes n r) s)) as [Hn Hu]; try done.
    + apply Hnext; [done|]. by rewrite Hm'.
    + by rewrite Hn, Hu, Hn', Hm'.
  - destruct (IH (step Destroy s)) as [Hn Hu]; simpl; try done.
    by left.
Qed.

(** X16.  A manager constructed with the idle strategy makes no request
    to the server and never sets its guard as long as [forceUpload] is not
    called and the idle callback does not fire before [destroy]: new logs,
    completed requests and, after [destroy], even idle notifications start
    no upload. *)
Theorem idle_strategy_sends_only_when_idle_or_forced :
  ∀ (u : LogUploader.t) (b : Z) (w : World) (evs : list Event),
    Forall (λ ev, ev ≠ ForceUpload) evs →
    (∀ before after, evs = before ++ IdleFired :: after → Destroy ∈ before) →
    network (world (steps evs (start u Idle b w))) = network w ∧
    isUploading (manager (steps evs (start u Idle b w))) = false.
Proof.
  intros u b w evs Hevs Hidle.
  destruct (quiet_steps evs (start u Idle b w)) as [Hn Hu]; try done.
  by right.
Qed.

Lemma idle_strategy_sends_only_when_idle_or_forced_witness :
  network (world (steps [NewLog boundaryLog; Completes 0 IoSuccess; Destroy;
                         IdleFired]
                    (start serverA Idle 50 openWorld))) = [] ∧
  isUploading (manager (steps [NewLog boundaryLog; Completes 0 IoSuccess;
                               Destroy; IdleFired]
                          (start serverA Idle 50 openWorld))) = false.
Proof.
  apply (idle_strategy_sends_only_when_idle_or_forced serverA 50 openWorld).
  - repeat (constructor; [done|]). constructor.
  - intros before after Heq.
    destruct before as [|e1 [|e2 [|e3 [|e4 before]]]]; simpl in Heq;
      simplify_eq.
    + rewrite !elem_of_cons. auto.
    + by destruct before.
Defined.

End Quiet.

Section LoggerMore.

Lemma mergeConfig_overConfig c newConfig :
  mergeConfig (overConfig c newConfig) = spread c newConfig.
Proof. done. Qed.

Lemma printed_say_diag msg w : printed (say (Diag msg) w) = printed w.
Proof. unfold printed. simpl. by rewrite omap_app, app_nil_r. Qed.

Lemma printed_say_log log w :
  printed (say (Printed log) w) = printed w ++ [log].
Proof. unfold printed. simpl. by rewrite omap_app. Qed.

(** A cleanup touches the store only: it deletes, and never a record
    younger than the retention period. *)
Lemma performCleanup_world env days w :
  let w' := CleanupManager.performCleanup env days w in
  network w' = network w ∧ storage w' = storage w ∧ now w' = now w ∧
  printed w' = printed w ∧
  (∀ k v, store w' !! k = Some v → store w !! k = Some v) ∧
  (∀ k v, store w !! k = Some v →
          now w - days * 86400000 < s_timestamp v → store w' !! k = Some v).
Proof.
  unfold CleanupManager.performCleanup, Storage.cleanupExpiredLogs.
  cbn [tick storage store now].
  destruct (negb (db (storage w))); [by rewrite printed_say_diag|].
  destruct (env (served w) (OpCursor days)); [|by rewrite printed_say_diag].
  rewrite printed_say_diag. simpl. repeat split; try done.
  - intros k v Hk. by apply map_lookup_filter_Some in Hk as [? _].
  - intros k v Hk Hyoung. apply map_lookup_filter_Some. split; [done|].
    simpl. lia.
Qed.

Lemma new_fields u s b w :
  UploadManager.uploader (UploadManager.new u s b w) = u ∧
  UploadManager.strategy (UploadManager.new u s b w) = s ∧
  UploadManager.batchSize (UploadManager.new u s b w) = b ∧
  UploadManager.isUploading (UploadManager.new u s b w) = false.
Proof. by destruct s. Qed.

End LoggerMore.

(** X17.  [updateConfig] overrides exactly the fields that [newConfig]
    gives and keeps every other field of the current configuration; it
    never contacts the server, never opens or closes the database and does
    not change whether the logger counts as initialized; and when every
    given field already has its current value, nothing changes at all: no
    component is recreated and no cleanup runs. *)
Theorem updateConfig_overrides_only_the_given_fields :
  ∀ (env : Env) (newConfig : LoggerConfig) (lg : Logger.t) (w : World),
    let res := Logger.updateConfig env newConfig lg w in
    Logger.getConfig res.1 = spread (Logger.getConfig lg) newConfig ∧
    Logger.initialized res.1 = Logger.initialized lg ∧
    network res.2 = network w ∧
    storage res.2 = storage w ∧
    (spread (Logger.getConfig lg) newConfig = Logger.getConfig lg →
     res = (lg, w)).
Proof.
  intros env newConfig lg w res. subst res. unfold Logger.updateConfig.
  rewrite mergeConfig_overConfig. unfold Logger.getConfig.
  set (config' := spread (Logger.config lg) newConfig).
  split; [|split; [|split; [|split]]].
  - destruct (bool_decide (logExpiration _ ≠ _)); [destruct (0 <? _)|]; done.
  - destruct (bool_decide (logExpiration _ ≠ _)); [destruct (0 <? _)|]; done.
  - destruct (bool_decide (logExpiration _ ≠ _)); [destruct (0 <? _)|];
      try done.
    apply (performCleanup_world env (logExpiration config') w).
  - destruct (bool_decide (logExpiration _ ≠ _)); [destruct (0 <? _)|];
      try done.
    apply (performCleanup_world env (logExpiration config') w).
  - intros Hsame. subst config'. rewrite Hsame.
    rewrite (bool_decide_eq_false_2 (serverUrl _ ≠ _)) by (by intros []).
    rewrite (bool_decide_eq_false_2 (_ ∨ _)) by (by intros [[]|[]]).
    rewrite (bool_decide_eq_false_2 (logExpiration _ ≠ _)) by (by intros []).
    by destruct lg.
Qed.

Lemma updateConfig_overrides_only_the_given_fields_witness :
  Logger.updateConfig (platform (λ _, IoSuccess)) (serverUrlOnly "")
    (Logger.new noConfig closedWorld).1 closedWorld
  = ((Logger.new noConfig closedWorld).1, closedWorld).
Proof.
  refine (proj2 (proj2 (proj2 (proj2
            (updateConfig_overrides_only_the_given_fields
               (platform (λ _, IoSuccess)) (serverUrlOnly "")
               (Logger.new noConfig closedWorld).1 closedWorld)))) _).
  by vm_compute.
Defined.

Section LoggerRuns.

Lemma uploadLogs_printed u batch r w :
  printed (LogUploader.uploadLogs u batch r w).2 = printed w.
Proof.
  unfold LogUploader.uploadLogs.
  destruct (bool_decide _); [cbn [snd]; by rewrite printed_say_diag|].
  destruct (bool_decide _); [done|].
  destruct r; [done|cbn [snd]; by rewrite printed_say_diag].
Qed.

(** A resumed call changes of the manager nothing but the guard, and
    writes no log entry to the console. *)
Lemma resume_static f r m w :
  let res := UploadManager.resume f r m w in
  UploadManager.uploader res.1.2 = UploadManager.uploader m ∧
  UploadManager.strategy res.1.2 = UploadManager.strategy m ∧
  UploadManager.batchSize res.1.2 = UploadManager.batchSize m ∧
  UploadManager.idleDetector res.1.2 = UploadManager.idleDetector m ∧
  printed res.2 = printed w.
Proof.
  destruct f as [log|logs|logs| |ul i|ul i]; cbn [UploadManager.resume].
  - destruct (Storage.saveLog log r (storage w) (store w)) as [[] os]; [|done].
    destruct (UploadManager.strategy m) eqn:Hst; [done|].
    unfold UploadManager.uploadImmediately.
    by destruct (UploadManager.isUploading m).
  - pose proof (uploadLogs_printed (UploadManager.uploader m) logs r w) as Hp.
    by destruct (LogUploader.uploadLogs _ logs r w) as [[] w1].
  - destruct (Storage.markAsUploaded _ r (storage w) (store w)) as [[] os];
      [done|]. cbn [fst snd]. by rewrite printed_say_diag.
  - destruct (Storage.getUnuploadedLogs r (storage w) (store w)) as [ul|];
      [|cbn [fst snd]; by rewrite printed_say_diag].
    destruct (bool_decide _); [done|].
    unfold UploadManager.forLoop. by destruct (0 <? _).
  - pose proof (uploadLogs_printed (UploadManager.uploader m)
                  (UploadManager.batchAt m ul i) r w) as Hp.
    by destruct (LogUploader.uploadLogs _ _ r w) as [[] w1].
  - destruct (Storage.markAsUploaded _ r (storage w) (store w)) as [[] os];
      [|cbn [fst snd]; by rewrite printed_say_diag].
    unfold UploadManager.forLoop. by destruct (_ <? _).
Qed.

Lemma run_static env fuel :
  ∀ st m w r m' w',
    UploadManager.run fuel env st m w = Some (r, m', w') →
    UploadManager.uploader m' = UploadManager.uploader m ∧
    UploadManager.strategy m' = UploadManager.strategy m ∧
    UploadManager.batchSize m' = UploadManager.batchSize m ∧
    UploadManager.idleDetector m' = UploadManager.idleDetector m ∧
    printed w' = printed w ∧
    kept (store w) (store w') ∧
    storage w' = storage w.
Proof.
  induction fuel as [|fuel IH]; intros st m w r m' w' Hrun.
  - destruct st; simpl in Hrun; simplify_eq;
      (repeat split; try done; apply kept_refl).
  - destruct st as [f| |msg]; simpl in Hrun; simplify_eq;
      try (repeat split; try done; apply kept_refl).
    pose proof (resume_static f (env (served w) (UploadManager.awaited m f)) m
                  (tick w)) as (Hu & Hs & Hb & Hd & Hp).
    pose proof (resume_kept f (env (served w) (UploadManager.awaited m f)) m
                  (tick w)) as [Hk Hg].
    destruct (UploadManager.resume f _ m (tick w)) as [[st1 m1] w1].
    apply IH in Hrun as (Hu' & Hs' & Hb' & Hd' & Hp' & Hk' & Hg').
    simpl in *. change (printed (tick w)) with (printed w) in Hp.
    split; [congruence|]. split; [congruence|]. split; [congruence|].
    split; [congruence|]. split; [congruence|].
    split; [by eapply kept_trans|congruence].
Qed.

Lemma forceUpload_static env fuel m w r m' w' :
  UploadManager.call fuel env (UploadManager.forceUpload m w)
  = Some (r, m', w') →
  UploadManager.uploader m' = UploadManager.uploader m ∧
  UploadManager.strategy m' = UploadManager.strategy m ∧
  UploadManager.batchSize m' = UploadManager.batchSize m ∧
  UploadManager.idleDetector m' = UploadManager.idleDetector m ∧
  printed w' = printed w ∧
  kept (store w) (store w') ∧
  storage w' = storage w.
Proof.
  unfold UploadManager.forceUpload, UploadManager.uploadPendingLogs.
  destruct (UploadManager.isUploading m); intros Hrun;
    by apply run_static in Hrun.
Qed.

(** What [init] does besides opening the database: at most one cleanup. *)
Lemma init_effect env lg w :
  let res := Logger.init env lg w in
  Logger.config res.1.2 = Logger.config lg ∧
  Logger.uploader res.1.2 = Logger.uploader lg ∧
  Logger.uploadManager res.1.2 = Logger.uploadManager lg ∧
  network res.2 = network w ∧ now res.2 = now w ∧
  printed res.2 = printed w ∧
  (∀ k v, store res.2 !! k = Some v → store w !! k = Some v) ∧
  (∀ k v, store w !! k = Some v →
          now w - logExpiration (Logger.config lg) * 86400000 < s_timestamp v →
          store res.2 !! k = Some v) ∧
  match res.1.1 with
  | Resolved _ =>
      Logger.initialized res.1.2 = true ∧
      (Logger.initialized lg = true → res = (Resolved (), lg, w)) ∧
      (Logger.initialized lg = false →
       env (served w) OpOpen = IoSuccess ∧ db (storage res.2) = true ∧
       Logger.cleanupManager res.1.2
       = if 0 <? logExpiration (Logger.config lg)
         then CleanupManager.mk (Some (logExpiration (Logger.config lg)))
                (CleanupManager.scheduled (Logger.cleanupManager lg))
         else Logger.cleanupManager lg)
  | Rejected _ =>
      Logger.initialized lg = false ∧ env (served w) OpOpen = IoError ∧
      res.1.2 = lg ∧ store res.2 = store w ∧ storage res.2 = storage w
  end.
Proof.
  unfold Logger.init. destruct (Logger.initialized lg) eqn:Hi.
  { simpl. repeat split; try done. }
  destruct (env (served w) OpOpen) eqn:Hopen; simpl.
  - destruct (0 <? logExpiration (Logger.config lg)); simpl.
    + pose proof (performCleanup_world env (logExpiration (Logger.config lg))
                    (set_storage (mkStorage true) (tick w)))
        as (Hn & Hg & Hc & Hp & Hsub & Hyoung).
      simpl in *. rewrite Hg. repeat split; try done.
    + repeat split; try done.
  - rewrite printed_say_diag. repeat split; try done.
Qed.

End LoggerRuns.

(** X18.  [init] never contacts the server and adds no record; it
    deletes no record younger than the retention period; with a retention
    of zero days or less it deletes nothing and starts no cleanup; on a
    logger that is already initialized it does nothing; and when it rejects
    it leaves the logger and the store as they were. *)
Theorem init_deletes_only_expired_records :
  ∀ (env : Env) (lg : Logger.t) (w : World),
    let res := Logger.init env lg w in
    network res.2 = network w ∧
    (∀ k v, store res.2 !! k = Some v → store w !! k = Some v) ∧
    (∀ k v, store w !! k = Some v →
            now w - logExpiration (Logger.config lg) * 86400000 < s_timestamp v →
            store res.2 !! k = Some v) ∧
    (logExpiration (Logger.config lg) ≤ 0 →
     store res.2 = store w ∧
     Logger.cleanupManager res.1.2 = Logger.cleanupManager lg) ∧
    (Logger.initialized lg = true → res = (Resolved (), lg, w)) ∧
    (res.1.1 ≠ Resolved () → res.1.2 = lg ∧ store res.2 = store w).
Proof.
  intros env lg w res.
  pose proof (init_effect env lg w) as (_ & _ & _ & Hn & _ & _ & Hsub & Hy & Hr).
  fold res in Hn, Hsub, Hy, Hr.
  split; [done|]. split; [done|]. split; [done|]. split; [|split].
  - intros Hle. subst res. unfold Logger.init.
    destruct (Logger.initialized lg); [done|].
    destruct (Storage.init _ _) as [[[]|msg] st]; [|done].
    by rewrite (proj2 (Z.ltb_ge _ _)) by done.
  - intros Hi. subst res. unfold Logger.init. by rewrite Hi.
  - intros Hrej. destruct (res.1.1) as [[]|msg]; [done|]. tauto.
Qed.

Section LogCalls.

Lemma ensureInit_effect env lg w :
  let res := Logger.ensureInit env lg w in
  Logger.config res.1.2 = Logger.config lg ∧
  Logger.uploader res.1.2 = Logger.uploader lg ∧
  Logger.uploadManager res.1.2 = Logger.uploadManager lg ∧
  network res.2 = network w ∧ now res.2 = now w ∧
  printed res.2 = printed w ∧
  (∀ k v, store res.2 !! k = Some v → store w !! k = Some v) ∧
  (∀ k v, store w !! k = Some v →
          now w - logExpiration (Logger.config lg) * 86400000 < s_timestamp v →
          store res.2 !! k = Some v) ∧
  match res.1.1 with
  | Resolved _ =>
      Logger.initialized res.1.2 = true ∧
      (Logger.initialized lg = true → res = (Resolved (), lg, w)) ∧
      (Logger.initialized lg = false →
       env (served w) OpOpen = IoSuccess ∧ db (storage res.2) = true ∧
       Logger.cleanupManager res.1.2
       = if 0 <? logExpiration (Logger.config lg)
         then CleanupManager.mk (Some (logExpiration (Logger.config lg)))
                (CleanupManager.scheduled (Logger.cleanupManager lg))
         else Logger.cleanupManager lg)
  | Rejected _ =>
      Logger.initialized lg = false ∧ env (served w) OpOpen = IoError ∧
      res.1.2 = lg ∧ store res.2 = store w ∧ storage res.2 = storage w
  end.
Proof.
  pose proof (init_effect env lg w) as Hinit.
  unfold Logger.ensureInit. destruct (Logger.initialized lg) eqn:Hi.
  - simpl. repeat split; try done.
  - exact Hinit.
Qed.

(** What a settled [log] call leaves of the logger and of the console. *)
Lemma log_effect fuel env level title data newId lg w r lg' w' :
  Logger.log fuel env level title data newId lg w = Some (r, lg', w') →
  Logger.config lg' = Logger.config lg ∧
  Logger.uploader lg' = Logger.uploader lg ∧
  UploadManager.uploader (Logger.uploadManager lg')
  = UploadManager.uploader (Logger.uploadManager lg) ∧
  UploadManager.strategy (Logger.uploadManager lg')
  = UploadManager.strategy (Logger.uploadManager lg) ∧
  UploadManager.batchSize (Logger.uploadManager lg')
  = UploadManager.batchSize (Logger.uploadManager lg) ∧
  UploadManager.idleDetector (Logger.uploadManager lg')
  = UploadManager.idleDetector (Logger.uploadManager lg) ∧
  printed w'
  = printed w
    ++ match r with
       | Resolved _ =>
           if debugMode (Logger.config lg) || negb (Logger.debugOrTrace level)
           then [mkLogEntry newId level title data (now w) (Some false)]
           else []
       | Rejected _ => []
       end.
Proof.
  unfold Logger.log.
  pose proof (ensureInit_effect env lg w)
    as (Hc & Hu & Hm & _ & Hnow & Hp & _ & _ & _).
  destruct (Logger.ensureInit env lg w) as [[[[]|msg] lg1] w1]; simpl in *.
  2:{ intros [= <- <- <-]. rewrite app_nil_r. by rewrite Hm. }
  rewrite Hc, Hnow.
  destruct (debugMode (Logger.config lg)) eqn:Hdebug;
    destruct (Logger.debugOrTrace level) eqn:Hlevel; simpl.
  3:{ intros [= <- <- <-]. rewrite app_nil_r. by rewrite Hm. }
  all: set (logEntry := mkLogEntry newId level title data (now w) (Some false)).
  all: destruct (uploadLogs (Logger.config lg)).
  all: try (destruct (Storage.saveLog _ _ _ _) as [[[]|?] os];
            intros [= <- <- <-]; rewrite Hm;
            unfold printed, Logger.printToConsole in *; simpl;
            rewrite ?omap_app, Hp; simpl; by rewrite ?app_nil_r).
  all: destruct (UploadManager.run _ _ _ _ _) as [[[r1 m1] w2]|] eqn:Hrun;
         [|done].
  all: apply run_static in Hrun as (Hu1 & Hs1 & Hb1 & Hd1 & Hp1 & _ & _).
  all: rewrite <- Hm.
  all: destruct r1 as [[]|msg1]; intros [= <- <- <-].
  all: unfold printed, Logger.printToConsole in *; simpl in *.
  all: rewrite ?omap_app in *; simpl in *; rewrite ?app_nil_r in *.
  all: by rewrite Hp1, Hp.
Qed.

End LogCalls.

(** X19.  Every [log] call settles once the requests it awaits complete:
    three inside [handleNewLog] are enough, besides the open request of a
    lazy initialization.  It writes the entry to the console exactly once
    when it resolves in debug mode or for a level other than debug and
    trace, and not at all otherwise; nothing else it does, whether storing
    or uploading, succeeds or fails, prints an entry.  It rejects only when
    the logger was not initialized and the database cannot be opened. *)
Theorem log_prints_the_entry_once :
  ∀ (fuel : nat) (env : Env) (level : LogLevel) (title : string) (data : Data)
    (newId : string) (lg : Logger.t) (w : World),
    ∃ r lg' w',
      Logger.log (3 + fuel) env level title data newId lg w
      = Some (r, lg', w') ∧
      printed w'
      = printed w
        ++ match r with
           | Resolved _ =>
               if debugMode (Logger.config lg)
                  || negb (Logger.debugOrTrace level)
               then [mkLogEntry newId level title data (now w) (Some false)]
               else []
           | Rejected _ => []
           end ∧
      (∀ msg, r = Rejected msg →
              Logger.initialized lg = false ∧
              env (served w) OpOpen = IoError).
Proof.
  intros fuel env level title data newId lg w.
  assert (Hsettles : ∃ res,
            Logger.log (3 + fuel) env level title data newId lg w = Some res).
  { unfold Logger.log.
    destruct (Logger.ensureInit env lg w) as [[[[]|msg] lg1] w1]; [|by eexists].
    destruct (negb _ && _); [by eexists|].
    destruct (uploadLogs (Logger.config lg1)).
    - match goal with
      | |- context [UploadManager.handleNewLog ?log ?m ?w0] =>
          destruct (handleNewLog_settles env log m w0 fuel)
            as (r1 & m1 & w2 & ->)
      end.
      destruct r1; by eexists.
    - destruct (Storage.saveLog _ _ _ _) as [[] os]; by eexists. }
  destruct Hsettles as [[[r lg'] w'] Hlog].
  exists r, lg', w'. split; [done|]. split.
  - by apply log_effect in Hlog as (_ & _ & _ & _ & _ & _ & Hp).
  - intros msg ->. revert Hlog. unfold Logger.log.
    pose proof (ensureInit_effect env lg w) as (_ & _ & _ & _ & _ & _ & _ & _ & Hr).
    destruct (Logger.ensureInit env lg w) as [[[[]|msg1] lg1] w1];
      cbn [fst snd] in Hr; [|tauto].
    destruct (negb _ && _); [done|].
    destruct (uploadLogs (Logger.config lg1)).
    + by destruct (UploadManager.call _ _ _) as [[[[] ?] ?]|].
    + cbv zeta. by destruct (Storage.saveLog _ _ _ _) as [[] os].
Qed.

Section LogCallsMore.

Lemma log_settles fuel env level title data newId lg w :
  ∃ res, Logger.log (3 + fuel) env level title data newId lg w = Some res.
Proof.
  unfold Logger.log.
  destruct (Logger.ensureInit env lg w) as [[[[]|msg] lg1] w1]; [|by eexists].
  destruct (negb _ && _); [by eexists|].
  destruct (uploadLogs (Logger.config lg1)).
  - match goal with
    | |- context [UploadManager.handleNewLog ?log ?m ?w0] =>
        destruct (handleNewLog_settles env log m w0 fuel)
          as (r1 & m1 & w2 & ->)
    end.
    destruct r1; by eexists.
  - cbv zeta. destruct (Storage.saveLog _ _ _ _) as [[] os]; by eexists.
Qed.

(** A record logged on an initialized logger whose [add] succeeds is in
    the store afterwards, and nothing that was there is lost. *)
Lemma log_stores fuel env level title data newId lg w :
  Logger.initialized lg = true →
  db (storage w) = true →
  store w !! newId = None →
  debugMode (Logger.config lg) = true ∨ Logger.debugOrTrace level = false →
  let logEntry := mkLogEntry newId level title data (now w) (Some false) in
  env (served w) (OpAdd logEntry) = IoSuccess →
  ∃ lg' w',
    Logger.log (3 + fuel) env level title data newId lg w
    = Some (Resolved (), lg', w') ∧
    Logger.initialized lg' = true ∧
    storage w' = storage w ∧
    kept (store w) (store w') ∧
    (store w' !! newId = Some (value_of logEntry) ∨
     store w' !! newId = Some (set_uploaded (value_of logEntry))).
Proof.
  intros Hi Hdb Hfresh Hlevel logEntry Hadd.
  unfold Logger.log, Logger.ensureInit. rewrite Hi. cbn [negb].
  assert (Hfilter : negb (debugMode (Logger.config lg))
                    && Logger.debugOrTrace level = false).
  { destruct Hlevel as [-> | ->]; [done|]. by rewrite andb_false_r. }
  rewrite Hfilter. fold logEntry.
  assert (Hprint :
    (if debugMode (Logger.config lg) then Logger.printToConsole logEntry w
     else if negb (Logger.debugOrTrace level)
          then Logger.printToConsole logEntry w else w)
    = Logger.printToConsole logEntry w).
  { destruct Hlevel as [-> | ->]; [done|]. by destruct (debugMode _). }
  cbv zeta. rewrite Hprint.
  destruct (uploadLogs (Logger.config lg)).
  - destruct (handleNewLog_persists env logEntry (Logger.uploadManager lg)
                (Logger.printToConsole logEntry w) fuel Hdb Hfresh Hadd)
      as (m' & w' & Hrun & Hstored & _).
    rewrite Hrun. eexists _, _. split; [reflexivity|].
    apply run_static in Hrun as (_ & _ & _ & _ & _ & Hk & Hg).
    by repeat split.
  - change (served (Logger.printToConsole logEntry w)) with (served w).
    rewrite Hadd. unfold Storage.saveLog.
    cbn [tick storage store Logger.printToConsole say]. rewrite Hdb.
    cbn [negb]. change (id logEntry) with newId. rewrite Hfresh.
    eexists _, _. split; [reflexivity|]. cbn [store set_store storage].
    split; [done|]. split; [done|]. split.
    + intros k v Hk. left. rewrite lookup_insert_ne; [done|].
      intros <-. by rewrite Hfresh in Hk.
    + left. apply lookup_insert_eq.
Qed.

End LogCallsMore.

(** X20.  With [uploadLogs] off a [log] call settles without awaiting
    the upload manager at all: it makes no request to the server, leaves
    the upload manager as it was, and changes no record of the store other
    than the one it adds; this holds whether or not the call has to
    initialize the logger first. *)
Theorem log_without_uploadLogs_stays_local :
  ∀ (fuel : nat) (env : Env) (level : LogLevel) (title : string) (data : Data)
    (newId : string) (lg : Logger.t) (w : World),
    uploadLogs (Logger.config lg) = false →
    ∃ r lg' w',
      Logger.log fuel env level title data newId lg w = Some (r, lg', w') ∧
      network w' = network w ∧
      Logger.uploadManager lg' = Logger.uploadManager lg ∧
      (∀ k v, store w' !! k = Some v → k ≠ newId → store w !! k = Some v).
Proof.
  intros fuel env level title data newId lg w Hlocal. unfold Logger.log.
  pose proof (ensureInit_effect env lg w)
    as (Hc & _ & Hm & Hn & _ & _ & Hsub & _).
  destruct (Logger.ensureInit env lg w) as [[[[]|msg] lg1] w1];
    cbn [fst snd] in *; [|eexists _, _, _; split; [reflexivity|]; auto].
  rewrite Hc, Hlocal.
  destruct (negb _ && _); [eexists _, _, _; split; [reflexivity|]; auto|].
  cbv zeta.
  match goal with
  | |- context [Storage.saveLog ?log ?r ?st ?os] =>
      pose proof (saveLog_rejected log r st os) as Hrej;
      assert (Hins : ∀ os', Storage.saveLog log r st os = (Resolved (), os') →
                ∀ k v, os' !! k = Some v → k ≠ newId → os !! k = Some v);
      [|destruct (Storage.saveLog log r st os) as [[[]|msg] os'] eqn:Hsave]
  end.
  - intros os'. unfold Storage.saveLog.
    destruct (negb (db _)); [done|]. destruct (env _ _); [|done].
    match goal with |- context [?os0 !! id ?l] => destruct (os0 !! id l) end;
      [done|].
    intros [= <-] k v Hk Hne. by rewrite lookup_insert_ne in Hk.
  - eexists _, _, _. split; [reflexivity|].
    split; [by repeat case_match|]. split; [done|].
    intros k v Hk Hne. apply Hsub. specialize (Hins _ eq_refl k v Hk Hne).
    revert Hins. by repeat case_match.
  - eexists _, _, _. split; [reflexivity|].
    split; [by repeat case_match|]. split; [done|].
    intros k v Hk _. apply Hsub. revert Hk. by repeat case_match.
Qed.

Lemma log_without_uploadLogs_stays_local_witness :
  ∃ r lg' w',
    Logger.log 0 (platform (λ _, IoSuccess)) Info "started" [] "1000-a"
      (Logger.new (mkLoggerConfig (Some "https://a.example/logs") None
                     (Some false) None None None) closedWorld).1
      closedWorld
    = Some (r, lg', w') ∧
    network w' = [].
Proof.
  destruct (log_without_uploadLogs_stays_local 0 (platform (λ _, IoSuccess))
              Info "started" [] "1000-a"
              (Logger.new (mkLoggerConfig (Some "https://a.example/logs") None
                             (Some false) None None None) closedWorld).1
              closedWorld eq_refl)
    as (r & lg' & w' & Hlog & Hnet & _).
  by exists r, lg', w'.
Defined.

(** X21.  A record logged on an initialized logger with an open
    database, a fresh id and an [add] that succeeds is read back by
    [getAllLogs] with the id, level, title, data and timestamp it was
    logged with, under either strategy and with [uploadLogs] on or off; and
    every record that was stored before is read back too, unchanged or
    with its [uploaded] flag set. *)
Theorem logged_record_is_read_back :
  ∀ (fuel : nat) (env : Env) (level : LogLevel) (title : string) (data : Data)
    (newId : string) (lg : Logger.t) (w : World),
    Logger.initialized lg = true →
    db (storage w) = true →
    store w !! newId = None →
    debugMode (Logger.config lg) = true ∨ Logger.debugOrTrace level = false →
    env (served w)
      (OpAdd (mkLogEntry newId level title data (now w) (Some false)))
    = IoSuccess →
    ∃ lg' w',
      Logger.log (3 + fuel) env level title data newId lg w
      = Some (Resolved (), lg', w') ∧
      ∀ env', env' (served w') OpGetAll = IoSuccess →
        ∃ logs,
          (Logger.getAllLogs env' lg' w').1.1 = Resolved logs ∧
          (∃ flag, mkLogEntry newId level title data (now w) (Some flag)
                   ∈ logs) ∧
          (∀ old, old ∈ getAll (store w) →
                  old ∈ logs
                  ∨ entry_of (id old) (set_uploaded (value_of old)) ∈ logs).
Proof.
  intros fuel env level title data newId lg w Hi Hdb Hfresh Hlevel Hadd.
  destruct (log_stores fuel env level title data newId lg w Hi Hdb Hfresh
              Hlevel Hadd) as (lg' & w' & Hlog & Hi' & Hg & Hk & Hstored).
  exists lg', w'. split; [done|]. intros env' Hget.
  exists (getAll (store w')). split.
  { unfold Logger.getAllLogs, Logger.ensureInit. rewrite Hi'. cbn [negb fst snd].
    unfold Storage.getAllLogs. by rewrite Hg, Hdb, Hget. }
  split.
  - destruct Hstored as [Hs|Hs]; [exists false|exists true];
      apply elem_of_getAll; exact Hs.
  - intros old Hold. apply elem_of_getAll in Hold.
    destruct (Hk _ _ Hold) as [Hsame|Hset].
    + left. by apply elem_of_getAll.
    + right. apply elem_of_getAll. simpl. by rewrite value_entry.
Qed.

Lemma logged_record_is_read_back_witness :
  ∃ lg' w',
    Logger.log (3 + 0) (platform (λ _, IoSuccess)) Warn "disk" [] "1000-a"
      (Logger.mk DEFAULT_CONFIG serverA
         (UploadManager.new serverA Idle 50 openWorld)
         (CleanupManager.mk None []) true)
      openWorld
    = Some (Resolved (), lg', w').
Proof.
  destruct (logged_record_is_read_back 0 (platform (λ _, IoSuccess)) Warn
              "disk" [] "1000-a"
              (Logger.mk DEFAULT_CONFIG serverA
                 (UploadManager.new serverA Idle 50 openWorld)
                 (CleanupManager.mk None []) true)
              openWorld eq_refl eq_refl eq_refl (or_introl eq_refl) eq_refl)
    as (lg' & w' & Hlog & _).
  by exists lg', w'.
Defined.

(** X22.  With a positive batch size [forceUpload] settles, and the
    only way it rejects is that the logger was not initialized and the
    database cannot be opened, in which case the logger, the store and the
    network are untouched; a failing read, a failing server and a failing
    mark are all swallowed.  The guard is the same after the call as
    before it. *)
Theorem forceUpload_rejects_only_when_the_store_cannot_open :
  ∀ (env : Env) (lg : Logger.t) (w : World),
    0 < UploadManager.batchSize (Logger.uploadManager lg) →
    ∃ fuel r lg' w',
      Logger.forceUpload fuel env lg w = Some (r, lg', w') ∧
      UploadManager.isUploading (Logger.uploadManager lg')
      = UploadManager.isUploading (Logger.uploadManager lg) ∧
      match r with
      | Resolved _ => Logger.initialized lg' = true
      | Rejected _ =>
          Logger.initialized lg = false ∧ env (served w) OpOpen = IoError ∧
          lg' = lg ∧ store w' = store w ∧ network w' = network w
      end.
Proof.
  intros env lg w Hb. unfold Logger.forceUpload.
  pose proof (ensureInit_effect env lg w)
    as (_ & _ & Hm & Hn & _ & _ & _ & _ & Hr).
  destruct (Logger.ensureInit env lg w) as [[[[]|msg] lg1] w1];
    cbn [fst snd] in *.
  - destruct Hr as (Hi1 & _). rewrite Hm.
    unfold UploadManager.forceUpload, UploadManager.uploadPendingLogs.
    destruct (UploadManager.isUploading (Logger.uploadManager lg)) eqn:Hflag.
    + exists 0%nat. eexists _, _, _. split; [reflexivity|]. by split.
    + destruct (run_any_attempt_ends env UploadManager.AwaitGetUnuploaded
                  (UploadManager.set_isUploading true (Logger.uploadManager lg))
                  w1 Hb eq_refl) as (fuel & m' & w' & Hrun & Hflag').
      exists fuel. cbn [UploadManager.call]. rewrite Hrun.
      eexists _, _, _. split; [reflexivity|]. by split.
  - exists 0%nat. eexists _, _, _. split; [reflexivity|].
    destruct Hr as (Hi & Hopen & -> & Hs & _). by repeat split.
Qed.

Lemma forceUpload_rejects_only_when_the_store_cannot_open_witness :
  ∃ fuel r lg' w',
    Logger.forceUpload fuel noDatabase (Logger.new noConfig closedWorld).1
      closedWorld
    = Some (r, lg', w').
Proof.
  destruct (forceUpload_rejects_only_when_the_store_cannot_open noDatabase
              (Logger.new noConfig closedWorld).1 closedWorld eq_refl)
    as (fuel & r & lg' & w' & Hrun & _).
  by exists fuel, r, lg', w'.
Defined.

(** X23.  When [clearAllLogs] resolves, the store is empty, nothing is
    pending, no request went to the server, the logger is initialized, and
    a [getAllLogs] whose read succeeds returns the empty list. *)
Theorem clearAllLogs_leaves_nothing_to_read :
  ∀ (env : Env) (r : IoResult) (lg : Logger.t) (w : World),
    let res := Logger.clearAllLogs env r lg w in
    res.1.1 = Resolved () →
    store res.2 = ∅ ∧
    unuploaded (store res.2) = [] ∧
    network res.2 = network w ∧
    Logger.initialized res.1.2 = true ∧
    ∀ env', env' (served res.2) OpGetAll = IoSuccess →
      (Logger.getAllLogs env' res.1.2 res.2).1.1 = Resolved [].
Proof.
  intros env r lg w res. subst res. unfold Logger.clearAllLogs.
  pose proof (ensureInit_effect env lg w)
    as (_ & _ & _ & Hn & _ & _ & _ & _ & Hr).
  destruct (Logger.ensureInit env lg w) as [[[[]|msg] lg1] w1];
    cbn [fst snd] in *; [|done].
  destruct Hr as (Hi1 & _). unfold Storage.clearAllLogs.
  destruct (db (storage w1)) eqn:Hdb; cbn [negb]; [|done].
  destruct r; [|done]. cbn [fst snd store set_store network tick].
  intros _. split; [done|]. split; [done|]. split; [done|]. split; [done|].
  intros env' Hget. unfold Logger.getAllLogs, Logger.ensureInit.
  rewrite Hi1. cbn [negb fst snd]. unfold Storage.getAllLogs.
  rewrite Hget. cbn [storage set_store tick store]. by rewrite Hdb.
Qed.

Lemma clearAllLogs_leaves_nothing_to_read_witness :
  store (Logger.clearAllLogs (platform (λ _, IoSuccess)) IoSuccess
           (Logger.new noConfig openWorld).1 openWorld).2 = ∅.
Proof.
  refine (proj1 (clearAllLogs_leaves_nothing_to_read
                   (platform (λ _, IoSuccess)) IoSuccess
                   (Logger.new noConfig openWorld).1 openWorld _)).
  by vm_compute.
Defined.

(** X24.  [destroy] marks the logger uninitialized and clears the cleanup
    interval whose handle the manager holds, and no other: the intervals
    scheduled afterwards are those that were orphaned before.  A later
    [log] call settles and re-initializes the logger on its own when the
    database opens, scheduling one more interval under the configured
    retention when that is positive; but the idle callback is not
    registered again: the configuration still reports the strategy it had,
    while no idle timer is pending and an idle notification starts no
    sweep. *)
Theorem destroyed_logger_comes_back_without_idle_uploads :
  ∀ (fuel : nat) (env : Env) (level : LogLevel) (title : string) (data : Data)
    (newId : string) (lg : Logger.t) (w : World),
    Logger.initialized (Logger.destroy lg) = false ∧
    CleanupManager.scheduled (Logger.cleanupManager (Logger.destroy lg))
    = CleanupManager.orphaned (Logger.cleanupManager lg) ∧
    ∃ r lg' w',
      Logger.log (3 + fuel) env level title data newId (Logger.destroy lg) w
      = Some (r, lg', w') ∧
      Logger.config lg' = Logger.config lg ∧
      IdleDetector.onIdleCallback
        (UploadManager.idleDetector (Logger.uploadManager lg')) = None ∧
      IdleDetector.armed
        (UploadManager.idleDetector (Logger.uploadManager lg')) = false ∧
      (∀ ts,
         UploadManager.step UploadManager.IdleFired
           (UploadManager.mkSystem (Logger.uploadManager lg') w' ts)
         = UploadManager.mkSystem (Logger.uploadManager lg') w' ts) ∧
      (env (served w) OpOpen = IoSuccess →
       r = Resolved () ∧ Logger.initialized lg' = true ∧
       CleanupManager.scheduled (Logger.cleanupManager lg')
       = CleanupManager.orphaned (Logger.cleanupManager lg)
         ++ if 0 <? logExpiration (Logger.config lg)
            then [logExpiration (Logger.config lg)] else []).
Proof.
  intros fuel env level title data newId lg w.
  split; [done|].
  split; [unfold CleanupManager.scheduled; simpl; by rewrite app_nil_r|].
  destruct (log_settles fuel env level title data newId (Logger.destroy lg) w)
    as [[[r lg'] w'] Hlog].
  exists r, lg', w'. split; [done|].
  pose proof Hlog as Heff.
  apply log_effect in Heff as (Hc & _ & _ & _ & _ & Hd & _).
  split; [done|].
  assert (Hcb : IdleDetector.onIdleCallback
                  (UploadManager.idleDetector (Logger.uploadManager lg'))
                = None) by (by rewrite Hd).
  split; [done|]. split; [by rewrite Hd|]. split.
  { intros ts. simpl. by rewrite Hcb. }
  intros Hopen. revert Hlog. unfold Logger.log.
  pose proof (ensureInit_effect env (Logger.destroy lg) w)
    as (Hc1 & _ & _ & _ & _ & _ & _ & _ & Hr).
  destruct (Logger.ensureInit env (Logger.destroy lg) w)
    as [[[[]|msg] lg1] w1]; cbn [fst snd] in *.
  2:{ destruct Hr as (_ & Hfail & _). congruence. }
  destruct Hr as (Hi1 & _ & Hr). destruct (Hr eq_refl) as (_ & _ & Hclean).
  assert (Hgoal : Logger.initialized lg1 = true ∧
            CleanupManager.scheduled (Logger.cleanupManager lg1)
            = CleanupManager.orphaned (Logger.cleanupManager lg)
              ++ if 0 <? logExpiration (Logger.config lg)
                 then [logExpiration (Logger.config lg)] else []).
  { split; [done|]. rewrite Hclean. cbn [Logger.config Logger.destroy].
    destruct (0 <? _); unfold CleanupManager.scheduled; simpl;
      by rewrite ?app_nil_r. }
  destruct (negb _ && _); [by intros [= <- <- <-]|].
  destruct (uploadLogs (Logger.config lg1)).
  - destruct (UploadManager.call _ _ _) as [[[[[]|msg1] m1] w2]|];
      [| |done]; by intros [= <- <- <-].
  - cbv zeta. destruct (Storage.saveLog _ _ _ _) as [[[]|msg1] os];
      by intros [= <- <- <-].
Qed.

(** X25.  The uploader of the logger and the strategy and batch size of
    its upload manager agree with the configuration the logger reports: the
    constructor establishes this, and [updateConfig], [init], [destroy],
    every settled [log] call and every settled [forceUpload] preserve
    it. *)
Theorem configuration_reaches_uploader_strategy_and_batch_size :
  (∀ (config : LoggerConfig) (w : World), configured (Logger.new config w).1) ∧
  (∀ (env : Env) (newConfig : LoggerConfig) (lg : Logger.t) (w : World),
     configured lg → configured (Logger.updateConfig env newConfig lg w).1) ∧
  (∀ (env : Env) (lg : Logger.t) (w : World),
     configured lg → configured (Logger.init env lg w).1.2) ∧
  (∀ (lg : Logger.t), configured lg → configured (Logger.destroy lg)) ∧
  (∀ (fuel : nat) (env : Env) (level : LogLevel) (title : string)
     (data : Data) (newId : string) (lg : Logger.t) (w : World) r lg' w',
     configured lg →
     Logger.log fuel env level title data newId lg w = Some (r, lg', w') →
     configured lg') ∧
  (∀ (fuel : nat) (env : Env) (lg : Logger.t) (w : World) r lg' w',
     configured lg →
     Logger.forceUpload fuel env lg w = Some (r, lg', w') →
     configured lg').
Proof.
  split; [|split; [|split; [|split; [|split]]]].
  - intros config w. unfold configured, Logger.new.
    cbn [fst Logger.uploader Logger.uploadManager Logger.config].
    by destruct (new_fields (LogUploader.mk (serverUrl (mergeConfig config)))
                   (uploadStrategy (mergeConfig config))
                   (batchSize (mergeConfig config))
                   (set_storage (mkStorage false) w)) as (_ & -> & -> & _).
  - intros env newConfig lg w (Hu & Hs & Hb).
    unfold configured, Logger.updateConfig. rewrite mergeConfig_overConfig.
    set (config' := spread (Logger.config lg) newConfig).
    destruct (bool_decide (logExpiration _ ≠ _));
      [destruct (0 <? _)|]; cbn [fst Logger.uploader Logger.uploadManager
                                  Logger.config CleanupManager.startPeriodicCleanup].
    all: (split; [|split]).
    all: try (case_bool_decide as Hurl; [done|]; rewrite Hu; f_equal;
              by destruct (decide (serverUrl (Logger.config lg)
                                   = serverUrl config'))).
    all: generalize (if bool_decide (serverUrl (Logger.config lg)
                                     ≠ serverUrl config')
                     then LogUploader.mk (serverUrl config')
                     else Logger.uploader lg); intros u'.
    all: case_bool_decide as Hch;
      [by destruct (new_fields u' (uploadStrategy config') (batchSize config') w)
            as (_ & Hs' & Hb' & _)|].
    all: rewrite ?Hs, ?Hb.
    all: try (destruct (decide (uploadStrategy (Logger.config lg)
                                = uploadStrategy config')); [done|];
              exfalso; apply Hch; by left).
    all: destruct (decide (batchSize (Logger.config lg) = batchSize config'));
      [done|]; exfalso; apply Hch; by right.
  - intros env lg w Hc. unfold Logger.init.
    destruct (Logger.initialized lg); [done|].
    destruct (Storage.init _ _) as [[[]|msg] st]; [|done].
    by destruct (0 <? _).
  - by intros lg Hc.
  - intros fuel env level title data newId lg w r lg' w' (Hu & Hs & Hb) Hlog.
    apply log_effect in Hlog as (Hc' & Hu' & _ & Hs' & Hb' & _).
    unfold configured. by rewrite Hc', Hu', Hs', Hb'.
  - intros fuel env lg w r lg' w' (Hu & Hs & Hb) Hrun.
    unfold Logger.forceUpload in Hrun.
    pose proof (ensureInit_effect env lg w) as (Hc1 & Hu1 & Hm1 & _).
    destruct (Logger.ensureInit env lg w) as [[[[]|msg] lg1] w1];
      cbn [fst snd] in *.
    + destruct (UploadManager.call _ _ _) as [[[r1 m1] w2]|] eqn:Hcall;
        [|done].
      apply forceUpload_static in Hcall as (_ & Hs2 & Hb2 & _).
      injection Hrun as <- <- <-. unfold configured. simpl.
      by rewrite Hc1, Hu1, Hs2, Hb2, Hm1.
    + injection Hrun as <- <- <-. unfold configured.
      by rewrite Hc1, Hu1, Hm1.
Qed.

Section NoCallback.

Import UploadManager.

(** Only the constructor registers the idle callback; no event brings it
    back. *)
Lemma step_no_callback ev s :
  IdleDetector.onIdleCallback (idleDetector (manager s)) = None →
  IdleDetector.onIdleCallback (idleDetector (manager (step ev s))) = None.
Proof.
  intros Hcb. destruct ev as [log| | |n r|]; simpl.
  - done.
  - by rewrite Hcb.
  - unfold forceUpload, uploadPendingLogs.
    by destruct (isUploading (manager s)).
  - destruct (tasks s !! n) as [f|]; [|done].
    pose proof (resume_static f r (manager s) (world s)) as (_ & _ & _ & Hd & _).
    destruct (resume f r (manager s) (world s)) as [[st m] w]. simpl in *.
    by rewrite Hd.
  - done.
Qed.

Lemma steps_no_callback evs :
  ∀ s,
    IdleDetector.onIdleCallback (idleDetector (manager s)) = None →
    IdleDetector.onIdleCallback (idleDetector (manager (steps evs s))) = None.
Proof.
  induction evs as [|ev evs IH]; intros s Hcb; [done|].
  apply IH. by apply step_no_callback.
Qed.

(** X26.  A manager constructed with the immediate strategy registers no
    idle callback and no later event registers one: an idle notification,
    wherever it falls among the other events, changes nothing, so a record
    whose immediate upload failed is sent again only by [forceUpload]. *)
Theorem immediate_strategy_ignores_idle_notifications :
  ∀ (u : LogUploader.t) (b : Z) (w : World) (before after : list Event),
    steps (before ++ IdleFired :: after) (start u Immediate b w)
    = steps (before ++ after) (start u Immediate b w) ∧
    strategy (manager (steps before (start u Immediate b w))) = Immediate.
Proof.
  intros u b w before after. split.
  - unfold steps. rewrite !foldl_app. cbn [foldl]. f_equal.
    fold (steps before (start u Immediate b w)).
    pose proof (steps_no_callback before (start u Immediate b w) eq_refl) as Hcb.
    simpl. by rewrite Hcb.
  - generalize (start u Immediate b w) (eq_refl : strategy (manager (start u Immediate b w)) = Immediate).
    induction before as [|ev evs IH]; intros s Hs; [done|].
    apply IH. destruct ev as [log| | |n r|]; simpl; try done.
    + destruct (IdleDetector.onIdleCallback _) as [[]|]; [|done].
      unfold uploadPendingLogs. by destruct (isUploading (manager s)).
    + unfold forceUpload, uploadPendingLogs. by destruct (isUploading (manager s)).
    + destruct (tasks s !! n) as [f|]; [|done].
      pose proof (resume_static f r (manager s) (world s)) as (_ & Hst & _).
      destruct (resume f r (manager s) (world s)) as [[st m] w0]. simpl in *.
      by rewrite Hst.
Qed.

End NoCallback.


(** X30.  [startPeriodicCleanup] overwrites the handle it holds without
    clearing the interval it names.  On a fresh logger, an [updateConfig]
    that changes the retention to a positive number of days schedules one
    interval; the [init] that follows schedules a second one and orphans
    the first; [destroy] then clears only the one whose handle is held, so
    one interval stays scheduled on the platform, and when it fires it
    runs a cleanup under that retention. *)
Theorem cleanup_interval_orphaned_by_init_survives_destroy :
  ∀ (env : Env) (config : LoggerConfig) (days : Z) (w : World),
    0 < days →
    days ≠ logExpiration (mergeConfig config) →
    let fresh := Logger.new config w in
    let changed :=
      Logger.updateConfig env
        (mkLoggerConfig None None None (Some days) None None)
        fresh.1 fresh.2 in
    env (served changed.2) OpOpen = IoSuccess →
    let ready := Logger.init env changed.1 changed.2 in
    let gone := Logger.destroy ready.1.2 in
    CleanupManager.scheduled (Logger.cleanupManager changed.1) = [days] ∧
    CleanupManager.scheduled (Logger.cleanupManager ready.1.2) = [days; days] ∧
    CleanupManager.cleanupInterval (Logger.cleanupManager gone) = None ∧
    CleanupManager.scheduled (Logger.cleanupManager gone) = [days] ∧
    ∀ w', CleanupManager.fires env 0 (Logger.cleanupManager gone) w'
          = CleanupManager.performCleanup env days w'.
Proof.
  intros env config days w Hpos Hne fresh changed Hopen ready gone.
  assert (Hchanged : Logger.cleanupManager changed.1
                     = CleanupManager.mk (Some days) [] ∧
                     Logger.initialized changed.1 = false ∧
                     logExpiration (Logger.config changed.1) = days).
  { subst changed fresh. unfold Logger.updateConfig, Logger.new.
    rewrite mergeConfig_overConfig. cbn [fst snd Logger.config].
    set (config' := spread (mergeConfig config)
                      (mkLoggerConfig None None None (Some days) None None)).
    assert (Hdays : logExpiration config' = days) by done.
    rewrite Hdays.
    rewrite (bool_decide_eq_true_2 (logExpiration _ ≠ _)) by done.
    rewrite (proj2 (Z.ltb_lt 0 days)) by done. done. }
  destruct Hchanged as (Hc & Hi & Hdays).
  assert (Hready : Logger.cleanupManager ready.1.2
                   = CleanupManager.mk (Some days) [days]).
  { subst ready. unfold Logger.init. rewrite Hi, Hopen. cbn [Storage.init].
    rewrite Hdays, (proj2 (Z.ltb_lt 0 days)) by done.
    cbn [fst snd Logger.cleanupManager CleanupManager.startPeriodicCleanup].
    by rewrite Hc. }
  split; [by rewrite Hc|]. split; [by rewrite Hready|].
  subst gone. unfold Logger.destroy. cbn [Logger.cleanupManager].
  rewrite Hready. done.
Qed.

Lemma cleanup_interval_orphaned_by_init_survives_destroy_witness :
  let env := platform (λ _, IoSuccess) in
  let fresh := Logger.new noConfig closedWorld in
  let changed :=
    Logger.updateConfig env (mkLoggerConfig None None None (Some 7) None None)
      fresh.1 fresh.2 in
  let ready := Logger.init env changed.1 changed.2 in
  CleanupManager.scheduled (Logger.cleanupManager (Logger.destroy ready.1.2))
  = [7].
Proof.
  intros env fresh changed ready.
  refine (proj1 (proj2 (proj2 (proj2
            (cleanup_interval_orphaned_by_init_survives_destroy env noConfig 7
               closedWorld _ _ _))))); by vm_compute.
Defined.
